(** * ColorScan: the analysis pipeline of [ColorScan.py]

    A shallow embedding of the algorithmic core of [AnalysisWindow]:
    contour extraction ([cvContour]), morphology ([cvDilateErode]), the
    similarity matcher ([getSimilarContours], [appendContour]), centroid
    computation ([findCenters]), zone ordering and sampling
    ([analyzeContours], [getAvColor]) and the CSV writer ([saveColors]);
    and of what surrounds it: the mask generator ([cvMask]), hovering
    ([drawContours]), the histogram engine ([imageChannelHistogram],
    [saveHistogram]), the display geometry ([windowAspectAdjust],
    [convertCoords]), the polygon vertices ([regularPolygonPoints]), the
    naming of the output folder and the preset table ([savePreset],
    [loadPreset]).

    Numbers.  The program computes on IEEE doubles.  Areas and tolerances are
    embedded as rationals [Q] (contour areas are half-integers, tolerances are
    decimal fractions, so the comparisons are exact there); colour statistics
    need square roots and are embedded as reals [R].  Rounding error of the
    floating-point operations is outside the model.

    Library calls.  OpenCV and NumPy are not part of the repository.  The
    calls the program makes are embedded by their documented meaning, under
    the names the source uses ([contourArea], [moments], [HuMoments],
    [np_isclose], [np_union1d], [cv_dilate], [cv_erode], ...). *)

From Stdlib Require Import String Ascii.
From Stdlib Require Import List ZArith QArith Qabs Qround Lia Bool.
From Stdlib Require Import Permutation Sorting.Sorted.
From Stdlib Require Import Lqa.
From Stdlib Require Import Reals Lra Qreals.
From Stdlib Require Import DecimalString.
Import ListNotations.

Local Open Scope Z_scope.

(** ** Python values and exceptions *)

Inductive exn : Type :=
| IndexError
| ZeroDivisionError
| ValueError
| UnboundLocalError.

Inductive result (A : Type) : Type :=
| Ok (a : A)
| Raise (e : exn).
Arguments Ok {A} a.
Arguments Raise {A} e.

Definition bind {A B} (r : result A) (k : A -> result B) : result B :=
  match r with
  | Ok a => k a
  | Raise e => Raise e
  end.

Notation "x <- r ;; k" := (bind r (fun x => k))
  (at level 61, r at next level, right associativity).
Notation "' p <- r ;; k" := (bind r (fun x => let 'p := x in k))
  (at level 61, p pattern, r at next level, right associativity).

(** [seq[i]] for a Python sequence: a negative index counts from the end,
    an index outside [-len, len) raises [IndexError]. *)
Definition py_index {A} (l : list A) (i : Z) : result A :=
  let n := Z.of_nat (length l) in
  let j := if i <? 0 then i + n else i in
  if (0 <=? j) && (j <? n) then
    match nth_error l (Z.to_nat j) with
    | Some a => Ok a
    | None => Raise IndexError
    end
  else Raise IndexError.

(** [a[idx]] for an index array [idx] whose entries are positions of [a]
    (NumPy's integer-array indexing). *)
Definition take {A} (d : A) (idx : list nat) (a : list A) : list A :=
  map (fun i => nth i a d) idx.

(** ** Sorting index arrays

    [np.argsort] and [np.lexsort] return a permutation of [0 .. n-1] that
    sorts the keys.  The embedding is an insertion sort that moves an element
    only past strictly smaller ones, so it is stable, as [np.lexsort] is;
    [np.argsort] leaves the order of equal keys open, and nothing below
    depends on it. *)

Section Sorting.
Context {A : Type} (leb : A -> A -> bool).

Fixpoint insert_by (x : A) (l : list A) : list A :=
  match l with
  | [] => [x]
  | y :: l' => if leb x y then x :: y :: l' else y :: insert_by x l'
  end.

Fixpoint sort_by (l : list A) : list A :=
  match l with
  | [] => []
  | x :: l' => insert_by x (sort_by l')
  end.
End Sorting.

(** ** Contours and their OpenCV measurements *)

Definition Point : Type := (Z * Z)%type.
Definition contour : Type := list Point.

(** Green's formula, as [cv2.contourArea] and [cv2.moments] evaluate it on a
    polygon with integer vertices: the sum runs over the edges
    [(prev, p)], starting with the edge from the last vertex to the first. *)
Definition dxy (prev p : Point) : Z := fst prev * snd p - fst p * snd prev.

Fixpoint green (w : Point -> Point -> Z) (prev : Point) (c : contour) : Z :=
  match c with
  | [] => 0
  | p :: c' => dxy prev p * w prev p + green w p c'
  end.

Definition green_sum (w : Point -> Point -> Z) (c : contour) : Z :=
  match c with
  | [] => 0
  | p0 :: _ => green w (last c p0) c
  end.

Definition a00 (c : contour) : Z := green_sum (fun _ _ => 1) c.
Definition a10 (c : contour) : Z := green_sum (fun prev p => fst prev + fst p) c.
Definition a01 (c : contour) : Z := green_sum (fun prev p => snd prev + snd p) c.

(** [cv2.contourArea(c)]: half the absolute value of the Green sum. *)
Definition contourArea (c : contour) : Q := Z.abs (a00 c) # 2.

(** [cv2.moments(c)] on a contour: the spatial moments up to order one.
    OpenCV scales the Green sums by [1/2] and [1/6], with the sign that makes
    [m00] non-negative, and returns zero moments when the sum [a00] is 0. *)
Record Moments : Type := { m00 : Q; m10 : Q; m01 : Q }.

Definition moments (c : contour) : Moments :=
  let sgn := Z.sgn (a00 c) in
  {| m00 := (sgn * a00 c) # 2;
     m10 := (sgn * a10 c) # 6;
     m01 := (sgn * a01 c) # 6 |}.

(** ** Contour extractor: [AnalysisWindow.cvContour] *)

Definition Qgt_bool (x y : Q) : bool := negb (Qle_bool x y).

Definition np_argsort (keys : list Q) : list nat :=
  sort_by (fun i j => Qle_bool (nth i keys 0%Q) (nth j keys 0%Q))
          (seq 0 (length keys)).

Record Extracted : Type := { ex_contours : list contour; ex_sizes : list Q }.

(** The branch taken for a single-channel mask ([found] is what
    [cv2.findContours] returned for it); for any other buffer the method
    prints a message and extracts nothing. *)
Definition cvContour (found : list contour) : Extracted :=
  let sizes0 := map contourArea found in
  let bysize := np_argsort sizes0 in
  let bysize := filter (fun i => Qgt_bool (nth i sizes0 0%Q) 5) bysize in
  {| ex_contours := take [] bysize found;
     ex_sizes := take 0%Q bysize sizes0 |}.

(** ** NumPy operations used by the matcher *)

Local Open Scope Q_scope.

(** [np.clip(x, lo, hi)] = [minimum(maximum(x, lo), hi)]. *)
Definition np_clip (x lo hi : Q) : Q :=
  let y := if Qle_bool lo x then x else lo in
  if Qle_bool y hi then y else hi.

(** Round to the nearest integer, ties to the even one. *)
Definition round_half_even (x : Q) : Z :=
  let f := Qfloor x in
  match Qcompare (x - inject_Z f) (1 # 2) with
  | Lt => f
  | Gt => (f + 1)%Z
  | Eq => if Z.even f then f else (f + 1)%Z
  end.

(** [np.round(x, decimals)]: a multiple of [10^-decimals]. *)
Definition np_round (x : Q) (decimals : nat) : Q :=
  let scale := Pos.pow 10 (Pos.of_nat decimals) in
  match decimals with
  | O => inject_Z (round_half_even x)
  | S _ => round_half_even (x * inject_Z (Zpos scale)) # scale
  end.

(** [np.isclose(a, b, rtol, atol)]: [|a - b| <= atol + rtol * |b|]; the
    program leaves [atol] at its default, [1e-8]. *)
Definition default_atol : Q := 1 # 100000000.

Definition np_isclose (a b rtol atol : Q) : bool :=
  Qle_bool (Qabs (a - b)) (atol + rtol * Qabs b).

(** [np.where(mask)[0]]: the positions that hold [True], ascending. *)
Fixpoint where_from (i : Z) (mask : list bool) : list Z :=
  match mask with
  | [] => []
  | b :: mask' =>
      if b then i :: where_from (i + 1) mask' else where_from (i + 1) mask'
  end.

Definition np_where (mask : list bool) : list Z := where_from 0%Z mask.

(** [x in l] and [l.remove(x)] (first occurrence) on Python lists of
    indices. *)
Definition py_in (x : Z) (l : list Z) : bool := existsb (Z.eqb x) l.

Fixpoint py_remove (x : Z) (l : list Z) : list Z :=
  match l with
  | [] => []
  | y :: l' => if (x =? y)%Z then l' else y :: py_remove x l'
  end.

(** [np.unique]: sorted, without repetitions. *)
Fixpoint uinsert (x : Z) (l : list Z) : list Z :=
  match l with
  | [] => [x]
  | y :: l' =>
      if (x <? y)%Z then x :: l
      else if (x =? y)%Z then l
      else y :: uinsert x l'
  end.

Definition np_unique (l : list Z) : list Z := fold_right uinsert [] l.

Definition np_union1d (a b : list Z) : list Z := np_unique (a ++ b).

Definition np_setdiff1d (a b : list Z) : list Z :=
  filter (fun x => negb (py_in x b)) (np_unique a).

(** [int(q)]: truncation towards zero. *)
Definition py_int (q : Q) : Z := Z.quot (Qnum q) (Zpos (Qden q)).

(** [a / b] on Python floats. *)
Definition py_div (a b : Q) : result Q :=
  if Qeq_bool b 0 then Raise ZeroDivisionError else Ok (a / b).

(** [[f(x) for x in l]] where [f] may raise. *)
Fixpoint mapM {A B} (f : A -> result B) (l : list A) : result (list B) :=
  match l with
  | [] => Ok []
  | x :: l' => y <- f x ;; ys <- mapM f l' ;; Ok (y :: ys)
  end.

(** ** Similarity matcher *)

(** The state of [AnalysisWindow] that the matcher reads and writes. *)
Record Matcher : Type := {
  contours : list contour;
  sizes : list Q;
  selectedCont : Z;
  inContour : Z;
  V_sizeTol : Q;
  V_shapeTol : Q;
  closeInds : list Z;
  closeIndsPlus : list Z;
  addConts : list Z;
  removeConts : list Z;
  centers : list (Z * Z);
  closeSizes : list Q;
  indDict : list (Z * nat)
}.

(** [findCenters]: centroid and zeroth moment of every contour of
    [closeIndsPlus]. *)
Definition centroid (c : contour) : result (Z * Z * Q) :=
  let M := moments c in
  cx <- py_div (m10 M) (m00 M) ;;
  cy <- py_div (m01 M) (m00 M) ;;
  Ok (py_int cx, py_int cy, m00 M).

Definition findCenters (w : Matcher) : result Matcher :=
  rows <- mapM (fun ind => cont <- py_index (contours w) ind ;; centroid cont)
               (closeIndsPlus w) ;;
  Ok {| contours := contours w; sizes := sizes w;
        selectedCont := selectedCont w; inContour := inContour w;
        V_sizeTol := V_sizeTol w; V_shapeTol := V_shapeTol w;
        closeInds := closeInds w; closeIndsPlus := closeIndsPlus w;
        addConts := addConts w; removeConts := removeConts w;
        centers := map fst rows;
        closeSizes := map snd rows;
        indDict := combine (closeIndsPlus w) (seq 0 (length rows)) |}.

(** [selectContour]: a click inside a contour makes it the reference and
    resets the three index lists. *)
Definition selectContour (w : Matcher) : Matcher :=
  if (inContour w =? -1)%Z then w
  else
    {| contours := contours w; sizes := sizes w;
       selectedCont := inContour w; inContour := inContour w;
       V_sizeTol := V_sizeTol w; V_shapeTol := V_shapeTol w;
       closeInds := []; closeIndsPlus := closeIndsPlus w;
       addConts := []; removeConts := [];
       centers := centers w; closeSizes := closeSizes w;
       indDict := indDict w |}.

Definition with_lists (w : Matcher) (close plus add rem : list Z) : Matcher :=
  {| contours := contours w; sizes := sizes w;
     selectedCont := selectedCont w; inContour := inContour w;
     V_sizeTol := V_sizeTol w; V_shapeTol := V_shapeTol w;
     closeInds := close; closeIndsPlus := plus;
     addConts := add; removeConts := rem;
     centers := centers w; closeSizes := closeSizes w;
     indDict := indDict w |}.

(** [appendContour]: a shift-click on the contour under the mouse. *)
Definition appendContour (w : Matcher) : result Matcher :=
  match closeInds w with
  | [] => Ok (selectContour w)
  | _ :: _ =>
      let k := inContour w in
      let inClose := py_in k (closeInds w) in
      let inAdd := py_in k (addConts w) in
      let inRem := py_in k (removeConts w) in
      let add :=
        if negb inClose && negb inAdd then addConts w ++ [k]
        else if negb inClose && inAdd then py_remove k (addConts w)
        else addConts w in
      let rem :=
        if negb inClose then removeConts w
        else if negb inRem then removeConts w ++ [k]
        else py_remove k (removeConts w) in
      let plus := np_union1d (closeInds w) add in
      let plus := np_setdiff1d plus rem in
      findCenters (with_lists w (closeInds w) plus add rem)
  end.

Section ShapeMatch.
(** The invariant components that [cv2.matchShapes] derives from a
    contour (the sign-adjusted logarithms of its Hu moments); OpenCV
    computes them, the program only compares the resulting scores. *)
Variable invariants : contour -> list Q.

(** [cv2.matchShapes(A, B, CV_CONTOURS_MATCH_I3, 0)]: "greatest absolute
    difference of image invariants, normalized to A". *)
Definition I3_term (mA mB : Q) : Q := Qabs (mA - mB) / Qabs mA.

Definition I3_terms (A B : contour) : list Q :=
  map (fun m => I3_term (fst m) (snd m))
      (combine (invariants A) (invariants B)).

Definition matchShapes_I3 (A B : contour) : Q :=
  fold_left (fun res mmm => if Qgt_bool mmm res then mmm else res)
            (I3_terms A B) 0.

(** [getSimilarContours]: size filter, shape filter, reset of the removed
    list, effective set, centres. *)
Definition sizeFilter (szs : list Q) (ref : Q) (tol : Q) : list Z :=
  np_where (map (fun a => np_isclose a ref (tol / 100) default_atol) szs).

Definition shapeFilter (cs : list contour) (ref : contour) (tol : Q)
    (cands : list Z) : result (list Z) :=
  shapeMatches <-
    mapM (fun ind => c <- py_index cs ind ;; Ok (matchShapes_I3 c ref))
         cands ;;
  let doesMatch := map (fun sc => Qgt_bool tol sc) shapeMatches in
  Ok (map fst (filter snd (combine cands doesMatch))).

Definition getSimilarContours (w : Matcher) : result Matcher :=
  let sizeTol := np_round (np_clip (V_sizeTol w) 0 100) 1 in
  let shapeTol := np_round (np_clip (V_shapeTol w) 0 2) 3 in
  refSize <- py_index (sizes w) (selectedCont w) ;;
  let close := sizeFilter (sizes w) refSize sizeTol in
  refCont <- py_index (contours w) (selectedCont w) ;;
  close <- shapeFilter (contours w) refCont shapeTol close ;;
  let plus := np_union1d close (addConts w) in
  findCenters
    {| contours := contours w; sizes := sizes w;
       selectedCont := selectedCont w; inContour := inContour w;
       V_sizeTol := sizeTol; V_shapeTol := shapeTol;
       closeInds := close; closeIndsPlus := plus;
       addConts := addConts w; removeConts := [];
       centers := centers w; closeSizes := closeSizes w;
       indDict := indDict w |}.
End ShapeMatch.

Local Close Scope Q_scope.

(** ** Mask generator: [AnalysisWindow.cvDilateErode] *)

Section Morphology.
(** The mask buffer and OpenCV's two morphological operators; the second
    argument is the kernel argument the program passes. *)
Variable Mask : Type.
Variable dilate erode : Mask -> Z * Z -> Mask.

Record MorphState : Type := {
  analyzed : Mask;
  dilateCounter : Z;
  erodeCounter : Z
}.

Definition is_char (c : ascii) (code : ascii) : bool := Ascii.eqb code c.

(** One iteration of the loop over [range(len(dilerocode_text))]. *)
Definition dilero_step (text : string) (st : MorphState) (i : nat)
    : MorphState :=
  match String.get i text with
  | None => st
  | Some code =>
      let st1 :=
        if is_char "d" code then
          {| analyzed := dilate (analyzed st) (5, 5);
             dilateCounter := dilateCounter st + 1;
             erodeCounter := erodeCounter st |}
        else st in
      if is_char "e" code then
        {| analyzed := erode (analyzed st1) (5, 5);
           dilateCounter := dilateCounter st1;
           erodeCounter := erodeCounter st1 + 1 |}
      else st1
  end.

Definition cvDilateErode (text : string) (mask : Mask) : MorphState :=
  fold_left (dilero_step text) (seq 0 (String.length text))
            {| analyzed := mask; dilateCounter := 0; erodeCounter := 0 |}.

(** The specification's reading: the recorded sequence of operations,
    applied first to last with one fixed kernel. *)
Inductive MorphOp : Type := Dilate | Erode.

Fixpoint recorded_ops (text : string) : list MorphOp :=
  match text with
  | EmptyString => []
  | String c text' =>
      if is_char "d" c then Dilate :: recorded_ops text'
      else if is_char "e" c then Erode :: recorded_ops text'
      else recorded_ops text'
  end.

Definition apply_op (kernel : Z * Z) (m : Mask) (op : MorphOp) : Mask :=
  match op with
  | Dilate => dilate m kernel
  | Erode => erode m kernel
  end.

Definition apply_ops (kernel : Z * Z) (ops : list MorphOp) (m : Mask)
    : Mask :=
  fold_left (apply_op kernel) ops m.

Definition is_dilate (op : MorphOp) : bool :=
  match op with Dilate => true | Erode => false end.

Definition is_erode (op : MorphOp) : bool :=
  match op with Dilate => false | Erode => true end.

Definition count_ops (f : MorphOp -> bool) (ops : list MorphOp) : Z :=
  Z.of_nat (length (filter f ops)).
End Morphology.

(** ** What OpenCV does with the kernel argument

    [cv2.dilate(src, kernel)] and [cv2.erode(src, kernel)] on an 8-bit
    single-channel image: the structuring element is the set of non-zero
    entries of [kernel], anchored at its centre; a pixel of the result is
    the maximum (the minimum) of the source over the element placed on it,
    and positions outside the image do not count. *)

Definition Image : Type := list (list Z).

(** The rows of a structuring element. *)
Definition Kernel : Type := list (list Z).

(** The Python binding takes a tuple of numbers given for a matrix argument
    as a one-column matrix with one row per entry: [(5, 5)] is the kernel
    of two rows and one column with the entries 5 and 5. *)
Definition kernel_of_tuple (t : Z * Z) : Kernel := [[fst t]; [snd t]].

(** [np.ones((rows, cols))] *)
Definition np_ones (rows cols : nat) : Kernel := repeat (repeat 1 cols) rows.

Definition indexed {A} (l : list A) : list (Z * A) :=
  combine (map Z.of_nat (seq 0 (length l))) l.

Definition pixel_at (img : Image) (x y : Z) : option Z :=
  if (0 <=? x) && (0 <=? y) then
    match nth_error img (Z.to_nat y) with
    | Some row => nth_error row (Z.to_nat x)
    | None => None
    end
  else None.

(** The offsets [(dx, dy)] of the element from its anchor
    [(cols / 2, rows / 2)]. *)
Definition kernel_offsets (k : Kernel) : list (Z * Z) :=
  let ay := Z.of_nat (length k) / 2 in
  let ax := Z.of_nat (length (hd [] k)) / 2 in
  flat_map (fun yr =>
              flat_map (fun xv => if snd xv =? 0 then []
                                  else [(fst xv - ax, fst yr - ay)])
                       (indexed (snd yr)))
           (indexed k).

Definition morph (pick : Z -> Z -> Z) (init : Z) (img : Image) (k : Kernel)
    : Image :=
  map (fun yr =>
         map (fun xv =>
                fold_left (fun acc d =>
                             match pixel_at img (fst xv + fst d)
                                            (fst yr + snd d) with
                             | Some v => pick acc v
                             | None => acc
                             end)
                          (kernel_offsets k) init)
             (indexed (snd yr)))
      (indexed img).

Definition cv_dilate (img : Image) (k : Kernel) : Image := morph Z.max 0 img k.
Definition cv_erode (img : Image) (k : Kernel) : Image := morph Z.min 255 img k.

(** The two calls of [cvDilateErode], whose kernel argument is a tuple. *)
Definition dilate_tuple (img : Image) (t : Z * Z) : Image :=
  cv_dilate img (kernel_of_tuple t).

Definition erode_tuple (img : Image) (t : Z * Z) : Image :=
  cv_erode img (kernel_of_tuple t).

(** A mask of 5 by 5 pixels with one pixel set, and one with one pixel
    clear. *)
Definition dot_mask : Image :=
  [[0; 0; 0; 0; 0];
   [0; 0; 0; 0; 0];
   [0; 0; 255; 0; 0];
   [0; 0; 0; 0; 0];
   [0; 0; 0; 0; 0]].

Definition hole_mask : Image :=
  [[255; 255; 255; 255; 255];
   [255; 255; 255; 255; 255];
   [255; 255; 0; 255; 255];
   [255; 255; 255; 255; 255];
   [255; 255; 255; 255; 255]].


(** ** Zone ordering: [np.lexsort((centers[:,0], centers[:,1]))] *)

(** The last key is the primary one: rows are compared by [y], then [x]. *)
Definition lex_leb (keys : list (Z * Z)) (i j : nat) : bool :=
  let ki := nth i keys (0, 0) in
  let kj := nth j keys (0, 0) in
  (snd ki <? snd kj) || ((snd ki =? snd kj) && (fst ki <=? fst kj)).

Definition np_lexsort (xs ys : list Z) : list nat :=
  sort_by (lex_leb (combine xs ys)) (seq 0 (length ys)).

(** [a[idx]] when [idx] is not known to fit [a]. *)
Definition np_take {A} (idx : list nat) (a : list A) : result (list A) :=
  mapM (fun i => match nth_error a i with
                 | Some v => Ok v
                 | None => Raise IndexError
                 end) idx.

(** [np.argmax]: the first position of the greatest entry. *)
Fixpoint argmax_from (best : Q) (bi i : nat) (l : list Q) : nat :=
  match l with
  | [] => bi
  | x :: l' =>
      if Qgt_bool x best then argmax_from x i (S i) l'
      else argmax_from best bi (S i) l'
  end.

Definition np_argmax (l : list Q) : result nat :=
  match l with
  | [] => Raise ValueError
  | x :: l' => Ok (argmax_from x 0%nat 1%nat l')
  end.

(** ** Colorimetric sampler *)

Local Open Scope R_scope.

(** A three-channel value, in the channel order of the array it came from. *)
Definition Vec3 : Type := (R * R * R)%type.

Definition ch0 (v : Vec3) : R := fst (fst v).
Definition ch1 (v : Vec3) : R := snd (fst v).
Definition ch2 (v : Vec3) : R := snd v.

(** [v[::-1]] *)
Definition reversed (v : Vec3) : Vec3 := (ch2 v, ch1 v, ch0 v).

Definition Rsum (l : list R) : R := fold_right Rplus 0 l.

Definition mean (l : list R) : R := Rsum l / INR (length l).

(** Population standard deviation ([ddof = 0]), as [np.std]. *)
Definition std (l : list R) : R :=
  sqrt (mean (map (fun x => (x - mean l) * (x - mean l)) l)).

Definition mean3 (px : list Vec3) : Vec3 :=
  (mean (map ch0 px), mean (map ch1 px), mean (map ch2 px)).

Definition std3 (px : list Vec3) : Vec3 :=
  (std (map ch0 px), std (map ch1 px), std (map ch2 px)).

(** An entry of a NumPy masked array: the stored data and whether the entry
    is masked.  A reduction over no elements is masked; its data is the
    value of [0 / 0] in [R]. *)
Record Masked3 : Type := { ma_data : Vec3; ma_masked : bool }.

(** The pixels that [np.ma.MaskedArray(im, mask=1-mask3D)] keeps: those whose
    mask value is 255, for which [1 - mask/255] is zero. *)
Definition included (im : list Vec3) (mask : list Z) : list Vec3 :=
  map fst (filter (fun pm => (snd pm =? 255)%Z) (combine im mask)).

Definition is_nil {A} (l : list A) : bool :=
  match l with [] => true | _ :: _ => false end.

(** [getAvColor(im, mask)] on a crop, flattened row by row. *)
Definition getAvColor (im : list Vec3) (mask : option (list Z))
    : Masked3 * Masked3 :=
  match mask with
  | Some mask =>
      let immasked := included im mask in
      ({| ma_data := mean3 immasked; ma_masked := is_nil immasked |},
       {| ma_data := std3 immasked; ma_masked := is_nil immasked |})
  | None =>
      ({| ma_data := mean3 im; ma_masked := false |},
       {| ma_data := std3 im; ma_masked := false |})
  end.

(** The window [[y:y+h, x:x+w]] of the three views of the image and of the
    zone mask. *)
Record ZoneCrop : Type := {
  crop_im : list Vec3;
  crop_imHSV : list Vec3;
  crop_imLAB : list Vec3;
  crop_mask : list Z
}.

(** One row of the arrays [avcolorsRGB], [stdsRGB], ..., [maskAreas]. *)
Record ColorSample : Type := {
  avcolorRGB : Vec3; stdRGB : Vec3;
  avcolorHSV : Vec3; stdHSV : Vec3;
  avcolorLAB : Vec3; stdLAB : Vec3;
  maskArea : R
}.

Definition sampleZone (z : ZoneCrop) : ColorSample :=
  let rgb := getAvColor (crop_im z) (Some (crop_mask z)) in
  let hsv := getAvColor (crop_imHSV z) (Some (crop_mask z)) in
  let lab := getAvColor (crop_imLAB z) (Some (crop_mask z)) in
  {| avcolorRGB := reversed (ma_data (fst rgb));
     stdRGB := reversed (ma_data (snd rgb));
     avcolorHSV := ma_data (fst hsv); stdHSV := ma_data (snd hsv);
     avcolorLAB := ma_data (fst lab); stdLAB := ma_data (snd lab);
     maskArea := IZR (fold_right Z.add 0%Z (crop_mask z)) / 255 |}.

(** ** CSV writer: [AnalysisWindow.saveColors] *)

Definition RGB2grayscale_weights : Vec3 := (0.299, 0.587, 0.114).

(** [np.dot(v, w)] for one row. *)
Definition dot (v w : Vec3) : R :=
  ch0 v * ch0 w + ch1 v * ch1 w + ch2 v * ch2 w.

Definition squared (v : Vec3) : Vec3 :=
  (ch0 v * ch0 v, ch1 v * ch1 v, ch2 v * ch2 v).

Definition Rround_half_even (x : R) : Z :=
  let f := Int_part x in
  if Rlt_dec (frac_part x) (1 / 2) then f
  else if Rlt_dec (1 / 2) (frac_part x) then (f + 1)%Z
  else if Z.even f then f else (f + 1)%Z.

Definition np_round8 (x : R) : R :=
  IZR (Rround_half_even (x * 10 ^ 8)) / 10 ^ 8.

Inductive cell : Type :=
| CId (n : nat)
| CNum (x : R)
| CBlank.

Record CSV : Type := { header : string; rows : list (list cell) }.

Definition cells3 (v : Vec3) : list cell := [CNum (ch0 v); CNum (ch1 v); CNum (ch2 v)].

(** [np.concatenate((a, b), axis=1)] on arrays with equally many rows. *)
Fixpoint hconcat (a b : list (list cell)) : result (list (list cell)) :=
  match a, b with
  | [], [] => Ok []
  | ra :: a', rb :: b' => rest <- hconcat a' b' ;; Ok ((ra ++ rb) :: rest)
  | _, _ => Raise ValueError
  end.

(** A local variable that is only bound on one branch. *)
Definition local {A} (v : option A) : result A :=
  match v with
  | Some a => Ok a
  | None => Raise UnboundLocalError
  end.

Definition saveColors (n : nat) (V_saveRGB V_saveHSV V_saveLAB : bool)
    (samples : list ColorSample) : result CSV :=
  let labelcol := map (fun i => [CId i]) (seq 1 n) in
  let spacer := map (fun _ => [CBlank]) labelcol in
  let full := labelcol in
  let hdr := "id"%string in
  let rgb := if V_saveRGB then Some (map avcolorRGB samples) else None in
  let std_rgb := if V_saveRGB then Some (map stdRGB samples) else None in
  '(full, hdr) <-
    (if V_saveRGB then
       rgb_s <- local rgb ;; std_rgb_s <- local std_rgb ;;
       f1 <- hconcat full (map cells3 rgb_s) ;;
       f2 <- hconcat f1 (map cells3 std_rgb_s) ;;
       f3 <- hconcat f2 spacer ;;
       Ok (f3, (hdr ++ ",R,G,B,std R,std G,std B,")%string)
     else Ok (full, hdr)) ;;
  rgbv <- local rgb ;;
  let grayscale := map (fun v => dot v RGB2grayscale_weights) rgbv in
  std_rgbv <- local std_rgb ;;
  let std_grayscale :=
    map (fun v => sqrt (dot (squared v) (squared RGB2grayscale_weights)))
        std_rgbv in
  let hdr := (hdr ++ ",Gray,std Gray,")%string in
  f1 <- hconcat full (map (fun g => [CNum g]) grayscale) ;;
  f2 <- hconcat f1 (map (fun g => [CNum g]) std_grayscale) ;;
  full <- hconcat f2 spacer ;;
  '(full, hdr) <-
    (if V_saveHSV then
       let conv := fun v : Vec3 =>
         (ch0 v / 180 * 360, np_round8 (ch1 v / 255), np_round8 (ch2 v / 255)) in
       f1 <- hconcat full (map (fun c => cells3 (conv (avcolorHSV c))) samples) ;;
       f2 <- hconcat f1 (map (fun c => cells3 (conv (stdHSV c))) samples) ;;
       f3 <- hconcat f2 spacer ;;
       Ok (f3, (hdr ++ ",H,S,V,std H,std S,std V,")%string)
     else Ok (full, hdr)) ;;
  '(full, hdr) <-
    (if V_saveLAB then
       let lab := fun v : Vec3 =>
         (np_round8 (ch0 v / 255 * 100), ch1 v - 128, ch2 v - 128) in
       let std_lab := fun v : Vec3 =>
         (np_round8 (ch0 v / 255 * 100), ch1 v, ch2 v) in
       f1 <- hconcat full (map (fun c => cells3 (lab (avcolorLAB c))) samples) ;;
       f2 <- hconcat f1 (map (fun c => cells3 (std_lab (stdLAB c))) samples) ;;
       f3 <- hconcat f2 spacer ;;
       Ok (f3, (hdr ++ ",L,a,b,std L,std a,std b,")%string)
     else Ok (full, hdr)) ;;
  full <- hconcat full (map (fun c => [CNum (maskArea c)]) samples) ;;
  Ok {| header := (hdr ++ ",Area [pixels]")%string; rows := full |}.

Local Close Scope R_scope.

(** ** Final analysis: [AnalysisWindow.analyzeContours] *)

Section Analysis.
(** A refined zone mask, and the two ways a zone is cut out of the image:
    the filled contour inside its bounding rectangle, or the refined mask
    inside the window around the refined centre.  Both are OpenCV drawing
    and array slicing. *)
Variable Mask : Type.
Variable contourZone : contour -> ZoneCrop.
Variable refinedZone : Mask -> Z * Z -> ZoneCrop.

Record Session : Type := {
  win : Matcher;
  refinedMasks : list Mask;
  refinedCenters : list (Z * Z);
  V_saveRGB : bool;
  V_saveHSV : bool;
  V_saveLAB : bool
}.

(** The zone of loop index [i]. *)
Definition zoneOf (cs : list contour) (plus : list Z)
    (rmasks : list Mask) (rcenters : list (Z * Z)) (i : nat)
    : result ZoneCrop :=
  ind <- py_index plus (Z.of_nat i) ;;
  cont <- py_index cs ind ;;
  if is_nil rmasks then Ok (contourZone cont)
  else
    contMask <- py_index rmasks (Z.of_nat i) ;;
    center <- py_index rcenters (Z.of_nat i) ;;
    Ok (refinedZone contMask center).

Definition zero3 : Vec3 := (0%R, 0%R, 0%R).

(** A row of [np.zeros]. *)
Definition zero_sample : ColorSample :=
  {| avcolorRGB := zero3; stdRGB := zero3;
     avcolorHSV := zero3; stdHSV := zero3;
     avcolorLAB := zero3; stdLAB := zero3;
     maskArea := 0%R |}.

Definition reordered (s : Session) (plus : list Z) (cents : list (Z * Z))
    (rmasks : list Mask) (rcenters : list (Z * Z)) : Session :=
  let w := win s in
  {| win :=
       {| contours := contours w; sizes := sizes w;
          selectedCont := selectedCont w; inContour := inContour w;
          V_sizeTol := V_sizeTol w; V_shapeTol := V_shapeTol w;
          closeInds := closeInds w; closeIndsPlus := plus;
          addConts := addConts w; removeConts := removeConts w;
          centers := cents; closeSizes := closeSizes w;
          indDict := indDict w |};
     refinedMasks := rmasks;
     refinedCenters := rcenters;
     V_saveRGB := V_saveRGB s;
     V_saveHSV := V_saveHSV s;
     V_saveLAB := V_saveLAB s |}.

Definition sort_inds_of (s : Session) : list nat :=
  np_lexsort (map fst (centers (win s))) (map snd (centers (win s))).

Definition analyzeContours (s : Session) : result (Session * CSV) :=
  let w := win s in
  (* the arrays of results are allocated with one row per zone *)
  let nrows := length (closeIndsPlus w) in
  (* the largest zone fixes the label size *)
  k <- np_argmax (closeSizes w) ;;
  largestContInd <- py_index (closeIndsPlus w) (Z.of_nat k) ;;
  _ <- py_index (contours w) largestContInd ;;
  (* rows first, then columns *)
  let sort_inds := sort_inds_of s in
  plus <- np_take sort_inds (closeIndsPlus w) ;;
  cents <- np_take sort_inds (centers w) ;;
  rmasks <- (if is_nil (refinedMasks s) then Ok (refinedMasks s)
             else np_take sort_inds (refinedMasks s)) ;;
  rcenters <- (if is_nil (refinedMasks s) then Ok (refinedCenters s)
               else np_take sort_inds (refinedCenters s)) ;;
  zones <- mapM (zoneOf (contours w) plus rmasks rcenters)
                (seq 0 (length plus)) ;;
  let samples :=
    map sampleZone zones ++ repeat zero_sample (nrows - length plus) in
  csv <- saveColors (length plus) (V_saveRGB s) (V_saveHSV s) (V_saveLAB s)
                    samples ;;
  Ok (reordered s plus cents rmasks rcenters, csv).
End Analysis.

Arguments win {Mask} s.
Arguments refinedMasks {Mask} s.
Arguments refinedCenters {Mask} s.
Arguments V_saveRGB {Mask} s.
Arguments V_saveHSV {Mask} s.
Arguments V_saveLAB {Mask} s.
Arguments sort_inds_of {Mask} s.
Arguments reordered {Mask} s plus cents rmasks rcenters.

(** ** Operations on the similar set, and the predicates of the specification *)

(** The two things the user does to the similar set: a shift-click with the
    mouse over contour [k] ([k = -1] outside every contour), and a move of
    the tolerance sliders. *)
Inductive Operation : Type :=
| ShiftClick (k : Z)
| SetTolerances (sizeTol shapeTol : Q).

Definition with_mouse (w : Matcher) (k : Z) : Matcher :=
  {| contours := contours w; sizes := sizes w;
     selectedCont := selectedCont w; inContour := k;
     V_sizeTol := V_sizeTol w; V_shapeTol := V_shapeTol w;
     closeInds := closeInds w; closeIndsPlus := closeIndsPlus w;
     addConts := addConts w; removeConts := removeConts w;
     centers := centers w; closeSizes := closeSizes w;
     indDict := indDict w |}.

Definition with_tolerances (w : Matcher) (sizeTol shapeTol : Q) : Matcher :=
  {| contours := contours w; sizes := sizes w;
     selectedCont := selectedCont w; inContour := inContour w;
     V_sizeTol := sizeTol; V_shapeTol := shapeTol;
     closeInds := closeInds w; closeIndsPlus := closeIndsPlus w;
     addConts := addConts w; removeConts := removeConts w;
     centers := centers w; closeSizes := closeSizes w;
     indDict := indDict w |}.

Definition step (invariants : contour -> list Q) (w : Matcher)
    (o : Operation) : result Matcher :=
  match o with
  | ShiftClick k => appendContour (with_mouse w k)
  | SetTolerances s d => getSimilarContours invariants (with_tolerances w s d)
  end.

Fixpoint run (invariants : contour -> list Q) (w : Matcher)
    (ops : list Operation) : result Matcher :=
  match ops with
  | [] => Ok w
  | o :: ops' => w' <- step invariants w o ;; run invariants w' ops'
  end.

Definition is_click (o : Operation) : bool :=
  match o with ShiftClick _ => true | SetTolerances _ _ => false end.

(** [effective = (matched U manuallyAdded) - manuallyRemoved] *)
Definition set_algebra (w : Matcher) : Prop :=
  forall x, In x (closeIndsPlus w) <->
            (In x (closeInds w) \/ In x (addConts w)) /\
            ~ In x (removeConts w).

(** A valid Python index into a sequence of length [n]. *)
Definition in_range (n : nat) (k : Z) : Prop :=
  - Z.of_nat n <= k < Z.of_nat n.

(** What the extractor guarantees about its contour list. *)
Definition extractor_output (cs : list contour) : Prop :=
  forall c, In c cs -> (5 < contourArea c)%Q.

(** The specification's reading of the shape score: every component is
    normalised by the value of the reference. *)
Definition spec_term (cand ref : Q) : Q := (Qabs (cand - ref) / Qabs ref)%Q.

Definition spec_score (invariants : contour -> list Q)
    (cand ref : contour) : Q :=
  fold_left (fun res t => if Qgt_bool t res then t else res)
            (map (fun m => spec_term (fst m) (snd m))
                 (combine (invariants cand) (invariants ref))) 0%Q.

(** The window right after [cvContour] and a click on contour [ref]. *)
Definition fresh_window (found : list contour) (ref : Z) : Matcher :=
  {| contours := ex_contours (cvContour found);
     sizes := ex_sizes (cvContour found);
     selectedCont := ref; inContour := ref;
     V_sizeTol := 20%Q; V_shapeTol := 1%Q;
     closeInds := []; closeIndsPlus := [];
     addConts := []; removeConts := [];
     centers := []; closeSizes := []; indDict := [] |}.

(** ** Sample data *)

Definition square (x y side : Z) : contour :=
  [(x, y); (x + side, y); (x + side, y + side); (x, y + side)].

Definition octagon (x y : Z) : contour :=
  [(x + 1, y); (x + 3, y); (x + 4, y + 1); (x + 4, y + 3);
   (x + 3, y + 4); (x + 1, y + 4); (x, y + 3); (x, y + 1)].

(** A descriptor function to run the matcher on, which is generic in it: one
    component, a quarter of the number of vertices.  These are not OpenCV's
    values; those are [HuMoments] and [log_scaled] below. *)
Definition sample_invariants (c : contour) : list Q :=
  [(Z.of_nat (length c) # 4)%Q].

(** Four pads and a speck: areas 16, 16, 9, 100 and 1. *)
Definition sample_found : list contour :=
  [square 0 0 4; square 10 0 4; square 20 0 3; square 30 0 10;
   square 50 0 1].

(** A square pad and an octagonal one: areas 16 and 14. *)
Definition sample_shapes : list contour := [square 0 0 4; octagon 10 0].

Definition state_of (r : result Matcher) (otherwise : Matcher) : Matcher :=
  match r with Ok w => w | Raise _ => otherwise end.

(** The four pads with contour 1 as the reference; then with the sliders
    at 20 % and 1; then after a shift-click on contour 0. *)
Definition sample_window : Matcher := fresh_window sample_found 1.

Definition sample_matched : Matcher :=
  Eval vm_compute in
    state_of (step sample_invariants sample_window (SetTolerances 20 1))
             sample_window.

Definition sample_added : Matcher :=
  Eval vm_compute in
    state_of (step sample_invariants sample_matched (ShiftClick 0))
             sample_window.

(** The two shapes with the square as the reference and the sliders at
    20 % and 0.75, before and after [getSimilarContours]. *)
Definition sample_shape_window : Matcher :=
  with_tolerances (fresh_window sample_shapes 1) 20%Q (3 # 4)%Q.

Definition sample_shape_matched : Matcher :=
  Eval vm_compute in
    state_of (getSimilarContours sample_invariants sample_shape_window)
             sample_shape_window.

(** ** The CSV, row by row *)

Local Open Scope R_scope.

(** The specification's grayscale formulas. *)
Definition gray_of (rgb : Vec3) : R :=
  0.299 * ch0 rgb + 0.587 * ch1 rgb + 0.114 * ch2 rgb.

Definition std_gray_of (sd : Vec3) : R :=
  sqrt ((0.299 * ch0 sd) * (0.299 * ch0 sd) +
        (0.587 * ch1 sd) * (0.587 * ch1 sd) +
        (0.114 * ch2 sd) * (0.114 * ch2 sd)).

Definition hsv_cells (v : Vec3) : list cell :=
  [CNum (ch0 v / 180 * 360); CNum (np_round8 (ch1 v / 255));
   CNum (np_round8 (ch2 v / 255))].

(** The row of zone number [id] when the RGB group is written. *)
Definition csv_row (saveHSV saveLAB : bool) (id : nat) (c : ColorSample)
    : list cell :=
  [CId id]
  ++ cells3 (avcolorRGB c) ++ cells3 (stdRGB c) ++ [CBlank]
  ++ [CNum (gray_of (avcolorRGB c)); CNum (std_gray_of (stdRGB c)); CBlank]
  ++ (if saveHSV
      then hsv_cells (avcolorHSV c) ++ hsv_cells (stdHSV c) ++ [CBlank]
      else [])
  ++ (if saveLAB
      then [CNum (np_round8 (ch0 (avcolorLAB c) / 255 * 100));
            CNum (ch1 (avcolorLAB c) - 128); CNum (ch2 (avcolorLAB c) - 128);
            CNum (np_round8 (ch0 (stdLAB c) / 255 * 100));
            CNum (ch1 (stdLAB c)); CNum (ch2 (stdLAB c)); CBlank]
      else [])
  ++ [CNum (maskArea c)].

Local Close Scope R_scope.

(** ** Predicates on an analysis run *)

(** Reading order on positions of the centre array: by [y], then by [x],
    and in the original order when both agree. *)
Definition reading_order (cs : list (Z * Z)) (i j : nat) : Prop :=
  let ci := nth i cs (0, 0) in
  let cj := nth j cs (0, 0) in
  snd ci < snd cj \/
  (snd ci = snd cj /\ fst ci < fst cj) \/
  (snd ci = snd cj /\ fst ci = fst cj /\ (i < j)%nat).

(** A session whose zones can be cut out and sampled: [findCenters] has run
    on a non-empty effective set of valid indices, and the zones are either
    unrefined or all refined.  The output toggles are left open. *)
Definition samplable {Mask} (s : Session Mask) : Prop :=
  let w := win s in
  closeIndsPlus w <> [] /\
  length (centers w) = length (closeIndsPlus w) /\
  length (closeSizes w) = length (closeIndsPlus w) /\
  (forall k, In k (closeIndsPlus w) -> in_range (length (contours w)) k) /\
  (refinedMasks s = [] \/
   (length (refinedMasks s) = length (closeIndsPlus w) /\
    length (refinedCenters s) = length (closeIndsPlus w))).

(** A session on which the Analyze button can be pressed: [findCenters] has
    run on a non-empty effective set of valid indices, the zones are either
    unrefined or all refined, and the RGB group is enabled. *)
Definition analyzable {Mask} (s : Session Mask) : Prop :=
  let w := win s in
  closeIndsPlus w <> [] /\
  length (centers w) = length (closeIndsPlus w) /\
  length (closeSizes w) = length (closeIndsPlus w) /\
  (forall k, In k (closeIndsPlus w) -> in_range (length (contours w)) k) /\
  (refinedMasks s = [] \/
   (length (refinedMasks s) = length (closeIndsPlus w) /\
    length (refinedCenters s) = length (closeIndsPlus w))) /\
  V_saveRGB s = true.

(** A stand-in for the crop of an unrefined zone: one pixel per vertex, all
    inside the mask. *)
Definition sample_contourZone (c : contour) : ZoneCrop :=
  let px := map (fun p => (IZR (fst p), IZR (snd p), 0%R)) c in
  {| crop_im := px; crop_imHSV := px; crop_imLAB := px;
     crop_mask := map (fun _ => 255) c |}.

(** A stand-in for the crop of a refined zone: the refined mask is given by
    its values inside the window, over a uniformly coloured image. *)
Definition sample_refinedZone (m : list Z) (center : Z * Z) : ZoneCrop :=
  let px := map (fun _ => (30%R, 20%R, 10%R)) m in
  {| crop_im := px; crop_imHSV := px; crop_imLAB := px; crop_mask := m |}.

(** Three refined zones; the refined mask of the second one has no pixel
    inside its window. *)
Definition sample_session : Session (list Z) :=
  {| win := sample_added;
     refinedMasks := [[255; 255]; [0; 0]; [255; 0]];
     refinedCenters := [(21, 1); (2, 2); (12, 2)];
     V_saveRGB := true; V_saveHSV := false; V_saveLAB := false |}.




(** A window whose contours come from the extractor and whose indices all
    select one of them. *)
Definition selectable (w : Matcher) : Prop :=
  let n := length (contours w) in
  extractor_output (contours w) /\
  length (sizes w) = n /\
  in_range n (selectedCont w) /\
  (forall k, In k (closeInds w) -> in_range n k) /\
  (forall k, In k (addConts w) -> in_range n k) /\
  (forall k, In k (removeConts w) -> in_range n k).

Definition mouse_in_range (w : Matcher) (o : Operation) : Prop :=
  match o with
  | ShiftClick k => in_range (length (contours w)) k
  | SetTolerances _ _ => True
  end.

(** ** Further predicates on the similar set *)

(** Membership in [(matched U manuallyAdded) - manuallyRemoved], read off the
    three lists. *)
Definition effective (w : Matcher) (x : Z) : Prop :=
  (In x (closeInds w) \/ In x (addConts w)) /\ ~ In x (removeConts w).

(** The shape of the two manual lists that the operations keep: no index is
    listed twice, and only matched contours are listed as removed. *)
Definition tidy (w : Matcher) : Prop :=
  NoDup (addConts w) /\ NoDup (removeConts w) /\
  (forall x, In x (removeConts w) -> In x (closeInds w)).

(** The number of comma-separated fields of a CSV line. *)
Fixpoint header_fields (line : string) : nat :=
  match line with
  | EmptyString => 1
  | String c line' =>
      if Ascii.eqb c "," then S (header_fields line') else header_fields line'
  end.

(** The third refined zone of the sample session. *)
Definition sample_zone : ZoneCrop := sample_refinedZone [255; 0] (12, 2).

(** A crop of two pixels whose mask is set at the second one only; the pixel
    is stored blue, green, red. *)
Definition one_pixel_zone : ZoneCrop :=
  let px := [(1, 2, 3); (10, 20, 30)]%R in
  {| crop_im := px; crop_imHSV := px; crop_imLAB := px;
     crop_mask := [0; 255] |}.

(** ** Display geometry: [windowAspectAdjust] and [convertCoords] *)

Local Open Scope Q_scope.

(** [windowAspectAdjust(frameSize, im, scaling)]; [im_shape] is
    [(im.shape[0], im.shape[1])], height first. *)
Definition windowAspectAdjust (frameSize : Z * Z) (im_shape : Z * Z)
    (scaling : Q) : result (Z * Z) :=
  let screen_width := fst frameSize in
  let screen_height := snd frameSize in
  let imHeight := fst im_shape in
  let imWidth := snd im_shape in
  a <- py_div (inject_Z imHeight) (inject_Z screen_height) ;;
  b <- py_div (inject_Z imWidth) (inject_Z screen_width) ;;
  wind <-
    (if Qgt_bool a b then
       windWidth <- py_div (inject_Z (screen_height * imWidth))
                           (inject_Z imHeight) ;;
       Ok (windWidth, inject_Z screen_height)
     else
       windHeight <- py_div (inject_Z (screen_width * imHeight))
                            (inject_Z imWidth) ;;
       Ok (inject_Z screen_width, windHeight)) ;;
  Ok (py_int (fst wind * scaling), py_int (snd wind * scaling)).

(** [convertCoords(x, y)] for a display of size [frame] (width, height)
    showing an image of size [im] (width, height). *)
Definition convertCoords (frame im : Z * Z) (x y : Z) : result (Z * Z) :=
  let frameWidth := fst frame in
  let frameHeight := snd frame in
  let imWidth := fst im in
  let imHeight := snd im in
  Wratio <- py_div (inject_Z (imWidth - 1)) (inject_Z (frameWidth - 1)) ;;
  Hratio <- py_div (inject_Z (imHeight - 1)) (inject_Z (frameHeight - 1)) ;;
  Ok (py_int (inject_Z x * Wratio), py_int (inject_Z y * Hratio)).

Local Close Scope Q_scope.

(** ** Mask generator: [AnalysisWindow.cvMask] *)

(** A pixel of an 8-bit three-channel image; for [imHSV] the channels are
    hue, saturation, value. *)
Definition Pixel8 : Type := (Z * Z * Z)%type.

Definition px0 (p : Pixel8) : Z := fst (fst p).
Definition px1 (p : Pixel8) : Z := snd (fst p).
Definition px2 (p : Pixel8) : Z := snd p.

Definition uint8 (x : Z) : Prop := 0 <= x <= 255.

Definition pixel8 (p : Pixel8) : Prop :=
  uint8 (px0 p) /\ uint8 (px1 p) /\ uint8 (px2 p).

(** [np.clip] on integers. *)
Definition np_clipZ (x lo hi : Z) : Z := Z.min (Z.max x lo) hi.

(** [cv2.inRange(src, lowerb, upperb)], one pixel: 255 when every channel
    lies between the bounds, else 0. *)
Definition between (lo x hi : Z) : bool := (lo <=? x) && (x <=? hi).

Definition inRange (lowerb upperb : Pixel8) (src : Pixel8) : Z :=
  if between (px0 lowerb) (px0 src) (px0 upperb)
     && between (px1 lowerb) (px1 src) (px1 upperb)
     && between (px2 lowerb) (px2 src) (px2 upperb)
  then 255 else 0.

(** Adding two NumPy arrays of three entries. *)
Definition add3 (a b : Pixel8) : Pixel8 :=
  (px0 a + px0 b, px1 a + px1 b, px2 a + px2 b).

(** [np.logical_or(a, b) * 255], one entry. *)
Definition logical_or_255 (ab : Z * Z) : Z :=
  if negb (fst ab =? 0) || negb (snd ab =? 0) then 255 else 0.

Record Masked : Type := {
  V_maskThresh1 : Z;
  V_maskThresh2 : Z;
  mask_out : option (list Z)
}.

(** [cvMask]: [slider1] and [slider2] are the positions of the two threshold
    sliders, [maskMode] the selected mode.  [mask_out] is the new value of
    [analyzed], or [None] when the method leaves it alone. *)
Definition cvMask (slider1 slider2 : Q) (maskMode : Z) (imHSV : list Pixel8)
    : Masked :=
  let thresh1 := np_clipZ (py_int slider1) 0 255 in
  let thresh2 := np_clipZ (py_int slider2) 0 255 in
  let smin := thresh2 in
  let vmin := thresh1 in
  let hsvMin_s : Pixel8 := (0, smin, 0) in
  let hsvMin_v : Pixel8 := (0, 0, vmin) in
  let hsvMax : Pixel8 := (255, 255, 255) in
  {| V_maskThresh1 := thresh1;
     V_maskThresh2 := thresh2;
     mask_out :=
       if maskMode =? 0 then
         Some (map (inRange (add3 hsvMin_s hsvMin_v) hsvMax) imHSV)
       else if maskMode =? 1 then
         let mask_s := map (inRange hsvMin_s hsvMax) imHSV in
         let mask_v := map (inRange hsvMin_v hsvMax) imHSV in
         Some (map logical_or_255 (combine mask_s mask_v))
       else None |}.

(** ** Histogram engine: [imageChannelHistogram] and [saveHistogram] *)

(** [np.histogram(a, 256, (0, 256))]: bin [k] holds the values of
    [[k, k+1)], the last bin also the value 256, and values outside
    [[0, 256]] are not counted. *)
Definition bin_of (x : Z) : option nat :=
  if (0 <=? x) && (x <? 256) then Some (Z.to_nat x)
  else if x =? 256 then Some 255%nat
  else None.

Definition in_bin (k : nat) (x : Z) : bool :=
  match bin_of x with
  | Some b => Nat.eqb b k
  | None => false
  end.

Definition np_histogram (a : list Z) : list nat * list Z :=
  (map (fun k => length (filter (in_bin k) a)) (seq 0 256),
   map Z.of_nat (seq 0 257)).

(** [np.ma.MaskedArray(channel, ~mask).compressed()] for an 8-bit mask: an
    entry is kept when the complement [255 - m] of its mask value is 0. *)
Definition compressed (channel mask : list Z) : list Z :=
  map fst (filter (fun cm => 255 - snd cm =? 0) (combine channel mask)).

Definition imageChannelHistogram (channel : list Z) (mask : option (list Z))
    : list nat * list Z :=
  let channel_masked :=
    match mask with
    | Some m => compressed channel m
    | None => channel
    end in
  np_histogram channel_masked.

(** [edges[:-1]] *)
Definition but_last {A} (l : list A) : list A := removelast l.

(** The rows of the histogram CSV that [saveHistogram] writes for a crop
    of the image (channels blue, green, red) and of the zone mask: bin, red,
    green, blue. *)
Definition saveHistogram (im : list Pixel8) (mask : list Z)
    : string * list (list Z) :=
  let Bheights := fst (imageChannelHistogram (map px0 im) (Some mask)) in
  let Gheights := fst (imageChannelHistogram (map px1 im) (Some mask)) in
  let '(Rheights, edges) := imageChannelHistogram (map px2 im) (Some mask) in
  let combo :=
    map (fun row => [fst (fst (fst row)); Z.of_nat (snd (fst (fst row)));
                     Z.of_nat (snd (fst row)); Z.of_nat (snd row)])
        (combine (combine (combine (but_last edges) Rheights) Gheights)
                 Bheights) in
  ("bin, Red Channel, Green Channel, Blue Channel"%string, combo).

Definition total (heights : list nat) : nat := fold_right Nat.add 0%nat heights.

(** ** Polygon vertices: [regularPolygonPoints] *)

Local Open Scope R_scope.

(** [range(n)] *)
Definition py_range (n : Z) : list Z := map Z.of_nat (seq 0 (Z.to_nat n)).

(** [a / n] for a float [a] and an int [n]. *)
Definition py_div_int (a : R) (n : Z) : result R :=
  if (n =? 0)%Z then Raise ZeroDivisionError else Ok (a / IZR n).

(** [int(toClose)] *)
Definition int_of_bool (b : bool) : Z := if b then 1%Z else 0%Z.

(** [regularPolygonPoints(n, phi, center, r, toClose)]; [np.pi], [np.cos]
    and [np.sin] are the real number and functions. *)
Definition regularPolygonPoints (n : Z) (phi : R) (center : R * R) (r : R)
    (toClose : bool) : result (list (R * R)) :=
  angles <- mapM (fun k => q <- py_div_int (2 * PI * IZR k) n ;; Ok (q + phi))
                 (py_range (n + int_of_bool toClose)) ;;
  Ok (map (fun a => (r * cos a + fst center, r * sin a + snd center)) angles).

Local Close Scope R_scope.

(** ** Output folder of an analysis run: the loop of [analyzeContours] *)

(** [str(n)] for a natural number. *)
Definition py_str (n : nat) : string := NilEmpty.string_of_uint (Nat.to_uint n).

Section OutputFolder.

(** [os.path.exists] on the file system as it is while the loop runs. *)
Variable path_exists : string -> bool.

(** The [while] loop, from the state [(foldernum, analysisPathNum)]; [None]
    when [fuel] iterations do not leave it. *)
Fixpoint folder_loop (fuel : nat) (analysisPath : string) (foldernum : nat)
    (analysisPathNum : string) : option (nat * string) :=
  match fuel with
  | O => None
  | S fuel' =>
      if path_exists analysisPathNum then
        let foldernum := S foldernum in
        folder_loop fuel' analysisPath foldernum
                    (analysisPath ++ "_" ++ py_str foldernum)
      else Some (foldernum, analysisPathNum)
  end.

(** [analysisPathNum] when the loop is left, with the final [foldernum]. *)
Definition analysisPathNum (fuel : nat) (analysisPath : string)
    : option (nat * string) :=
  folder_loop fuel analysisPath 0 analysisPath.

(** The [k]-th name the loop tries. *)
Definition folder_name (analysisPath : string) (k : nat) : string :=
  match k with
  | O => analysisPath
  | S _ => analysisPath ++ "_" ++ py_str k
  end.

End OutputFolder.

(** ** Presets: [savePreset] and the row selection of [loadPreset] *)

(** A value read from a [V_] variable: [IntVar], [DoubleVar], [BooleanVar]
    and [StringVar] give an [int], a [float], a [bool] and a [str]. *)
Inductive PresetValue : Type :=
| VInt (z : Z)
| VFloat (q : Q)
| VBool (b : bool)
| VStr (s : string).

(** A field of format [U32] keeps the first 32 characters. *)
Definition U32 (s : string) : string := substring 0 32 s.

(** The format of a field is the type of its value, except that a [str] is
    stored as ['U32'].  The integers of the program are slider positions and
    counters, inside the range of the integer format. *)
Definition stored_value (v : PresetValue) : PresetValue :=
  match v with
  | VStr s => VStr (U32 s)
  | _ => v
  end.

(** [tuple(values)] under [dtype = {'names': names, 'formats': types}], the
    fields being the names and values of the [V_] variables in the order of
    [dir(self)]. *)
Definition stored_values (values : list (string * PresetValue))
    : list (string * PresetValue) :=
  map (fun f => (fst f, stored_value (snd f))) values.

Section Presets.

(** The fields of the [V_] variables of one preset, and the conversion of
    the values read from the variables to the formats of the row. *)
Variable Values : Type.
Variable as_formats : Values -> Values.

(** A row of [presetArray]: the field [PresetName] and the other fields. *)
Definition PresetRow : Type := (string * Values)%type.

(** A field of format [U16] keeps the first 16 characters. *)
Definition U16 (s : string) : string := substring 0 16 s.

(** [presetArray['PresetName']] *)
Definition PresetName (presetArray : list PresetRow) : list string :=
  map fst presetArray.

(** [savePreset(presetName)], where [values] are the fields read from the
    [V_] variables: the new value of [presetArray]. *)
Definition savePreset (presetArray : list PresetRow) (presetName : string)
    (values : Values) : list PresetRow :=
  let presetArray_row : PresetRow := (U16 presetName, as_formats values) in
  if (length presetArray =? 0)%nat then [presetArray_row]
  else if negb (existsb (String.eqb presetName) (PresetName presetArray))
  then presetArray ++ [presetArray_row]
  else map (fun row => if String.eqb (fst row) presetName
                       then presetArray_row else row) presetArray.

(** The first statement of [loadPreset]: the row [newPreset] of the selected
    preset name. *)
Definition newPreset (presetArray : list PresetRow) (currentPreset : string)
    : result PresetRow :=
  match filter (fun row => String.eqb (fst row) currentPreset) presetArray with
  | [] => Raise IndexError
  | row :: _ => Ok row
  end.

End Presets.

Arguments PresetName {Values} presetArray.
Arguments savePreset {Values} as_formats presetArray presetName values.
Arguments newPreset {Values} presetArray currentPreset.

(** The fields of a preset whose dilate/erode code has 40 letters. *)
Definition long_code_values : list (string * PresetValue) :=
  [("V_blurAmount"%string, VInt 1);
   ("V_dilerocode"%string,
    VStr "dddddddddddddddddddddddddddddddddddddddd");
   ("V_saveRGB"%string, VBool true)].

Definition default_values : list (string * PresetValue) :=
  [("V_blurAmount"%string, VInt 1);
   ("V_dilerocode"%string, VStr "");
   ("V_saveRGB"%string, VBool true)].

(** ** Hovering: [drawContours] *)

Section Hover.

(** [cv2.pointPolygonTest(contour, pt, False)]: positive inside the contour,
    zero on its edge, negative outside. *)
Variable pointPolygonTest : contour -> Z * Z -> Z.

(** The [for] loop with its [break]: [inContour] after the scan of [cs],
    whose first entry has index [i], the loop being entered with
    [inContour = -1]. *)
Fixpoint hover (i : Z) (cs : list contour) (mouse : Z * Z) : Z :=
  match cs with
  | [] => -1
  | c :: cs' =>
      if pointPolygonTest c mouse >=? 0 then i else hover (i + 1) cs' mouse
  end.

(** [drawContours] while the zones are not refined
    ([len(self.refinedMasks) == 0]), as far as the state of the matcher goes.
    The drawing calls only read [contours], at [selectedCont] and at the
    indices of the three lists. *)
Definition drawContours (w : Matcher) (inFrame : bool) (mousex mousey : Z)
    : result Matcher :=
  let w := with_mouse w (-1) in
  let w := if inFrame
           then with_mouse w (hover 0 (contours w) (mousex, mousey))
           else w in
  if negb (selectedCont w =? -1) then
    _ <- py_index (contours w) (selectedCont w) ;;
    if negb (length (closeInds w) =? 0)%nat then
      _ <- mapM (py_index (contours w)) (closeInds w) ;;
      _ <- (if negb (length (addConts w) =? 0)%nat
            then mapM (py_index (contours w)) (addConts w) else Ok []) ;;
      _ <- (if negb (length (removeConts w) =? 0)%nat
            then mapM (py_index (contours w)) (removeConts w) else Ok []) ;;
      Ok w
    else Ok w
  else Ok w.

End Hover.

(** The indices the drawing reads are positions of [contours]. *)
Definition drawable (w : Matcher) : Prop :=
  let n := length (contours w) in
  (selectedCont w = -1 \/ in_range n (selectedCont w)) /\
  (forall k, In k (closeInds w) -> in_range n k) /\
  (forall k, In k (addConts w) -> in_range n k) /\
  (forall k, In k (removeConts w) -> in_range n k).

(** ** The invariants of [cv2.matchShapes]

    [cv2.matchShapes] compares the seven Hu invariants of the two contours,
    which OpenCV computes from the spatial moments up to order three
    ([cv2.moments], by Green's formula as above, and [cv2.HuMoments]). *)

Definition a20 (c : contour) : Z :=
  green_sum (fun prev p => fst prev * (fst prev + fst p) + fst p * fst p) c.
Definition a11 (c : contour) : Z :=
  green_sum (fun prev p => fst prev * (snd prev + snd p + snd prev)
                           + fst p * (snd prev + snd p + snd p)) c.
Definition a02 (c : contour) : Z :=
  green_sum (fun prev p => snd prev * (snd prev + snd p) + snd p * snd p) c.
Definition a30 (c : contour) : Z :=
  green_sum (fun prev p => (fst prev + fst p)
                           * (fst prev * fst prev + fst p * fst p)) c.
Definition a03 (c : contour) : Z :=
  green_sum (fun prev p => (snd prev + snd p)
                           * (snd prev * snd prev + snd p * snd p)) c.
Definition a21 (c : contour) : Z :=
  green_sum (fun prev p => fst prev * fst prev * (3 * snd prev + snd p)
                           + 2 * fst p * fst prev * (snd prev + snd p)
                           + fst p * fst p * (snd prev + 3 * snd p)) c.
Definition a12 (c : contour) : Z :=
  green_sum (fun prev p => snd prev * snd prev * (3 * fst prev + fst p)
                           + 2 * snd p * snd prev * (fst prev + fst p)
                           + snd p * snd p * (fst prev + 3 * fst p)) c.

Local Open Scope Q_scope.

(** [cv2.HuMoments(cv2.moments(c))].  The normalised central moments of
    order three carry the factor [sqrt (1 / m00)]; the invariants hold it at
    even powers only, so they are rational: [n30], ..., [n03] below are the
    moments of order three without that factor.  The fractions are given in
    lowest terms. *)
Definition HuMoments (c : contour) : list Q :=
  let sgn := Z.sgn (a00 c) in
  let m00 := (sgn * a00 c) # 2 in
  let m10 := (sgn * a10 c) # 6 in
  let m01 := (sgn * a01 c) # 6 in
  let m20 := (sgn * a20 c) # 12 in
  let m11 := (sgn * a11 c) # 24 in
  let m02 := (sgn * a02 c) # 12 in
  let m30 := (sgn * a30 c) # 20 in
  let m21 := (sgn * a21 c) # 60 in
  let m12 := (sgn * a12 c) # 60 in
  let m03 := (sgn * a03 c) # 20 in
  let inv_m00 := / m00 in
  let cx := m10 * inv_m00 in
  let cy := m01 * inv_m00 in
  let mu20 := m20 - m10 * cx in
  let mu11 := m11 - m10 * cy in
  let mu02 := m02 - m01 * cy in
  let mu30 := m30 - cx * (3 * mu20 + cx * m10) in
  let mu21 := m21 - cx * (2 * mu11 + cx * m01) - cy * mu20 in
  let mu12 := m12 - cy * (2 * mu11 + cy * m10) - cx * mu02 in
  let mu03 := m03 - cy * (3 * mu02 + cy * m01) in
  let s2 := inv_m00 * inv_m00 in
  let nu20 := mu20 * s2 in
  let nu11 := mu11 * s2 in
  let nu02 := mu02 * s2 in
  let n30 := mu30 * s2 in
  let n21 := mu21 * s2 in
  let n12 := mu12 * s2 in
  let n03 := mu03 * s2 in
  let t0 := n30 + n12 in
  let t1 := n21 + n03 in
  let q0 := t0 * t0 in
  let q1 := t1 * t1 in
  let n4 := 4 * nu11 in
  let s := nu20 + nu02 in
  let d := nu20 - nu02 in
  let t0' := t0 * (q0 - 3 * q1) in
  let t1' := t1 * (3 * q0 - q1) in
  let q0' := n30 - 3 * n12 in
  let q1' := 3 * n21 - n03 in
  map Qred
    [s;
     d * d + n4 * nu11;
     inv_m00 * (q0' * q0' + q1' * q1');
     inv_m00 * (q0 + q1);
     inv_m00 * inv_m00 * (q0' * t0' + q1' * t1');
     inv_m00 * (d * (q0 - q1) + n4 * t0 * t1);
     inv_m00 * inv_m00 * (q1' * t0' - q0' * t1')].

(** The threshold [eps] of [cv2.matchShapes]: an invariant enters the
    comparison when its absolute value exceeds it in both contours. *)
Definition cv_eps : Q := 1 # 100000.

Definition cv_compared (A B : contour) : list (Q * Q) :=
  filter (fun hh => Qgt_bool (Qabs (fst hh)) cv_eps
                    && Qgt_bool (Qabs (snd hh)) cv_eps)
         (combine (HuMoments A) (HuMoments B)).

Local Close Scope Q_scope.
Local Open Scope R_scope.

Definition log10 (x : R) : R := ln x / ln 10.

(** [sign(h) * log10(|h|)] *)
Definition log_scaled (h : Q) : R :=
  IZR (Z.sgn (Qnum h)) * log10 (Rabs (Q2R h)).

(** [cv2.matchShapes(A, B, CV_CONTOURS_MATCH_I3, 0)] over the reals: the
    greatest [|(mA - mB) / mA|] over the compared invariants. *)
Definition cv_matchShapes_I3 (A B : contour) : R :=
  fold_left (fun result hh =>
               let ama := log_scaled (fst hh) in
               let amb := log_scaled (snd hh) in
               Rmax result (Rabs ((ama - amb) / ama)))
            (cv_compared A B) 0.

(** The specification's reading over the reals: normalised by the
    reference [B]. *)
Definition spec_matchShapes (A B : contour) : R :=
  fold_left (fun result hh =>
               let ama := log_scaled (fst hh) in
               let amb := log_scaled (snd hh) in
               Rmax result (Rabs ((ama - amb) / amb)))
            (cv_compared A B) 0.

(** A descriptor function with rational values that agrees with OpenCV on
    the pair [(A, B)] up to [delta]: for the invariants that are compared it
    lists values within [delta] of the sign-adjusted logarithms.  The
    doubles that the program holds are such values. *)
Definition cv_descriptor (invariants : contour -> list Q) (delta : R)
    (A B : contour) : Prop :=
  Forall2 (fun mm hh =>
             Rabs (Q2R (fst mm) - log_scaled (fst hh)) <= delta /\
             Rabs (Q2R (snd mm) - log_scaled (snd hh)) <= delta)
          (combine (invariants A) (invariants B)) (cv_compared A B).

Local Close Scope R_scope.

(** The two shapes again, the square as the reference, the sliders at 20 %
    and 0.023. *)
Definition tight_shape_window : Matcher :=
  with_tolerances (fresh_window sample_shapes 1) 20%Q (23 # 1000)%Q.

(** * Properties *)

(** ** Sorting lemmas *)

Section SortingFacts.
Context {A : Type} (leb : A -> A -> bool).

Lemma insert_by_perm (x : A) (l : list A) :
  Permutation (insert_by leb x l) (x :: l).
Proof.
  induction l as [|y l IH]; simpl; [reflexivity|].
  destruct (leb x y); [reflexivity|].
  rewrite IH. apply perm_swap.
Qed.

Lemma sort_by_perm (l : list A) : Permutation (sort_by leb l) l.
Proof.
  induction l as [|x l IH]; simpl; [constructor|].
  rewrite insert_by_perm. now constructor.
Qed.

(** Sortedness for any strict order [lt] such that [leb x y = true] puts
    [x] before [y] and [leb x y = false] puts [y] before [x], on a list in
    which earlier elements may precede later ones ([pre]). *)
Variable lt : A -> A -> Prop.
Variable pre : A -> A -> Prop.
Hypothesis lt_trans : forall x y z, lt x y -> lt y z -> lt x z.
Hypothesis leb_true : forall x y, pre x y -> leb x y = true -> lt x y.
Hypothesis leb_false : forall x y, leb x y = false -> lt y x.

Lemma insert_by_sorted (x : A) (l : list A) :
  Forall (pre x) l -> StronglySorted lt l ->
  StronglySorted lt (insert_by leb x l).
Proof.
  induction l as [|y l IH]; simpl; intros Hpre Hs.
  - repeat constructor.
  - inversion Hpre as [|? ? Hxy Hpre']; subst.
    inversion Hs as [|? ? Hs' Hy]; subst.
    destruct (leb x y) eqn:E.
    + constructor; [assumption|].
      assert (Hlt : lt x y) by auto.
      constructor; [assumption|].
      eapply Forall_impl; [|exact Hy]. intros z Hz. eauto.
    + constructor; [auto|].
      eapply Permutation_Forall.
      * symmetry. apply insert_by_perm.
      * constructor; auto.
Qed.

Lemma sort_by_sorted (l : list A) :
  StronglySorted pre l -> StronglySorted lt (sort_by leb l).
Proof.
  induction l as [|x l IH]; simpl; intros Hs; [constructor|].
  inversion Hs as [|? ? Hs' Hx]; subst.
  apply insert_by_sorted; [|auto].
  eapply Permutation_Forall; [|exact Hx].
  symmetry. apply sort_by_perm.
Qed.
End SortingFacts.

Lemma StronglySorted_trivial {A} (l : list A) :
  StronglySorted (fun _ _ => True) l.
Proof.
  induction l; constructor; auto.
  apply Forall_forall; auto.
Qed.

Lemma StronglySorted_filter {A} (R : A -> A -> Prop) (f : A -> bool) l :
  StronglySorted R l -> StronglySorted R (filter f l).
Proof.
  induction 1 as [|x l Hs IH Hx]; simpl; [constructor|].
  destruct (f x); [|assumption].
  constructor; [assumption|].
  apply Forall_forall. intros y Hy.
  apply filter_In in Hy as [Hy _].
  rewrite Forall_forall in Hx. auto.
Qed.

Lemma StronglySorted_map {A B} (R : B -> B -> Prop) (f : A -> B) l :
  StronglySorted (fun a b => R (f a) (f b)) l -> StronglySorted R (map f l).
Proof.
  induction 1 as [|x l Hs IH Hx]; simpl; constructor; auto.
  apply Forall_forall. intros y Hy.
  apply in_map_iff in Hy as (a & <- & Ha).
  rewrite Forall_forall in Hx. auto.
Qed.

Lemma StronglySorted_seq (start len : nat) :
  StronglySorted Nat.lt (seq start len).
Proof.
  revert start. induction len as [|len IH]; intros start; simpl; constructor.
  - apply IH.
  - apply Forall_forall. intros y Hy. apply in_seq in Hy. lia.
Qed.

(** ** The contour extractor *)

Lemma Qgt_bool_iff (x y : Q) : Qgt_bool x y = true <-> (y < x)%Q.
Proof.
  unfold Qgt_bool. rewrite negb_true_iff.
  split; intros H.
  - apply Qnot_le_lt. intros Hle. apply Qle_bool_iff in Hle. congruence.
  - destruct (Qle_bool x y) eqn:E; [|reflexivity].
    apply Qle_bool_iff in E. exfalso. eapply Qlt_not_le; eauto.
Qed.

Lemma np_argsort_perm (keys : list Q) :
  Permutation (np_argsort keys) (seq 0 (length keys)).
Proof. apply sort_by_perm. Qed.

Lemma np_argsort_sorted (keys : list Q) :
  StronglySorted (fun i j => (nth i keys 0 <= nth j keys 0)%Q)
                 (np_argsort keys).
Proof.
  unfold np_argsort.
  apply sort_by_sorted with (pre := fun _ _ => True).
  - intros x y z. apply Qle_trans.
  - intros x y _ H. now apply Qle_bool_iff.
  - intros x y H. apply Qlt_le_weak, Qgt_bool_iff.
    unfold Qgt_bool. now rewrite H.
  - apply StronglySorted_trivial.
Qed.

Lemma nth_map_in_range {A B} (f : A -> B) (l : list A) (i : nat) d d' :
  (i < length l)%nat -> nth i (map f l) d' = f (nth i l d).
Proof.
  intros Hi. rewrite (nth_indep _ d' (f d)); [apply map_nth|].
  now rewrite length_map.
Qed.

(** Every position kept by the extractor is a position of [found] whose
    contour has an area above 5. *)
Lemma cvContour_positions (found : list contour) (i : nat) :
  In i (filter (fun i => Qgt_bool (nth i (map contourArea found) 0%Q) 5)
               (np_argsort (map contourArea found))) <->
  (i < length found)%nat /\ (5 < contourArea (nth i found []))%Q.
Proof.
  rewrite filter_In, Qgt_bool_iff.
  assert (Hin : In i (np_argsort (map contourArea found)) <->
                (i < length found)%nat).
  { split; intros H.
    - eapply Permutation_in in H; [|apply np_argsort_perm].
      apply in_seq in H. rewrite length_map in H. lia.
    - eapply Permutation_in; [symmetry; apply np_argsort_perm|].
      apply in_seq. rewrite length_map. lia. }
  rewrite Hin. split; intros [Hi H]; split; auto.
  - now rewrite (nth_map_in_range contourArea found i []) in H.
  - now rewrite (nth_map_in_range contourArea found i []).
Qed.

Lemma cvContour_sizes (found : list contour) :
  ex_sizes (cvContour found) = map contourArea (ex_contours (cvContour found)).
Proof.
  unfold cvContour, take. cbn [ex_contours ex_sizes].
  rewrite map_map. apply map_ext_in.
  intros i Hi. apply cvContour_positions in Hi as [Hi _].
  now apply (nth_map_in_range contourArea found i []).
Qed.

Lemma cvContour_members (found : list contour) (c : contour) :
  In c (ex_contours (cvContour found)) <->
  In c found /\ (5 < contourArea c)%Q.
Proof.
  unfold cvContour, take. cbn [ex_contours]. rewrite in_map_iff. split.
  - intros (i & <- & Hi). apply cvContour_positions in Hi as [Hi Hc].
    split; [now apply nth_In | assumption].
  - intros [Hc Ha]. apply (In_nth _ _ []) in Hc as (i & Hi & <-).
    exists i. split; [reflexivity|]. now apply cvContour_positions.
Qed.

(** C6.  Whatever [cv2.findContours] returns for the mask, the output of
    [cvContour] holds no contour of area 5 or less, its [sizes] array is the
    array of areas of its [contours] array, position by position, and it is
    ascending; the output contours are exactly the found contours whose area
    is above 5. *)
Theorem cvContour_filtered_sorted (found : list contour) :
  let e := cvContour found in
  (forall c, In c (ex_contours e) -> ~ (contourArea c <= 5)%Q) /\
  (forall a, In a (ex_sizes e) -> ~ (a <= 5)%Q) /\
  ex_sizes e = map contourArea (ex_contours e) /\
  StronglySorted Qle (ex_sizes e) /\
  (forall c, In c (ex_contours e) <->
             In c found /\ (5 < contourArea c)%Q).
Proof.
  cbv zeta.
  split; [|split; [|split; [|split]]].
  - intros c Hc Hle. apply cvContour_members in Hc as [_ Hc].
    eapply Qlt_not_le; eauto.
  - intros a Ha Hle. rewrite cvContour_sizes in Ha.
    apply in_map_iff in Ha as (c & <- & Hc).
    apply cvContour_members in Hc as [_ Hc]. eapply Qlt_not_le; eauto.
  - apply cvContour_sizes.
  - unfold cvContour, take. cbn [ex_sizes]. apply StronglySorted_map.
    apply StronglySorted_filter, np_argsort_sorted.
  - apply cvContour_members.
Qed.

(** ** The size filter *)

Lemma where_from_In (mask : list bool) (k z : Z) :
  In z (where_from k mask) <->
  exists i, z = k + Z.of_nat i /\ nth_error mask i = Some true.
Proof.
  revert k. induction mask as [|b mask IH]; intros k; simpl.
  - split; [tauto|]. intros ([|i] & _ & H); discriminate.
  - assert (Htail : In z (where_from (k + 1) mask) <->
                    exists i, z = k + Z.of_nat (S i) /\
                              nth_error mask i = Some true).
    { rewrite IH. split; intros (i & -> & H); exists i; split; auto; lia. }
    destruct b; simpl; rewrite Htail; split.
    + intros [<- | (i & -> & H)].
      * exists O. split; [simpl; lia | reflexivity].
      * exists (S i). auto.
    + intros ([|i] & -> & H).
      * left. simpl. lia.
      * right. exists i. auto.
    + intros (i & -> & H). exists (S i). auto.
    + intros ([|i] & -> & H); [discriminate|]. exists i. auto.
Qed.

Lemma np_where_In (mask : list bool) (i : nat) :
  In (Z.of_nat i) (np_where mask) <-> nth_error mask i = Some true.
Proof.
  unfold np_where. rewrite where_from_In. split.
  - intros (j & Hj & H). replace i with j by lia. exact H.
  - intros H. exists i. split; [lia | exact H].
Qed.

Lemma np_where_range (mask : list bool) (z : Z) :
  In z (np_where mask) -> 0 <= z < Z.of_nat (length mask).
Proof.
  unfold np_where. rewrite where_from_In. intros (i & -> & H).
  assert (i < length mask)%nat by (apply nth_error_Some; congruence). lia.
Qed.

Lemma sizeFilter_In (szs : list Q) (ref tol : Q) (i : nat) :
  In (Z.of_nat i) (sizeFilter szs ref tol) <->
  (i < length szs)%nat /\
  np_isclose (nth i szs 0%Q) ref (tol / 100) default_atol = true.
Proof.
  unfold sizeFilter. rewrite np_where_In. split.
  - intros H.
    assert (Hi : (i < length szs)%nat).
    { rewrite <- (length_map (fun a => np_isclose a ref (tol / 100) default_atol)).
      apply nth_error_Some. congruence. }
    split; [exact Hi|].
    rewrite (nth_error_nth' _ false) in H by now rewrite length_map.
    rewrite (nth_map_in_range _ _ _ 0%Q) in H by exact Hi. congruence.
  - intros [Hi H].
    rewrite (nth_error_nth' _ false) by now rewrite length_map.
    rewrite (nth_map_in_range _ _ _ 0%Q) by exact Hi. congruence.
Qed.

(** Areas are half-integers and tolerances are tenths of a percent, so the
    absolute tolerance of [np.isclose] never decides the comparison. *)
Lemma np_isclose_half_integers (a b : Q) (A B K : Z) :
  (a == A # 2)%Q -> (b == B # 2)%Q -> 0 <= B ->
  np_isclose a b ((K # 10) / 100) default_atol = true <->
  (Qabs (a - b) <= (K # 10) / 100 * b)%Q.
Proof.
  intros Ha Hb HB. unfold np_isclose. rewrite Qle_bool_iff.
  rewrite Ha, Hb.
  unfold default_atol, Qdiv, Qinv. cbn [Qnum Qden].
  unfold Qle, Qabs, Qminus, Qplus, Qopp, Qmult. cbn [Qnum Qden].
  rewrite (Z.abs_eq B) by exact HB.
  rewrite !Pos2Z.inj_mul.
  split; intros H; lia.
Qed.

Lemma round_tenths (x : Q) : exists K : Z, np_round x 1 = (K # 10)%Q.
Proof. eexists. reflexivity. Qed.

Lemma area_half_integer (cs : list contour) (i : nat) :
  exists A : Z, 0 <= A /\ (nth i (map contourArea cs) 0 == A # 2)%Q.
Proof.
  destruct (Nat.lt_ge_cases i (length cs)) as [Hi | Hi].
  - exists (Z.abs (a00 (nth i cs []))). split; [lia|].
    rewrite (nth_map_in_range contourArea cs i []) by exact Hi. reflexivity.
  - exists 0. split; [lia|].
    rewrite nth_overflow by now rewrite length_map. reflexivity.
Qed.

Lemma sizeFilter_areas (cs : list contour) (ref : Q) (B : Z) (x : Q) (i : nat) :
  0 <= B -> (ref == B # 2)%Q ->
  In (Z.of_nat i) (sizeFilter (map contourArea cs) ref (np_round x 1)) <->
  (i < length cs)%nat /\
  (Qabs (nth i (map contourArea cs) 0 - ref) <= np_round x 1 / 100 * ref)%Q.
Proof.
  intros HB Href.
  rewrite sizeFilter_In, length_map.
  destruct (round_tenths x) as [K ->].
  destruct (area_half_integer cs i) as (A & _ & HA).
  now rewrite (np_isclose_half_integers _ _ A B K HA Href HB).
Qed.

(** C3.  On the output of the extractor, for every reference position [r]
    and every position [i], the size filter of [getSimilarContours] keeps [i]
    exactly when [|area[i] - area[r]| <= (s/100) * area[r]], where [s] is the
    size tolerance after clipping to [0, 100] and rounding to one decimal;
    the bound depends on the reference area only.  With the tolerance at 0
    the filter keeps exactly the positions whose area equals the reference
    area. *)
Theorem size_filter_relative_to_reference
    (found : list contour) (rawTol : Q) (i r : nat) :
  let areas := ex_sizes (cvContour found) in
  let area := fun k => nth k areas 0%Q in
  let s := np_round (np_clip rawTol 0 100) 1 in
  let s0 := np_round (np_clip 0 0 100) 1 in
  (In (Z.of_nat i) (sizeFilter areas (area r) s) <->
   (i < length areas)%nat /\
   (Qabs (area i - area r) <= s / 100 * area r)%Q) /\
  (In (Z.of_nat i) (sizeFilter areas (area r) s0) <->
   (i < length areas)%nat /\ (area i == area r)%Q).
Proof.
  cbv zeta. rewrite cvContour_sizes.
  set (cs := ex_contours (cvContour found)).
  destruct (area_half_integer cs r) as (B & HB & Href).
  split.
  - rewrite (sizeFilter_areas cs _ B _ i HB Href), length_map. reflexivity.
  - rewrite (sizeFilter_areas cs _ B _ i HB Href), length_map.
    destruct (area_half_integer cs i) as (A & HA & Hi).
    apply and_iff_compat_l.
    rewrite Hi, Href.
    change (np_round (np_clip 0 0 100) 1) with (0 # 10)%Q.
    unfold Qdiv, Qinv. cbn [Qnum Qden].
    unfold Qle, Qeq, Qabs, Qminus, Qplus, Qopp, Qmult. cbn [Qnum Qden].
    rewrite !Pos2Z.inj_mul. lia.
Qed.

(** ** Index lists and sets *)

Lemma py_in_iff (x : Z) (l : list Z) : py_in x l = true <-> In x l.
Proof.
  unfold py_in. rewrite existsb_exists. split.
  - intros (y & Hy & E). apply Z.eqb_eq in E. now subst.
  - intros H. exists x. split; [exact H | apply Z.eqb_refl].
Qed.

Lemma py_in_false (x : Z) (l : list Z) : py_in x l = false <-> ~ In x l.
Proof.
  rewrite <- py_in_iff. destruct (py_in x l); split; congruence.
Qed.

Lemma uinsert_In (x y : Z) (l : list Z) :
  In y (uinsert x l) <-> y = x \/ In y l.
Proof.
  induction l as [|z l IH]; simpl.
  - intuition.
  - destruct (x <? z) eqn:E1; [simpl; intuition|].
    destruct (x =? z) eqn:E2.
    + apply Z.eqb_eq in E2. subst. simpl. intuition.
    + simpl. rewrite IH. intuition.
Qed.

Lemma np_unique_In (y : Z) (l : list Z) : In y (np_unique l) <-> In y l.
Proof.
  induction l as [|x l IH]; simpl; [tauto|].
  rewrite uinsert_In, IH. intuition.
Qed.

Lemma np_union1d_In (y : Z) (a b : list Z) :
  In y (np_union1d a b) <-> In y a \/ In y b.
Proof. unfold np_union1d. now rewrite np_unique_In, in_app_iff. Qed.

Lemma np_setdiff1d_In (y : Z) (a b : list Z) :
  In y (np_setdiff1d a b) <-> In y a /\ ~ In y b.
Proof.
  unfold np_setdiff1d.
  now rewrite filter_In, np_unique_In, negb_true_iff, py_in_false.
Qed.

(** ** Centroids *)

Lemma py_index_In {A} (l : list A) (k : Z) (a : A) :
  py_index l k = Ok a -> In a l.
Proof.
  unfold py_index.
  destruct (_ && _); [|discriminate].
  destruct (nth_error l _) eqn:E; [|discriminate].
  intros [= <-]. eapply nth_error_In; eauto.
Qed.

Lemma py_index_ok {A} (l : list A) (k : Z) :
  in_range (length l) k -> exists a, py_index l k = Ok a.
Proof.
  unfold in_range, py_index. intros Hk.
  set (j := if k <? 0 then k + Z.of_nat (length l) else k).
  assert (Hj : 0 <= j < Z.of_nat (length l)).
  { unfold j. destruct (k <? 0) eqn:E.
    - apply Z.ltb_lt in E. lia.
    - apply Z.ltb_ge in E. lia. }
  replace ((0 <=? j) && (j <? Z.of_nat (length l))) with true.
  - destruct (nth_error l (Z.to_nat j)) eqn:E; [eauto|].
    apply nth_error_None in E. lia.
  - symmetry. apply andb_true_iff. split; [apply Z.leb_le | apply Z.ltb_lt]; lia.
Qed.

Lemma py_index_raises {A} (l : list A) (k : Z) (e : exn) :
  py_index l k = Raise e -> e = IndexError.
Proof.
  unfold py_index.
  destruct (_ && _); [|congruence].
  destruct (nth_error l _); congruence.
Qed.

(** The zeroth moment of a contour is its area. *)
Lemma m00_contourArea (c : contour) : m00 (moments c) = contourArea c.
Proof.
  unfold moments, contourArea. cbn [m00]. f_equal.
  destruct (a00 c); cbn; reflexivity.
Qed.

Lemma py_div_ok (a b : Q) : (0 < b)%Q -> py_div a b = Ok (a / b)%Q.
Proof.
  intros Hb. unfold py_div.
  destruct (Qeq_bool b 0) eqn:E; [|reflexivity].
  apply Qeq_bool_eq in E. rewrite E in Hb. now apply Qlt_irrefl in Hb.
Qed.

Lemma centroid_ok (c : contour) :
  (0 < contourArea c)%Q -> exists xy, centroid c = Ok (xy, contourArea c).
Proof.
  intros H. unfold centroid. rewrite m00_contourArea.
  rewrite !py_div_ok by exact H. cbn [bind]. eauto.
Qed.

Lemma mapM_ok {A B} (f : A -> result B) (l : list A) :
  (forall x, In x l -> exists y, f x = Ok y) ->
  exists ys, mapM f l = Ok ys /\ length ys = length l.
Proof.
  induction l as [|x l IH]; intros H; simpl.
  - exists []. auto.
  - destruct (H x (or_introl eq_refl)) as [y ->].
    destruct IH as (ys & -> & Hlen); [intros; apply H; now right|].
    exists (y :: ys). simpl. auto.
Qed.

Lemma mapM_raises {A B} (f : A -> result B) (l : list A) (e : exn) :
  mapM f l = Raise e -> exists x, In x l /\ f x = Raise e.
Proof.
  induction l as [|x l IH]; simpl; [discriminate|].
  destruct (f x) eqn:E; cbn [bind].
  - destruct (mapM f l) eqn:E'; cbn [bind]; [discriminate|].
    intros [= <-]. destruct (IH eq_refl) as (x' & Hx' & Hf). eauto.
  - intros [= <-]. eauto.
Qed.

Lemma mapM_length {A B} (f : A -> result B) (l : list A) ys :
  mapM f l = Ok ys -> length ys = length l.
Proof.
  revert ys. induction l as [|x l IH]; simpl; intros ys.
  - now intros [= <-].
  - destruct (f x); cbn [bind]; [|discriminate].
    destruct (mapM f l); cbn [bind]; [|discriminate].
    intros [= <-]. simpl. f_equal. now apply IH.
Qed.

Lemma cvContour_extractor_output (found : list contour) :
  extractor_output (ex_contours (cvContour found)).
Proof. intros c Hc. now apply cvContour_members in Hc. Qed.

Lemma extractor_output_positive cs c :
  extractor_output cs -> In c cs -> (0 < contourArea c)%Q.
Proof.
  intros H Hc. apply Qlt_trans with 5%Q; [reflexivity | now apply H].
Qed.

(** [findCenters] changes only the centre arrays. *)
Lemma findCenters_lists (w w' : Matcher) :
  findCenters w = Ok w' ->
  contours w' = contours w /\ sizes w' = sizes w /\
  selectedCont w' = selectedCont w /\
  closeInds w' = closeInds w /\ closeIndsPlus w' = closeIndsPlus w /\
  addConts w' = addConts w /\ removeConts w' = removeConts w /\
  length (centers w') = length (closeIndsPlus w) /\
  length (closeSizes w') = length (closeIndsPlus w).
Proof.
  unfold findCenters.
  destruct (mapM _ (closeIndsPlus w)) as [rows|] eqn:E; cbn [bind];
    [|discriminate].
  intros [= <-]. cbn. apply mapM_length in E.
  rewrite !length_map, E. repeat split; reflexivity.
Qed.

Lemma findCenters_ok (w : Matcher) :
  extractor_output (contours w) ->
  (forall k, In k (closeIndsPlus w) -> in_range (length (contours w)) k) ->
  exists w', findCenters w = Ok w'.
Proof.
  intros Hout Hidx. unfold findCenters.
  destruct (mapM_ok
    (fun ind => cont <- py_index (contours w) ind ;; centroid cont)
    (closeIndsPlus w)) as (rows & -> & _).
  - intros k Hk. destruct (py_index_ok _ _ (Hidx k Hk)) as [c Hc].
    rewrite Hc. cbn [bind].
    destruct (centroid_ok c) as [xy Hxy]; [|eauto].
    eapply extractor_output_positive; eauto using py_index_In.
  - cbn [bind]. eauto.
Qed.

(** C10.  When the contours of the window are the output of the extractor,
    every contour that an index can select, counting from either end as
    Python does, has a zeroth moment [m00] above 5, so it is not zero, both
    quotients of the centroid are computed, and [findCenters] never raises
    [ZeroDivisionError], whatever indices the effective set holds. *)
Theorem centroid_moment_nonzero (found : list contour) (w : Matcher) :
  contours w = ex_contours (cvContour found) ->
  (forall ind c, py_index (contours w) ind = Ok c ->
     (5 < m00 (moments c))%Q /\ ~ (m00 (moments c) == 0)%Q /\
     exists cx cy, py_div (m10 (moments c)) (m00 (moments c)) = Ok cx /\
                   py_div (m01 (moments c)) (m00 (moments c)) = Ok cy /\
                   centroid c = Ok (py_int cx, py_int cy, m00 (moments c))) /\
  findCenters w <> Raise ZeroDivisionError.
Proof.
  intros Hw.
  assert (Hout : extractor_output (contours w)).
  { rewrite Hw. apply cvContour_extractor_output. }
  split.
  - intros ind c Hc. apply py_index_In in Hc.
    assert (H5 : (5 < contourArea c)%Q) by now apply Hout.
    assert (H0 : (0 < contourArea c)%Q)
      by (eapply extractor_output_positive; eauto).
    rewrite m00_contourArea. split; [exact H5|]. split.
    + intros E. rewrite E in H0. now apply Qlt_irrefl in H0.
    + exists (m10 (moments c) / contourArea c)%Q,
             (m01 (moments c) / contourArea c)%Q.
      unfold centroid. rewrite m00_contourArea, !py_div_ok by exact H0.
      cbn [bind]. auto.
  - unfold findCenters. intros H.
    destruct (mapM _ (closeIndsPlus w)) as [rows|e] eqn:E; cbn [bind] in H;
      [discriminate|].
    injection H as ->.
    apply mapM_raises in E as (k & _ & E).
    destruct (py_index (contours w) k) as [c|e] eqn:Hc; cbn [bind] in E.
    + apply py_index_In in Hc.
      destruct (centroid_ok c) as [xy Hxy]; [|congruence].
      eapply extractor_output_positive; eauto.
    + apply py_index_raises in Hc. congruence.
Qed.

(** ** The shape filter *)

Ltac bind_inv H :=
  repeat match type of H with
  | bind ?r _ = Ok _ =>
      let E := fresh "E" in
      destruct r eqn:E; cbn [bind] in H; [|discriminate H]
  end.

Lemma running_max (l : list Q) (init : Q) :
  let res := fold_left (fun res t => if Qgt_bool t res then t else res) l init in
  (init <= res)%Q /\
  (forall t, In t l -> (t <= res)%Q) /\
  (res = init \/ In res l).
Proof.
  revert init. induction l as [|x l IH]; intros init; cbn zeta; simpl.
  - split; [apply Qle_refl|]. split; [tauto | auto].
  - specialize (IH (if Qgt_bool x init then x else init)).
    cbv zeta in IH. destruct IH as (Hge & Hall & Hin).
    destruct (Qgt_bool x init) eqn:E.
    + apply Qgt_bool_iff in E. split; [|split].
      * eapply Qle_trans; [apply Qlt_le_weak; exact E | exact Hge].
      * intros t [<- | Ht]; auto.
      * destruct Hin as [-> | Hin]; auto.
    + assert (Hx : (x <= init)%Q).
      { apply Qnot_lt_le. intros Hlt. apply Qgt_bool_iff in Hlt. congruence. }
      split; [exact Hge|]. split.
      * intros t [<- | Ht]; auto. eapply Qle_trans; eauto.
      * destruct Hin as [-> | Hin]; auto.
Qed.

Lemma I3_term_same (a : Q) : (I3_term a a == 0)%Q.
Proof.
  unfold I3_term.
  assert (E : (a - a == 0)%Q) by ring.
  rewrite E. reflexivity.
Qed.

Lemma combine_same_In {A} (l : list A) (p : A * A) :
  In p (combine l l) -> fst p = snd p.
Proof.
  induction l as [|x l IH]; simpl; [tauto|].
  intros [<- | H]; auto.
Qed.

Lemma mapM_Forall2 {A B} (f : A -> result B) (l : list A) (ys : list B) :
  mapM f l = Ok ys -> Forall2 (fun x y => f x = Ok y) l ys.
Proof.
  revert ys. induction l as [|x l IH]; simpl; intros ys H.
  - injection H as <-. constructor.
  - bind_inv H. injection H as <-. constructor; auto.
Qed.

Lemma shapeFilter_In invariants (cs : list contour) (ref : contour) (tol : Q)
    (cands kept : list Z) :
  shapeFilter invariants cs ref tol cands = Ok kept ->
  forall i, In i kept <->
    In i cands /\
    exists c, py_index cs i = Ok c /\
              (matchShapes_I3 invariants c ref < tol)%Q.
Proof.
  unfold shapeFilter. intros H i. bind_inv H. injection H as <-.
  apply mapM_Forall2 in E.
  induction E as [|k sc cands scores Hk E IH]; simpl.
  - split; [tauto | intros [[] _]].
  - destruct (py_index cs k) as [c|] eqn:Hc; cbn [bind] in Hk; [|discriminate].
    injection Hk as <-.
    destruct (Qgt_bool tol (matchShapes_I3 invariants c ref)) eqn:Hs; simpl.
    + rewrite IH. split.
      * intros [<- | [Hi Hex]]; [|tauto].
        split; [now left|]. exists c. split; [exact Hc|].
        now apply Qgt_bool_iff.
      * intros [[<- | Hi] Hex]; [now left | right; tauto].
    + rewrite IH. split; [tauto|].
      intros [[<- | Hi] Hex]; [|tauto].
      destruct Hex as (c' & Hc' & Hlt). exfalso.
      rewrite Hc in Hc'. injection Hc' as <-.
      apply Qgt_bool_iff in Hlt. congruence.
Qed.

(** The parts of [getSimilarContours], in the order it runs them. *)
Lemma getSimilarContours_inv invariants (w w' : Matcher) :
  getSimilarContours invariants w = Ok w' ->
  exists refSize refCont,
    py_index (sizes w) (selectedCont w) = Ok refSize /\
    py_index (contours w) (selectedCont w) = Ok refCont /\
    shapeFilter invariants (contours w) refCont
      (np_round (np_clip (V_shapeTol w) 0 2) 3)
      (sizeFilter (sizes w) refSize (np_round (np_clip (V_sizeTol w) 0 100) 1))
    = Ok (closeInds w') /\
    closeIndsPlus w' = np_union1d (closeInds w') (addConts w) /\
    addConts w' = addConts w /\
    removeConts w' = [] /\
    contours w' = contours w.
Proof.
  unfold getSimilarContours. intros H. bind_inv H.
  apply findCenters_lists in H. cbn in H.
  destruct H as (Hc & _ & _ & Hclose & Hplus & Hadd & Hrem & _).
  exists a, a0. rewrite Hclose, Hplus, Hadd, Hrem, Hc. auto 10.
Qed.

(** C2 (amended).  After [getSimilarContours], a position is in the matched
    set exactly when it passed the size filter and its score against the
    reference is strictly below the rounded shape tolerance.  The score of a
    candidate is the greatest, over the invariant components, of
    [|candidate - reference| / |candidate|] (or 0 when no component exceeds
    0): the candidate is the first argument of [cv2.matchShapes], and
    [CV_CONTOURS_MATCH_I3] normalises by the first argument.  The score of a
    contour against itself is 0. *)
Theorem shape_score_and_filter
    (invariants : contour -> list Q) (w w' : Matcher) :
  getSimilarContours invariants w = Ok w' ->
  let s := np_round (np_clip (V_sizeTol w) 0 100) 1 in
  let d := np_round (np_clip (V_shapeTol w) 0 2) 3 in
  exists refSize refCont,
    py_index (sizes w) (selectedCont w) = Ok refSize /\
    py_index (contours w) (selectedCont w) = Ok refCont /\
    (forall i, In i (closeInds w') <->
       In i (sizeFilter (sizes w) refSize s) /\
       exists c, py_index (contours w) i = Ok c /\
                 (matchShapes_I3 invariants c refCont < d)%Q) /\
    (forall c,
       let score := matchShapes_I3 invariants c refCont in
       (forall a b,
          In (a, b) (combine (invariants c) (invariants refCont)) ->
          (Qabs (a - b) / Qabs a <= score)%Q) /\
       (score = 0%Q \/
        exists a b,
          In (a, b) (combine (invariants c) (invariants refCont)) /\
          score = (Qabs (a - b) / Qabs a)%Q)) /\
    (forall c, matchShapes_I3 invariants c c == 0)%Q.
Proof.
  intros H. cbv zeta.
  apply getSimilarContours_inv in H
    as (refSize & refCont & Hs & Hc & Hf & _).
  exists refSize, refCont.
  split; [exact Hs|]. split; [exact Hc|]. split; [|split].
  - apply (shapeFilter_In _ _ _ _ _ _ Hf).
  - intros c.
    destruct (running_max (I3_terms invariants c refCont) 0)
      as (_ & Hall & Hin).
    fold (matchShapes_I3 invariants c refCont) in Hall, Hin. split.
    + intros a b Hab. apply Hall. unfold I3_terms.
      apply in_map_iff. exists (a, b). auto.
    + destruct Hin as [Hin | Hin]; [now left | right].
      unfold I3_terms in Hin. apply in_map_iff in Hin as ([a b] & E & Hab).
      exists a, b. split; [exact Hab | now rewrite <- E].
  - intros c.
    destruct (running_max (I3_terms invariants c c) 0) as (_ & _ & Hin).
    fold (matchShapes_I3 invariants c c) in Hin.
    destruct Hin as [-> | Hin]; [reflexivity|].
    unfold I3_terms in Hin. apply in_map_iff in Hin as ([a b] & E & Hab).
    apply combine_same_In in Hab. cbn in Hab. subst b.
    rewrite <- E. apply I3_term_same.
Qed.

Lemma shape_score_and_filter_witness :
  getSimilarContours sample_invariants sample_shape_window
    = Ok sample_shape_matched /\
  exists refSize refCont,
    py_index (sizes sample_shape_window) (selectedCont sample_shape_window)
      = Ok refSize /\
    py_index (contours sample_shape_window) (selectedCont sample_shape_window)
      = Ok refCont /\
    (forall i, In i (closeInds sample_shape_matched) <->
       In i (sizeFilter (sizes sample_shape_window) refSize
               (np_round (np_clip (V_sizeTol sample_shape_window) 0 100) 1)) /\
       exists c, py_index (contours sample_shape_window) i = Ok c /\
                 (matchShapes_I3 sample_invariants c refCont <
                  np_round (np_clip (V_shapeTol sample_shape_window) 0 2) 3)%Q) /\
    (forall c,
       let score := matchShapes_I3 sample_invariants c refCont in
       (forall a b,
          In (a, b) (combine (sample_invariants c) (sample_invariants refCont)) ->
          (Qabs (a - b) / Qabs a <= score)%Q) /\
       (score = 0%Q \/
        exists a b,
          In (a, b) (combine (sample_invariants c) (sample_invariants refCont)) /\
          score = (Qabs (a - b) / Qabs a)%Q)) /\
    (forall c, matchShapes_I3 sample_invariants c c == 0)%Q.
Proof.
  split; [vm_compute; reflexivity|].
  apply (shape_score_and_filter sample_invariants sample_shape_window
           sample_shape_matched).
  vm_compute; reflexivity.
Defined.

(** ** The operations go through *)

Lemma py_remove_In (x y : Z) (l : list Z) : In y (py_remove x l) -> In y l.
Proof.
  induction l as [|z l IH]; simpl; [tauto|].
  destruct (x =? z); simpl; intuition.
Qed.

Lemma shapeFilter_ok invariants (cs : list contour) (ref : contour) (tol : Q)
    (cands : list Z) :
  (forall i, In i cands -> in_range (length cs) i) ->
  exists kept, shapeFilter invariants cs ref tol cands = Ok kept.
Proof.
  intros H. unfold shapeFilter.
  destruct (mapM_ok
    (fun ind => c <- py_index cs ind ;; Ok (matchShapes_I3 invariants c ref))
    cands) as (scores & -> & _).
  - intros i Hi. destruct (py_index_ok cs i (H i Hi)) as [c ->].
    cbn [bind]. eauto.
  - cbn [bind]. eauto.
Qed.

Lemma in_range_nonneg (n : nat) (k : Z) :
  0 <= k < Z.of_nat n -> in_range n k.
Proof. unfold in_range. lia. Qed.

(** On a selectable window, a change of the tolerances and a shift-click on
    a contour (or outside every contour, [k = -1], when there is a contour)
    return, and leave the window selectable. *)
Lemma step_ok invariants (w : Matcher) (o : Operation) :
  selectable w -> mouse_in_range w o ->
  exists w', step invariants w o = Ok w' /\ selectable w'.
Proof.
  unfold selectable. cbv zeta.
  intros (Hout & Hsz & Hsel & Hclose & Hadd & Hrem) Hmouse.
  destruct o as [k | s d]; cbn [step mouse_in_range] in *.
  - unfold appendContour. cbn [with_mouse closeInds inContour addConts
                               removeConts].
    destruct (closeInds w) as [|k0 close] eqn:Hc.
    + eexists. split; [reflexivity|].
      unfold selectContour. cbn [with_mouse inContour].
      destruct (k =? -1);
        cbn [selectedCont contours sizes closeInds addConts removeConts
             with_mouse];
        rewrite ?Hc;
        (split; [|split; [|split; [|split; [|split]]]]); auto;
        intros ? [].
    + cbv zeta.
      set (add := if negb (py_in k (k0 :: close)) && negb (py_in k (addConts w))
                  then addConts w ++ [k]
                  else if negb (py_in k (k0 :: close)) && py_in k (addConts w)
                       then py_remove k (addConts w) else addConts w).
      set (rem := if negb (py_in k (k0 :: close)) then removeConts w
                  else if negb (py_in k (removeConts w))
                       then removeConts w ++ [k]
                       else py_remove k (removeConts w)).
      assert (Hadd' : forall j, In j add -> in_range (length (contours w)) j).
      { intros j. unfold add.
        destruct (py_in k (k0 :: close)), (py_in k (addConts w));
          cbn [negb andb]; auto.
        - intros Hj. apply py_remove_In in Hj. auto.
        - rewrite in_app_iff. intros [Hj | [<- | []]]; auto. }
      assert (Hrem' : forall j, In j rem -> in_range (length (contours w)) j).
      { intros j. unfold rem.
        destruct (py_in k (k0 :: close)), (py_in k (removeConts w));
          cbn [negb]; auto.
        - intros Hj. apply py_remove_In in Hj. auto.
        - rewrite in_app_iff. intros [Hj | [<- | []]]; auto. }
      destruct (findCenters_ok
        (with_lists (with_mouse w k) (k0 :: close)
           (np_setdiff1d (np_union1d (k0 :: close) add) rem) add rem))
        as [w' Hw'].
      * exact Hout.
      * cbn [closeIndsPlus contours with_lists with_mouse].
        intros j Hj. apply np_setdiff1d_In in Hj as [Hj _].
        apply np_union1d_In in Hj as [Hj | Hj]; auto.
      * exists w'. split; [exact Hw'|].
        apply findCenters_lists in Hw'. cbn in Hw'.
        destruct Hw' as (E1 & E2 & E3 & E4 & _ & E6 & E7 & _).
        rewrite E1, E2, E3, E4, E6, E7. auto 10.
  - unfold getSimilarContours. cbn [with_tolerances sizes contours
      selectedCont V_sizeTol V_shapeTol addConts inContour centers closeSizes
      indDict].
    destruct (py_index_ok (sizes w) (selectedCont w)) as [refSize ->];
      [now rewrite Hsz|].
    destruct (py_index_ok (contours w) (selectedCont w) Hsel) as [refCont ->].
    cbn [bind].
    set (cands := sizeFilter (sizes w) refSize
                    (np_round (np_clip s 0 100) 1)).
    assert (Hcands : forall i, In i cands -> in_range (length (contours w)) i).
    { intros i Hi. unfold cands, sizeFilter in Hi.
      apply np_where_range in Hi. rewrite length_map, Hsz in Hi.
      now apply in_range_nonneg. }
    destruct (shapeFilter_ok invariants (contours w) refCont
                (np_round (np_clip d 0 2) 3) cands Hcands) as [kept Hkept].
    rewrite Hkept. cbn [bind].
    assert (Hk : forall i, In i kept -> in_range (length (contours w)) i).
    { intros i Hi. apply (shapeFilter_In _ _ _ _ _ _ Hkept) in Hi as [Hi _].
      auto. }
    match goal with
    | |- exists w', findCenters ?st = Ok w' /\ _ =>
        destruct (findCenters_ok st) as [w' Hw']
    end.
    + exact Hout.
    + cbn [closeIndsPlus contours].
      intros j Hj. apply np_union1d_In in Hj as [Hj | Hj]; auto.
    + exists w'. split; [exact Hw'|].
      apply findCenters_lists in Hw'. cbn in Hw'.
      destruct Hw' as (E1 & E2 & E3 & E4 & _ & E6 & E7 & _).
      rewrite E1, E2, E3, E4, E6, E7.
      (split; [|split; [|split; [|split; [|split]]]]); auto.
      intros ? [].
Qed.

Lemma fresh_window_selectable (found : list contour) (ref : nat) :
  (ref < length (ex_contours (cvContour found)))%nat ->
  selectable (fresh_window found (Z.of_nat ref)).
Proof.
  intros Href. unfold selectable, fresh_window.
  cbn [selectedCont contours sizes closeInds addConts removeConts].
  split; [apply cvContour_extractor_output|].
  split; [now rewrite cvContour_sizes, length_map|].
  split; [unfold in_range; lia|].
  split; [|split]; intros ? [].
Qed.

(** ** OpenCV's score of the octagon against the square *)

Local Open Scope R_scope.

Lemma ln_pow_lt (x y : R) (n m : nat) :
  0 < x -> 0 < y -> x ^ n < y ^ m -> INR n * ln x < INR m * ln y.
Proof.
  intros Hx Hy H.
  rewrite <- (ln_pow x Hx n), <- (ln_pow y Hy m).
  apply ln_increasing; [now apply pow_lt | exact H].
Qed.

Lemma pow_ratio_lt (a b c : Z) (n m : nat) :
  (0 < b)%Z ->
  (a ^ Z.of_nat n < c ^ Z.of_nat m * b ^ Z.of_nat n)%Z ->
  (IZR a / IZR b) ^ n < IZR c ^ m.
Proof.
  intros Hb H.
  assert (Hbn : 0 < IZR b ^ n) by (apply pow_lt, IZR_lt; exact Hb).
  unfold Rdiv. rewrite Rpow_mult_distr, pow_inv.
  apply (Rmult_lt_reg_r (IZR b ^ n)); [exact Hbn|].
  rewrite Rmult_assoc, Rinv_l, Rmult_1_r by lra.
  rewrite !pow_IZR, <- mult_IZR. now apply IZR_lt.
Qed.

Lemma pow_ratio_gt (a b c : Z) (n m : nat) :
  (0 < b)%Z ->
  (c ^ Z.of_nat m * b ^ Z.of_nat n < a ^ Z.of_nat n)%Z ->
  IZR c ^ m < (IZR a / IZR b) ^ n.
Proof.
  intros Hb H.
  assert (Hbn : 0 < IZR b ^ n) by (apply pow_lt, IZR_lt; exact Hb).
  unfold Rdiv. rewrite Rpow_mult_distr, pow_inv.
  apply (Rmult_lt_reg_r (IZR b ^ n)); [exact Hbn|].
  rewrite Rmult_assoc, Rinv_l, Rmult_1_r by lra.
  rewrite !pow_IZR, <- mult_IZR. now apply IZR_lt.
Qed.

(** The logarithms of the first invariants: [294/47] for the octagon and 6
    for the square, reciprocals taken. *)
Lemma octagon_square_logs :
  85 * ln (294 / 47) < 87 * ln 6 /\
  44 * ln 6 < 43 * ln (294 / 47) /\
  ln 10 < 2 * ln 6 /\
  ln 10 < 2 * ln (294 / 47).
Proof.
  assert (H6 : 0 < 6) by lra.
  assert (Ho : 0 < 294 / 47) by lra.
  split; [|split; [|split]].
  - replace 85 with (INR 85) by (now rewrite INR_IZR_INZ).
    replace 87 with (INR 87) by (now rewrite INR_IZR_INZ).
    apply ln_pow_lt; [exact Ho | exact H6|].
    apply pow_ratio_lt; [lia|]. vm_compute. reflexivity.
  - replace 44 with (INR 44) by (now rewrite INR_IZR_INZ).
    replace 43 with (INR 43) by (now rewrite INR_IZR_INZ).
    apply ln_pow_lt; [exact H6 | exact Ho|].
    apply pow_ratio_gt; [lia|]. vm_compute. reflexivity.
  - replace (ln 10) with (INR 1 * ln 10) by (cbn [INR]; ring).
    replace 2 with (INR 2) by (now rewrite INR_IZR_INZ).
    apply ln_pow_lt; lra.
  - replace (ln 10) with (INR 1 * ln 10) by (cbn [INR]; ring).
    replace 2 with (INR 2) by (now rewrite INR_IZR_INZ).
    apply ln_pow_lt; lra.
Qed.


(** With both descriptor values within [10^-6] of the logarithms, the score
    normalised by the candidate is below 0.023 and the score normalised by
    the reference is not. *)
Lemma octagon_square_scores (O S a b delta : R) :
  85 * O < 87 * S -> 44 * S < 43 * O -> 1 < 2 * S -> 1 < 2 * O ->
  0 <= delta <= 1 / 1000000 ->
  Rabs (a - - O) <= delta -> Rabs (b - - S) <= delta ->
  a < 0 /\ b < 0 /\ a - b < 0 /\
  - (a - b) < 23 / 1000 * - a /\
  23 / 1000 * - b <= - (a - b).
Proof.
  intros H1 H2 H3 H4 Hd Ha Hb.
  unfold Rabs in Ha, Hb.
  destruct (Rcase_abs (a - - O)), (Rcase_abs (b - - S)); repeat split; lra.
Qed.

Lemma log_scaled_octagon :
  log_scaled (47 # 294) = - (ln (294 / 47) / ln 10).
Proof.
  unfold log_scaled, log10, Q2R. cbn [Qnum Qden Z.sgn].
  rewrite Rabs_pos_eq by lra.
  replace (47 * / 294) with (/ (294 / 47)) by (field; lra).
  rewrite ln_Rinv by lra. field.
  apply Rgt_not_eq. rewrite <- ln_1. apply ln_increasing; lra.
Qed.

Lemma log_scaled_square :
  log_scaled (1 # 6) = - (ln 6 / ln 10).
Proof.
  unfold log_scaled, log10, Q2R. cbn [Qnum Qden Z.sgn].
  rewrite Rabs_pos_eq by lra.
  replace (1 * / 6) with (/ 6) by (field; lra).
  rewrite ln_Rinv by lra. field.
  apply Rgt_not_eq. rewrite <- ln_1. apply ln_increasing; lra.
Qed.

Lemma cv_compared_octagon_square :
  cv_compared (octagon 10 0) (square 0 0 4) = [(47 # 294, 1 # 6)%Q].
Proof. vm_compute. reflexivity. Qed.

Lemma ln10_pos : 0 < ln 10.
Proof. rewrite <- ln_1. apply ln_increasing; lra. Qed.

(** The four facts in units of [log10]. *)
Lemma octagon_square_log10 :
  let O := ln (294 / 47) / ln 10 in
  let S := ln 6 / ln 10 in
  85 * O < 87 * S /\ 44 * S < 43 * O /\ 1 < 2 * S /\ 1 < 2 * O.
Proof.
  cbv zeta. destruct octagon_square_logs as (H1 & H2 & H3 & H4).
  pose proof ln10_pos as H10.
  assert (Hi : 0 < / ln 10) by now apply Rinv_0_lt_compat.
  unfold Rdiv. repeat split.
  - rewrite <- !Rmult_assoc. now apply Rmult_lt_compat_r.
  - rewrite <- !Rmult_assoc. now apply Rmult_lt_compat_r.
  - apply (Rmult_lt_reg_r (ln 10)); [exact H10|].
    rewrite Rmult_1_l, !Rmult_assoc, Rinv_l, Rmult_1_r by lra. exact H3.
  - apply (Rmult_lt_reg_r (ln 10)); [exact H10|].
    rewrite Rmult_1_l, !Rmult_assoc, Rinv_l, Rmult_1_r by lra. exact H4.
Qed.

Lemma ratio_lt (x y c : R) :
  y < 0 -> x < 0 -> - x < c * - y -> Rabs (x / y) < c.
Proof.
  intros Hy Hx H.
  replace (x / y) with (- x / - y) by (field; lra).
  assert (Hp : 0 < - x / - y).
  { apply Rdiv_lt_0_compat; lra. }
  rewrite Rabs_pos_eq by lra.
  apply (Rmult_lt_reg_r (- y)); [lra|].
  unfold Rdiv. rewrite Rmult_assoc, Rinv_l, Rmult_1_r by lra. exact H.
Qed.

Lemma ratio_ge (x y c : R) :
  y < 0 -> x < 0 -> c * - y <= - x -> c <= Rabs (x / y).
Proof.
  intros Hy Hx H.
  replace (x / y) with (- x / - y) by (field; lra).
  assert (Hp : 0 < - x / - y).
  { apply Rdiv_lt_0_compat; lra. }
  rewrite Rabs_pos_eq by lra.
  apply (Rmult_le_reg_r (- y)); [lra|].
  unfold Rdiv. rewrite Rmult_assoc, Rinv_l, Rmult_1_r by lra. exact H.
Qed.

Lemma Q_within (x : R) :
  exists q : Q, Rabs (Q2R q - x) <= 1 / 1000000.
Proof.
  destruct (archimed (x * 1000000)) as [H1 H2].
  exists (up (x * 1000000) # 1000000)%Q.
  unfold Q2R. cbn [Qnum Qden].
  apply Rabs_le. split; lra.
Qed.

Local Close Scope R_scope.

Lemma Q2R_23 : Q2R (23 # 1000) = (23 / 1000)%R.
Proof. unfold Q2R. cbn [Qnum Qden]. lra. Qed.

(** The rational side of [octagon_square_scores]. *)
Lemma descriptor_scores (a b : Q) :
  (Rabs (Q2R a - log_scaled (47 # 294)) <= 1 / 1000000)%R ->
  (Rabs (Q2R b - log_scaled (1 # 6)) <= 1 / 1000000)%R ->
  (I3_term a b < 23 # 1000)%Q /\
  (23 # 1000 <= spec_term a b)%Q.
Proof.
  intros Ha Hb. rewrite log_scaled_octagon in Ha. rewrite log_scaled_square in Hb.
  destruct octagon_square_log10 as (H1 & H2 & H3 & H4).
  destruct (octagon_square_scores _ _ _ _ (1 / 1000000)%R H1 H2 H3 H4
              ltac:(lra) Ha Hb) as (Ra & Rb & Rab & Rp & Rs).
  assert (Qa : (a < 0)%Q) by (apply Rlt_Qlt; rewrite RMicromega.Q2R_0; exact Ra).
  assert (Qb : (b < 0)%Q) by (apply Rlt_Qlt; rewrite RMicromega.Q2R_0; exact Rb).
  assert (Qab : (a - b < 0)%Q).
  { apply Rlt_Qlt. rewrite RMicromega.Q2R_0, Q2R_minus. exact Rab. }
  assert (Qp : (- (a - b) < (23 # 1000) * - a)%Q).
  { apply Rlt_Qlt. rewrite Q2R_mult, !Q2R_opp, Q2R_minus, Q2R_23. exact Rp. }
  assert (Qs : ((23 # 1000) * - b <= - (a - b))%Q).
  { apply Rle_Qle. rewrite Q2R_mult, !Q2R_opp, Q2R_minus, Q2R_23. exact Rs. }
  unfold I3_term, spec_term.
  rewrite (Qabs_neg (a - b)) by (apply Qlt_le_weak; exact Qab).
  rewrite (Qabs_neg a) by (apply Qlt_le_weak; exact Qa).
  rewrite (Qabs_neg b) by (apply Qlt_le_weak; exact Qb).
  split.
  - apply Qlt_shift_div_r; [|exact Qp]. Lqa.lra.
  - apply Qle_shift_div_l; [|exact Qs]. Lqa.lra.
Qed.

Lemma tight_shape_window_tolerance :
  (np_round (np_clip (V_shapeTol tight_shape_window) 0 2) 3 == 23 # 1000)%Q.
Proof. vm_compute. reflexivity. Qed.

(** C2 as the specification words it fails.  The octagon (component 0)
    against the square reference (component 1) at shape tolerance 0.023.
    Their first Hu invariants are [47/294] and [1/6], the other six vanish
    and are skipped.  OpenCV's score, normalised by the candidate's
    descriptor, is about 0.02273 and the octagon is matched; normalised by
    the reference's descriptor it is about 0.02326, not below the
    tolerance.  The last part runs the matcher on any rational descriptor
    within [10^-6] of OpenCV's logarithms. *)
Lemma shape_score_normalised_by_candidate :
  py_index (contours tight_shape_window) 0 = Ok (octagon 10 0) /\
  py_index (contours tight_shape_window) (selectedCont tight_shape_window)
    = Ok (square 0 0 4) /\
  HuMoments (octagon 10 0) = [47 # 294; 0; 0; 0; 0; 0; 0]%Q /\
  HuMoments (square 0 0 4) = [1 # 6; 0; 0; 0; 0; 0; 0]%Q /\
  (np_round (np_clip (V_shapeTol tight_shape_window) 0 2) 3 == 23 # 1000)%Q /\
  (cv_matchShapes_I3 (octagon 10 0) (square 0 0 4) < 23 / 1000)%R /\
  (23 / 1000 <= spec_matchShapes (octagon 10 0) (square 0 0 4))%R /\
  (exists invariants,
     cv_descriptor invariants (1 / 1000000) (octagon 10 0) (square 0 0 4)) /\
  (forall invariants,
     cv_descriptor invariants (1 / 1000000) (octagon 10 0) (square 0 0 4) ->
     exists w',
       getSimilarContours invariants tight_shape_window = Ok w' /\
       In 0 (closeInds w') /\
       (matchShapes_I3 invariants (octagon 10 0) (square 0 0 4)
        < 23 # 1000)%Q /\
       ~ (spec_score invariants (octagon 10 0) (square 0 0 4)
          < 23 # 1000)%Q).
Proof.
  split; [vm_compute; reflexivity|]. split; [vm_compute; reflexivity|].
  split; [vm_compute; reflexivity|]. split; [vm_compute; reflexivity|].
  split; [exact tight_shape_window_tolerance|].
  destruct octagon_square_log10 as (H1 & H2 & H3 & H4).
  destruct (octagon_square_scores _ _ (- (ln (294 / 47) / ln 10))%R
              (- (ln 6 / ln 10))%R 0%R H1 H2 H3 H4)
    as (Ra & Rb & Rab & Rp & Rs).
  { lra. }
  { rewrite Rminus_diag, Rabs_R0. lra. }
  { rewrite Rminus_diag, Rabs_R0. lra. }
  split; [|split; [|split]].
  - unfold cv_matchShapes_I3. rewrite cv_compared_octagon_square.
    cbn [fold_left fst snd]. rewrite log_scaled_octagon, log_scaled_square.
    apply Rmax_lub_lt; [lra|]. apply ratio_lt; assumption.
  - unfold spec_matchShapes. rewrite cv_compared_octagon_square.
    cbn [fold_left fst snd]. rewrite log_scaled_octagon, log_scaled_square.
    eapply Rle_trans; [|apply Rmax_r]. apply ratio_ge; assumption.
  - destruct (Q_within (log_scaled (47 # 294))) as [qa Hqa].
    destruct (Q_within (log_scaled (1 # 6))) as [qb Hqb].
    exists (fun c => if (length c =? 4)%nat then [qb] else [qa]).
    unfold cv_descriptor. rewrite cv_compared_octagon_square.
    cbn [octagon square length Nat.eqb combine].
    constructor; [|constructor]. cbn [fst snd]. split; assumption.
  - intros invariants Hd.
    unfold cv_descriptor in Hd. rewrite cv_compared_octagon_square in Hd.
    inversion Hd as [|[a b] hh l l' [Ha Hb] Hnil Ecomb Ehh]; subst.
    inversion Hnil; subst. cbn [fst snd] in Ha, Hb.
    destruct (descriptor_scores a b Ha Hb) as [Hprog Hspec].
    assert (Hscore : (matchShapes_I3 invariants (octagon 10 0) (square 0 0 4)
                      < 23 # 1000)%Q).
    { unfold matchShapes_I3, I3_terms. rewrite <- Ecomb.
      cbn [map fold_left fst snd].
      destruct (Qgt_bool (I3_term a b) 0); [exact Hprog | reflexivity]. }
    assert (Hsel : selectable (fresh_window sample_shapes (Z.of_nat 1))).
    { apply fresh_window_selectable. vm_compute. lia. }
    destruct (step_ok invariants (fresh_window sample_shapes 1)
                (SetTolerances 20 (23 # 1000)) Hsel I) as (w' & Hrun & _).
    cbn [step] in Hrun. fold tight_shape_window in Hrun.
    exists w'. split; [exact Hrun|].
    pose proof Hrun as Hinv.
    apply getSimilarContours_inv in Hinv
      as (refSize & refCont & Hs & Hc & Hf & _).
    assert (Es : py_index (sizes tight_shape_window)
                          (selectedCont tight_shape_window) = Ok (32 # 2)%Q)
      by (vm_compute; reflexivity).
    assert (Ec : py_index (contours tight_shape_window)
                          (selectedCont tight_shape_window)
                 = Ok (square 0 0 4)) by (vm_compute; reflexivity).
    rewrite Es in Hs. injection Hs as <-.
    rewrite Ec in Hc. injection Hc as <-.
    split.
    + apply (shapeFilter_In _ _ _ _ _ _ Hf). split.
      * vm_compute. auto.
      * exists (octagon 10 0). split; [vm_compute; reflexivity|].
        rewrite tight_shape_window_tolerance. exact Hscore.
    + split; [exact Hscore|].
      unfold spec_score. rewrite <- Ecomb. cbn [map fold_left fst snd].
      intros Hlt.
      destruct (Qgt_bool (spec_term a b) 0) eqn:E.
      * apply (Qlt_not_le _ _ Hlt). exact Hspec.
      * unfold Qgt_bool in E. apply negb_false_iff, Qle_bool_iff in E.
        Lqa.lra.
Qed.

(** ** Manual overrides *)

Lemma appendContour_lists (w w' : Matcher) :
  closeInds w <> [] ->
  appendContour w = Ok w' ->
  closeInds w' = closeInds w /\
  closeIndsPlus w' =
    np_setdiff1d (np_union1d (closeInds w) (addConts w')) (removeConts w').
Proof.
  intros Hne. unfold appendContour.
  destruct (closeInds w) as [|k0 close] eqn:Hclose; [congruence|].
  cbv zeta. intros H. apply findCenters_lists in H. cbn in H.
  destruct H as (_ & _ & _ & Hc & Hplus & Hadd & Hrem & _).
  rewrite Hc, Hplus, Hadd, Hrem. auto.
Qed.

(** C5 (amended).  After every shift-click made while the matched set is not
    empty, and after every change of the tolerances, the effective set is
    [(matched U manuallyAdded) - manuallyRemoved]; a change of the tolerances
    empties [manuallyRemoved] and leaves [manuallyAdded] as it was.  On a
    window whose indices select extracted contours the operation returns. *)
Theorem set_algebra_after_operation
    (invariants : contour -> list Q) (w : Matcher) (o : Operation) :
  (is_click o = true -> closeInds w <> []) ->
  (forall w', step invariants w o = Ok w' ->
     set_algebra w' /\
     (is_click o = false ->
      removeConts w' = [] /\ addConts w' = addConts w)) /\
  (selectable w -> mouse_in_range w o ->
   exists w', step invariants w o = Ok w').
Proof.
  intros Hne. split.
  - intros w' H. destruct o as [k | s d]; cbn [step is_click] in *.
    + split; [|discriminate].
      apply appendContour_lists in H as [Hc Hplus]; [|now apply Hne].
      cbn in Hc. intros x.
      rewrite Hplus, np_setdiff1d_In, np_union1d_In, Hc. reflexivity.
    + apply getSimilarContours_inv in H
        as (_ & _ & _ & _ & _ & Hplus & Hadd & Hrem & _).
      cbn in Hadd. split; [|auto].
      intros x. rewrite Hplus, np_union1d_In, Hrem, Hadd. cbn. tauto.
  - intros Hsel Hmouse.
    destruct (step_ok invariants w o Hsel Hmouse) as (w' & Hw' & _). eauto.
Qed.

Lemma set_algebra_after_operation_witness :
  (is_click (ShiftClick 0) = true -> closeInds sample_matched <> []) /\
  step sample_invariants sample_matched (ShiftClick 0) = Ok sample_added /\
  set_algebra sample_added.
Proof.
  assert (Hne : is_click (ShiftClick 0) = true -> closeInds sample_matched <> [])
    by (intros _; vm_compute; discriminate).
  assert (Hstep : step sample_invariants sample_matched (ShiftClick 0)
                  = Ok sample_added) by (vm_compute; reflexivity).
  split; [exact Hne|]. split; [exact Hstep|].
  exact (proj1 (proj1 (set_algebra_after_operation sample_invariants
                         sample_matched (ShiftClick 0) Hne)
                      sample_added Hstep)).
Defined.

(** C5 as stated fails on a shift-click made while the matched set is
    empty.  With the shape tolerance at 0 nothing is matched and the
    effective set is the manually added contour 0; the next shift-click is
    redirected to [selectContour], which empties the three lists and leaves
    the effective set as it was. *)
Lemma shift_click_without_matches :
  exists w',
    run sample_invariants sample_window
        [SetTolerances 20 1; ShiftClick 0; SetTolerances 20 0; ShiftClick 3]
      = Ok w' /\
    closeInds w' = [] /\ addConts w' = [] /\ removeConts w' = [] /\
    closeIndsPlus w' = [0] /\
    ~ set_algebra w'.
Proof.
  eexists. split; [vm_compute; reflexivity|]. cbn.
  repeat (split; [reflexivity|]).
  intros H. destruct (H 0) as [H0 _]. cbn in H0.
  destruct H0 as [[[] | []] _]. now left.
Qed.

Lemma centroid_moment_nonzero_witness :
  contours sample_added = ex_contours (cvContour sample_found) /\
  closeIndsPlus sample_added = [0; 1; 2] /\
  addConts sample_added = [0] /\
  (forall ind c, py_index (contours sample_added) ind = Ok c ->
     (5 < m00 (moments c))%Q /\ ~ (m00 (moments c) == 0)%Q /\
     exists cx cy, py_div (m10 (moments c)) (m00 (moments c)) = Ok cx /\
                   py_div (m01 (moments c)) (m00 (moments c)) = Ok cy /\
                   centroid c = Ok (py_int cx, py_int cy, m00 (moments c))) /\
  findCenters sample_added <> Raise ZeroDivisionError /\
  exists w', findCenters sample_added = Ok w' /\
             centers w' = [(21, 1); (2, 2); (12, 2)] /\
             closeSizes w' = [18 # 2; 32 # 2; 32 # 2]%Q.
Proof.
  assert (E : contours sample_added = ex_contours (cvContour sample_found))
    by (vm_compute; reflexivity).
  split; [exact E|]. split; [reflexivity|]. split; [reflexivity|].
  destruct (centroid_moment_nonzero sample_found sample_added E) as [H1 H2].
  split; [exact H1|]. split; [exact H2|].
  eexists. split; [vm_compute; reflexivity|]. split; reflexivity.
Defined.

(** ** Morphology *)

Section MorphologyFacts.
Variable Mask : Type.
Variable dilate erode : Mask -> Z * Z -> Mask.

Let step := dilero_step Mask dilate erode.

Lemma dilero_step_shift (c : ascii) (text : string) (l : list nat)
    (st : MorphState Mask) :
  fold_left (step (String c text)) (map S l) st = fold_left (step text) l st.
Proof.
  revert st. induction l as [|i l IH]; intros st; simpl; [reflexivity|].
  apply IH.
Qed.

Lemma dilero_loop (text : string) (st : MorphState Mask) :
  fold_left (step text) (seq 0 (String.length text)) st =
  {| analyzed :=
       apply_ops Mask dilate erode (5, 5) (recorded_ops text) (analyzed _ st);
     dilateCounter :=
       dilateCounter _ st + count_ops is_dilate (recorded_ops text);
     erodeCounter :=
       erodeCounter _ st + count_ops is_erode (recorded_ops text) |}.
Proof.
  revert st. induction text as [|c text IH]; intros st.
  - destruct st. cbn. unfold count_ops. cbn. f_equal; lia.
  - cbn [String.length]. rewrite <- cons_seq, <- seq_shift.
    cbn [fold_left]. rewrite dilero_step_shift, IH.
    unfold step at 1 2 3, dilero_step. cbn [String.get recorded_ops].
    unfold count_ops, apply_ops.
    destruct (is_char "d" c) eqn:Ed; destruct (is_char "e" c) eqn:Ee;
      cbn [analyzed dilateCounter erodeCounter filter is_dilate is_erode
           fold_left apply_op length];
      try (f_equal; lia).
    unfold is_char in Ed, Ee.
    apply Ascii.eqb_eq in Ed. apply Ascii.eqb_eq in Ee. congruence.
Qed.
End MorphologyFacts.

(** X24.  [cvDilateErode] leaves in [analyzed] the mask obtained by applying
    the recorded operations, first to last, in the order of the letters of
    the code string, each called with the kernel argument [(5, 5)]; the two
    counters end at the numbers of recorded dilations and erosions.
    Any other letter records nothing. *)
Theorem cvDilateErode_applies_recorded_sequence
    (Mask : Type) (dilate erode : Mask -> Z * Z -> Mask)
    (text : string) (mask : Mask) :
  cvDilateErode Mask dilate erode text mask =
  {| analyzed :=
       apply_ops Mask dilate erode (5, 5) (recorded_ops text) mask;
     dilateCounter := count_ops is_dilate (recorded_ops text);
     erodeCounter := count_ops is_erode (recorded_ops text) |}.
Proof.
  unfold cvDilateErode. rewrite dilero_loop. reflexivity.
Qed.

(** * The structuring element *)

(** C7 (the program breaks it).  [cvDilateErode] passes the tuple [(5, 5)]
    where OpenCV expects the structuring element itself, and OpenCV reads
    it as an element of two rows and one column.  One recorded dilation of
    a mask with a single pixel set sets that pixel and the one below it,
    where a 5 by 5 element sets the whole 5 by 5 mask; one recorded erosion
    of a mask with a single pixel clear clears that pixel and the one below
    it, where a 5 by 5 element clears the whole mask.  The counters count
    the one operation. *)
Theorem structuring_element_is_not_5x5 :
  kernel_of_tuple (5, 5) = [[5]; [5]] /\
  kernel_offsets (kernel_of_tuple (5, 5)) = [(0, -1); (0, 0)] /\
  cvDilateErode Image dilate_tuple erode_tuple "d" dot_mask =
  {| analyzed := [[0; 0; 0; 0; 0];
                  [0; 0; 0; 0; 0];
                  [0; 0; 255; 0; 0];
                  [0; 0; 255; 0; 0];
                  [0; 0; 0; 0; 0]];
     dilateCounter := 1; erodeCounter := 0 |} /\
  cv_dilate dot_mask (np_ones 5 5) = repeat (repeat 255 5) 5 /\
  cvDilateErode Image dilate_tuple erode_tuple "e" hole_mask =
  {| analyzed := [[255; 255; 255; 255; 255];
                  [255; 255; 255; 255; 255];
                  [255; 255; 0; 255; 255];
                  [255; 255; 0; 255; 255];
                  [255; 255; 255; 255; 255]];
     dilateCounter := 0; erodeCounter := 1 |} /\
  cv_erode hole_mask (np_ones 5 5) = repeat (repeat 0 5) 5.
Proof. repeat split; vm_compute; reflexivity. Qed.

(** ** The CSV writer *)

Lemma hconcat_map {X} (f g : X -> list cell) (l : list X) :
  hconcat (map f l) (map g l) = Ok (map (fun x => f x ++ g x) l).
Proof.
  induction l as [|x l IH]; simpl; [reflexivity|].
  rewrite IH. reflexivity.
Qed.

Lemma combine_fst {A B} (a : list A) (b : list B) :
  length a = length b -> map fst (combine a b) = a.
Proof.
  revert b. induction a as [|x a IH]; intros [|y b]; simpl; try discriminate;
    [reflexivity|].
  intros [= H]. now rewrite IH.
Qed.

Lemma combine_snd {A B} (a : list A) (b : list B) :
  length a = length b -> map snd (combine a b) = b.
Proof.
  revert b. induction a as [|x a IH]; intros [|y b]; simpl; try discriminate;
    [reflexivity|].
  intros [= H]. now rewrite IH.
Qed.

Lemma dot_gray (v : Vec3) : dot v RGB2grayscale_weights = gray_of v.
Proof.
  unfold dot, gray_of, RGB2grayscale_weights, ch0, ch1, ch2. cbn [fst snd].
  ring.
Qed.

Lemma dot_std_gray (v : Vec3) :
  sqrt (dot (squared v) (squared RGB2grayscale_weights)) = std_gray_of v.
Proof.
  unfold dot, squared, std_gray_of, RGB2grayscale_weights, ch0, ch1, ch2.
  cbn [fst snd]. f_equal. ring.
Qed.

(** With the RGB group enabled and one sample per label, [saveColors]
    writes the rows [csv_row 1 ..], [csv_row 2 ..], ... *)
Lemma saveColors_rows (n : nat) (saveHSV saveLAB : bool)
    (samples : list ColorSample) :
  length samples = n ->
  exists hdr,
    saveColors n true saveHSV saveLAB samples =
    Ok {| header := hdr;
          rows := map (fun z => csv_row saveHSV saveLAB (fst z) (snd z))
                      (combine (seq 1 n) samples) |}.
Proof.
  intros Hlen.
  assert (Hl : length (seq 1 n) = length samples)
    by now rewrite length_seq.
  set (zs := combine (seq 1 n) samples).
  assert (Hids : seq 1 n = map fst zs) by (symmetry; now apply combine_fst).
  assert (Hsam : samples = map snd zs) by (symmetry; now apply combine_snd).
  unfold saveColors. cbv zeta.
  rewrite Hids, Hsam.
  unfold bind, local. cbv beta iota.
  repeat (rewrite ?map_map, hconcat_map; cbv beta iota).
  destruct saveHSV, saveLAB;
    repeat (rewrite ?map_map, hconcat_map; cbv beta iota);
    eexists; f_equal; f_equal; apply map_ext; intros [i c]; cbn [fst snd];
    unfold csv_row, hsv_cells, cells3; cbn [ch0 ch1 ch2 fst snd app];
    rewrite ?dot_gray, ?dot_std_gray; repeat rewrite <- app_assoc;
    reflexivity.
Qed.

(** C1 (the program breaks it).  With the RGB toggle off, [saveColors] stops
    at the grayscale computation with [UnboundLocalError], whatever the
    samples and the other toggles are: [rgb] and [std_rgb] are only bound
    inside the RGB branch.  No CSV is written. *)
Theorem grayscale_needs_rgb_toggle (n : nat) (saveHSV saveLAB : bool)
    (samples : list ColorSample) :
  saveColors n false saveHSV saveLAB samples = Raise UnboundLocalError.
Proof. reflexivity. Qed.

(** ** The analysis run *)

Lemma argmax_from_bound (l : list Q) (best : Q) (bi i : nat) :
  (bi < i)%nat -> (argmax_from best bi i l < i + length l)%nat.
Proof.
  revert best bi i. induction l as [|x l IH]; intros best bi i Hb; simpl.
  - lia.
  - destruct (Qgt_bool x best).
    + specialize (IH x i (S i)). lia.
    + specialize (IH best bi (S i)). lia.
Qed.

Lemma np_argmax_ok (l : list Q) :
  l <> [] -> exists k, np_argmax l = Ok k /\ (k < length l)%nat.
Proof.
  destruct l as [|x l]; [congruence|]. intros _.
  eexists. split; [reflexivity|].
  pose proof (argmax_from_bound l x 0 1). simpl. lia.
Qed.

Lemma py_index_nat {A} (l : list A) (i : nat) (a : A) :
  nth_error l i = Some a -> py_index l (Z.of_nat i) = Ok a.
Proof.
  intros H. unfold py_index.
  assert (Hi : (i < length l)%nat) by (apply nth_error_Some; congruence).
  replace (Z.of_nat i <? 0) with false by (symmetry; apply Z.ltb_ge; lia).
  replace ((0 <=? Z.of_nat i) && (Z.of_nat i <? Z.of_nat (length l)))
    with true.
  - now rewrite Nat2Z.id, H.
  - symmetry. apply andb_true_iff.
    split; [apply Z.leb_le | apply Z.ltb_lt]; lia.
Qed.

Lemma py_index_nat_inv {A} (l : list A) (i : nat) (a : A) :
  py_index l (Z.of_nat i) = Ok a -> nth_error l i = Some a.
Proof.
  unfold py_index.
  replace (Z.of_nat i <? 0) with false by (symmetry; apply Z.ltb_ge; lia).
  destruct (_ && _); [|discriminate].
  rewrite Nat2Z.id. destruct (nth_error l i); congruence.
Qed.

Lemma nth_error_ok {A} (l : list A) (i : nat) :
  (i < length l)%nat -> exists a, nth_error l i = Some a.
Proof.
  intros H. destruct (nth_error l i) eqn:E; [eauto|].
  apply nth_error_None in E. lia.
Qed.

Lemma np_take_ok {A} (idx : list nat) (a : list A) :
  (forall i, In i idx -> (i < length a)%nat) ->
  exists out, np_take idx a = Ok out /\ length out = length idx.
Proof.
  intros H. unfold np_take. apply mapM_ok.
  intros i Hi. destruct (nth_error_ok a i (H i Hi)) as [v ->]. eauto.
Qed.

Lemma np_take_In {A} (idx : list nat) (a out : list A) (x : A) :
  np_take idx a = Ok out -> In x out -> In x a.
Proof.
  unfold np_take. intros H Hx. apply mapM_Forall2 in H.
  induction H as [|i v idx out Hv H IH]; [destruct Hx|].
  destruct Hx as [<- | Hx]; [|auto].
  destruct (nth_error a i) eqn:E; [|discriminate].
  injection Hv as <-. eapply nth_error_In; eauto.
Qed.


Lemma np_lexsort_perm (xs ys : list Z) :
  Permutation (np_lexsort xs ys) (seq 0 (length ys)).
Proof. apply sort_by_perm. Qed.

Lemma combine_fst_snd {A B} (l : list (A * B)) :
  combine (map fst l) (map snd l) = l.
Proof.
  induction l as [|[a b] l IH]; simpl; [reflexivity|]. now rewrite IH.
Qed.

Lemma reading_order_trans (cs : list (Z * Z)) (i j k : nat) :
  reading_order cs i j -> reading_order cs j k -> reading_order cs i k.
Proof. unfold reading_order. cbv zeta. lia. Qed.

Lemma np_lexsort_sorted (cs : list (Z * Z)) :
  StronglySorted (reading_order cs)
                 (np_lexsort (map fst cs) (map snd cs)).
Proof.
  unfold np_lexsort. rewrite combine_fst_snd.
  apply sort_by_sorted with (pre := Nat.lt).
  - apply reading_order_trans.
  - intros i j Hij. unfold lex_leb, reading_order. cbv zeta.
    rewrite orb_true_iff, andb_true_iff, Z.ltb_lt, Z.eqb_eq, Z.leb_le. lia.
  - intros i j. unfold lex_leb, reading_order. cbv zeta.
    rewrite orb_false_iff, andb_false_iff, Z.ltb_ge, Z.eqb_neq, Z.leb_gt. lia.
  - apply StronglySorted_seq.
Qed.

Lemma sort_inds_range {Mask} (s : Session Mask) (i : nat) :
  In i (sort_inds_of s) <-> (i < length (centers (win s)))%nat.
Proof.
  unfold sort_inds_of. split; intros H.
  - eapply Permutation_in in H; [|apply np_lexsort_perm].
    apply in_seq in H. rewrite length_map in H. lia.
  - eapply Permutation_in; [symmetry; apply np_lexsort_perm|].
    apply in_seq. rewrite length_map. lia.
Qed.

Lemma sort_inds_length {Mask} (s : Session Mask) :
  length (sort_inds_of s) = length (centers (win s)).
Proof.
  unfold sort_inds_of.
  rewrite (Permutation_length (np_lexsort_perm _ _)).
  now rewrite length_seq, length_map.
Qed.

Section AnalysisFacts.
Variable Mask : Type.
Variable contourZone : contour -> ZoneCrop.
Variable refinedZone : Mask -> Z * Z -> ZoneCrop.

Lemma zoneOf_ok (cs : list contour) (plus : list Z)
    (rmasks : list Mask) (rcenters : list (Z * Z)) (i : nat) :
  (i < length plus)%nat ->
  (forall k, In k plus -> in_range (length cs) k) ->
  (rmasks = [] \/
   (length rmasks = length plus /\ length rcenters = length plus)) ->
  exists z, zoneOf Mask contourZone refinedZone cs plus rmasks rcenters i
            = Ok z.
Proof.
  intros Hi Hidx Href. unfold zoneOf.
  destruct (nth_error_ok plus i Hi) as [ind Hind].
  rewrite (py_index_nat _ _ _ Hind). cbn [bind].
  destruct (py_index_ok cs ind) as [c ->].
  { apply Hidx. eapply nth_error_In; eauto. }
  cbn [bind].
  destruct Href as [-> | [Hm Hc]]; [cbn; eauto|].
  destruct (is_nil rmasks); [eauto|].
  destruct (nth_error_ok rmasks i) as [m Hm']; [lia|].
  destruct (nth_error_ok rcenters i) as [ctr Hc']; [lia|].
  rewrite (py_index_nat _ _ _ Hm'), (py_index_nat _ _ _ Hc').
  cbn [bind]. eauto.
Qed.


(** On a samplable session the run reaches the CSV writer: the four arrays
    are taken at the same index array, one zone is cut out per position, and
    the run returns what [saveColors] returns on the samples of the
    zones. *)
Lemma analyzeContours_sampled (s : Session Mask) :
  samplable s ->
  exists plus cents rmasks rcenters zones,
    np_take (sort_inds_of s) (closeIndsPlus (win s)) = Ok plus /\
    np_take (sort_inds_of s) (centers (win s)) = Ok cents /\
    ((refinedMasks s = [] /\
      rmasks = refinedMasks s /\ rcenters = refinedCenters s) \/
     (refinedMasks s <> [] /\
      np_take (sort_inds_of s) (refinedMasks s) = Ok rmasks /\
      np_take (sort_inds_of s) (refinedCenters s) = Ok rcenters)) /\
    mapM (zoneOf Mask contourZone refinedZone
            (contours (win s)) plus rmasks rcenters)
         (seq 0 (length plus)) = Ok zones /\
    length plus = length (closeIndsPlus (win s)) /\
    length zones = length plus /\
    analyzeContours Mask contourZone refinedZone s =
    (csv <- saveColors (length plus) (V_saveRGB s) (V_saveHSV s) (V_saveLAB s)
                       (map sampleZone zones) ;;
     Ok (reordered s plus cents rmasks rcenters, csv)).
Proof.
  unfold samplable. cbv zeta.
  intros (Hne & Hcen & Hsz & Hidx & Href).
  set (w := win s) in *.
  set (p := sort_inds_of s).
  assert (Hp : forall i, In i p -> (i < length (closeIndsPlus w))%nat).
  { intros i Hi. apply sort_inds_range in Hi. fold w in Hi. lia. }
  assert (Hplen : length p = length (closeIndsPlus w)).
  { unfold p. rewrite sort_inds_length. exact Hcen. }
  (* the largest zone *)
  destruct (np_argmax_ok (closeSizes w)) as (k & Hk & Hklt).
  { intros E. apply Hne. apply length_zero_iff_nil.
    rewrite <- Hsz, E. reflexivity. }
  destruct (nth_error_ok (closeIndsPlus w) k) as [largest Hl]; [lia|].
  destruct (py_index_ok (contours w) largest) as [lc Hlc].
  { apply Hidx. eapply nth_error_In; eauto. }
  (* the reordered arrays *)
  destruct (np_take_ok p (closeIndsPlus w) Hp) as (plus & Hplus & Hpl).
  destruct (np_take_ok p (centers w)) as (cents & Hcents & _).
  { intros i Hi. rewrite Hcen. auto. }
  assert (Hrm : exists rmasks rcenters,
    (if is_nil (refinedMasks s) then Ok (refinedMasks s)
     else np_take p (refinedMasks s)) = Ok rmasks /\
    (if is_nil (refinedMasks s) then Ok (refinedCenters s)
     else np_take p (refinedCenters s)) = Ok rcenters /\
    ((refinedMasks s = [] /\
      rmasks = refinedMasks s /\ rcenters = refinedCenters s) \/
     (refinedMasks s <> [] /\
      np_take p (refinedMasks s) = Ok rmasks /\
      np_take p (refinedCenters s) = Ok rcenters)) /\
    (rmasks = [] \/
     (length rmasks = length plus /\ length rcenters = length plus))).
  { destruct (refinedMasks s) as [|m ms] eqn:Em.
    - exists [], (refinedCenters s). cbn. auto 10.
    - destruct Href as [Href | [Hm Hc]]; [discriminate|].
      destruct (np_take_ok p (m :: ms)) as (rmasks & Hr1 & Hr1l).
      { intros i Hi. rewrite Hm. auto. }
      destruct (np_take_ok p (refinedCenters s)) as (rcenters & Hr2 & Hr2l).
      { intros i Hi. rewrite Hc. auto. }
      exists rmasks, rcenters. cbn [is_nil].
      split; [exact Hr1|]. split; [exact Hr2|]. split.
      + right. split; [discriminate | auto].
      + right. lia. }
  destruct Hrm as (rmasks & rcenters & Hr1 & Hr2 & Hcase & Hshape).
  (* the zones *)
  destruct (mapM_ok
    (zoneOf Mask contourZone refinedZone (contours w) plus rmasks rcenters)
    (seq 0 (length plus))) as (zones & Hzones & Hzl).
  { intros i Hi. apply in_seq in Hi. apply zoneOf_ok; [lia | | exact Hshape].
    intros ind Hind. apply Hidx. eapply np_take_In; eauto. }
  rewrite length_seq in Hzl.
  exists plus, cents, rmasks, rcenters, zones.
  split; [exact Hplus|]. split; [exact Hcents|]. split; [exact Hcase|].
  split; [exact Hzones|]. split; [lia|]. split; [exact Hzl|].
  unfold analyzeContours. cbv zeta. fold w. fold p.
  rewrite Hk. cbn [bind].
  rewrite (py_index_nat _ _ _ Hl). cbn [bind].
  rewrite Hlc. cbn [bind].
  rewrite Hplus. cbn [bind].
  rewrite Hcents. cbn [bind].
  rewrite Hr1. cbn [bind].
  rewrite Hr2. cbn [bind].
  rewrite Hzones. cbn [bind].
  replace (length (closeIndsPlus w) - length plus)%nat with 0%nat by lia.
  cbn [repeat]. rewrite app_nil_r. reflexivity.
Qed.

Lemma analyzable_samplable (s : Session Mask) :
  analyzable s -> samplable s /\ V_saveRGB s = true.
Proof.
  unfold analyzable, samplable. cbv zeta.
  intros (H1 & H2 & H3 & H4 & H5 & H6). auto 10.
Qed.

(** On an analyzable session the run goes through: the four arrays are
    taken at the same index array, one zone is cut out per position, and
    the CSV has the row of zone [k] at position [k], numbered [k + 1]. *)
Lemma analyzeContours_ok (s : Session Mask) :
  analyzable s ->
  exists plus cents rmasks rcenters zones hdr,
    np_take (sort_inds_of s) (closeIndsPlus (win s)) = Ok plus /\
    np_take (sort_inds_of s) (centers (win s)) = Ok cents /\
    ((refinedMasks s = [] /\
      rmasks = refinedMasks s /\ rcenters = refinedCenters s) \/
     (refinedMasks s <> [] /\
      np_take (sort_inds_of s) (refinedMasks s) = Ok rmasks /\
      np_take (sort_inds_of s) (refinedCenters s) = Ok rcenters)) /\
    mapM (zoneOf Mask contourZone refinedZone
            (contours (win s)) plus rmasks rcenters)
         (seq 0 (length plus)) = Ok zones /\
    length plus = length (closeIndsPlus (win s)) /\
    length zones = length plus /\
    analyzeContours Mask contourZone refinedZone s =
    Ok (reordered s plus cents rmasks rcenters,
        {| header := hdr;
           rows := map (fun z => csv_row (V_saveHSV s) (V_saveLAB s)
                                         (fst z) (snd z))
                       (combine (seq 1 (length plus))
                                (map sampleZone zones)) |}).
Proof.
  intros Hs. apply analyzable_samplable in Hs as [Hs Hrgb].
  destruct (analyzeContours_sampled s Hs)
    as (plus & cents & rmasks & rcenters & zones &
        Hplus & Hcents & Hcase & Hzones & Hlen & Hzl & Hrun).
  destruct (saveColors_rows (length plus) (V_saveHSV s) (V_saveLAB s)
              (map sampleZone zones)) as [hdr Hcsv].
  { now rewrite length_map. }
  exists plus, cents, rmasks, rcenters, zones, hdr.
  split; [exact Hplus|]. split; [exact Hcents|]. split; [exact Hcase|].
  split; [exact Hzones|]. split; [exact Hlen|]. split; [exact Hzl|].
  rewrite Hrun, Hrgb, Hcsv. reflexivity.
Qed.
End AnalysisFacts.

Lemma mapM_nth {A B} (f : A -> result B) (l : list A) (ys : list B)
    (k : nat) (x : A) :
  mapM f l = Ok ys -> nth_error l k = Some x ->
  exists y, f x = Ok y /\ nth_error ys k = Some y.
Proof.
  intros H. apply mapM_Forall2 in H.
  revert k. induction H as [|x' y l ys Hxy H IH]; intros k Hk.
  - destruct k; discriminate.
  - destruct k as [|k]; simpl in Hk |- *.
    + injection Hk as ->. eauto.
    + apply IH, Hk.
Qed.

Lemma nth_error_seq_lt (start len k : nat) :
  (k < len)%nat -> nth_error (seq start len) k = Some (start + k)%nat.
Proof.
  intros H. rewrite (nth_error_nth' _ 0%nat) by now rewrite length_seq.
  now rewrite seq_nth.
Qed.

Lemma nth_error_combine {A B} (a : list A) (b : list B) (k : nat) x y :
  nth_error a k = Some x -> nth_error b k = Some y ->
  nth_error (combine a b) k = Some (x, y).
Proof.
  revert a b. induction k as [|k IH]; intros [|x' a] [|y' b]; simpl;
    try discriminate.
  - now intros [= ->] [= ->].
  - apply IH.
Qed.

(** An order on positions that the index array respects is respected by the
    array taken at it. *)
Lemma np_take_sorted {A} (R : nat -> nat -> Prop) (R' : A -> A -> Prop)
    (idx : list nat) (a out : list A) :
  (forall i j x y, R i j -> nth_error a i = Some x -> nth_error a j = Some y ->
                   R' x y) ->
  np_take idx a = Ok out -> StronglySorted R idx -> StronglySorted R' out.
Proof.
  intros HR H. unfold np_take in H. apply mapM_Forall2 in H.
  induction H as [|i x idx out Hx H IH]; intros Hs; [constructor|].
  inversion Hs as [|? ? Hs' Hi]; subst.
  constructor; [auto|].
  destruct (nth_error a i) eqn:Ei; [|discriminate]. injection Hx as <-.
  rewrite Forall_forall in Hi |- *.
  clear IH Hs Hs'. induction H as [|j y idx out Hy H IH]; intros z Hz;
    [destruct Hz|].
  destruct (nth_error a j) eqn:Ej; [|discriminate]. injection Hy as <-.
  destruct Hz as [<- | Hz].
  - eapply HR; eauto. apply Hi. now left.
  - apply IH; [|exact Hz]. intros j' Hj'. apply Hi. now right.
Qed.



Lemma sample_session_analyzable : analyzable sample_session.
Proof.
  unfold analyzable. cbn.
  split; [discriminate|]. split; [reflexivity|]. split; [reflexivity|].
  split.
  - intros k [<- | [<- | [<- | []]]]; unfold in_range; cbn; lia.
  - split; [right; split; reflexivity | reflexivity].
Defined.




(** ** Empty zones *)





(** ** Grayscale columns *)

Lemma mean_single (x : R) : mean [x] = x.
Proof. unfold mean, Rsum. cbn. field. Qed.

Lemma std_single (x : R) : std [x] = 0%R.
Proof.
  unfold std. cbn [map]. rewrite !mean_single.
  replace ((x - x) * (x - x))%R with 0%R by ring.
  apply sqrt_0.
Qed.

Lemma single_pixel_sample (z : ZoneCrop) (b g r : R) :
  included (crop_im z) (crop_mask z) = [(b, g, r)] ->
  avcolorRGB (sampleZone z) = (r, g, b) /\
  stdRGB (sampleZone z) = (0, 0, 0)%R.
Proof.
  intros H. unfold sampleZone, getAvColor. cbn [avcolorRGB stdRGB fst snd ma_data].
  rewrite H. unfold mean3, std3, reversed, ch0, ch1, ch2.
  cbn [map fst snd]. rewrite !mean_single, !std_single. auto.
Qed.

Lemma filter_mask_none {A} (l : list A) (m : list Z) :
  ~ In 255 m ->
  filter (fun pm : A * Z => (snd pm =? 255)%Z) (combine l m) = [].
Proof.
  revert l. induction m as [|x m IH]; intros l Hm.
  - destruct l; reflexivity.
  - destruct l as [|a l]; [reflexivity|]. cbn [combine filter snd].
    destruct (x =? 255)%Z eqn:E.
    + apply Z.eqb_eq in E. subst. exfalso. apply Hm. now left.
    + apply IH. intros H. apply Hm. now right.
Qed.

(** A mask set at one pixel only keeps that pixel. *)
Lemma included_one_pixel (pre post : list Vec3) (mpre mpost : list Z)
    (p : Vec3) :
  length pre = length mpre -> ~ In 255 mpre -> ~ In 255 mpost ->
  included (pre ++ p :: post) (mpre ++ 255 :: mpost)%Z = [p].
Proof.
  intros Hlen Hpre Hpost. unfold included.
  revert mpre Hlen Hpre. induction pre as [|a pre IH]; intros mpre Hlen Hpre.
  - destruct mpre; [|discriminate]. cbn [app combine filter snd Z.eqb Pos.eqb map].
    rewrite (filter_mask_none post mpost Hpost). reflexivity.
  - destruct mpre as [|x mpre]; [discriminate|]. injection Hlen as Hlen.
    cbn [app combine filter snd].
    destruct (x =? 255)%Z eqn:E.
    + apply Z.eqb_eq in E. subst. exfalso. apply Hpre. now left.
    + apply IH; [exact Hlen|]. intros H. apply Hpre. now right.
Qed.

(** C9.  With the RGB group enabled, [saveColors] writes for every zone a
    row whose Gray cell is [0.299 R + 0.587 G + 0.114 B] of the zone's mean
    RGB and whose std Gray cell is
    [sqrt ((0.299 stdR)^2 + (0.587 stdG)^2 + (0.114 stdB)^2)] of its RGB
    standard deviations.  For a zone whose mask is set (255) at one pixel
    only, stored as [(B, G, R)], the mean RGB is [(R, G, B)] and the
    deviations are 0, so Gray is [0.299 R + 0.587 G + 0.114 B] and std Gray
    is 0. *)
Theorem gray_columns (n : nat) (saveHSV saveLAB : bool)
    (samples : list ColorSample) :
  length samples = n ->
  (exists csv,
     saveColors n true saveHSV saveLAB samples = Ok csv /\
     forall k c, nth_error samples k = Some c ->
       exists row,
         nth_error (rows csv) k = Some row /\
         nth_error row 0 = Some (CId (S k)) /\
         nth_error row 8 =
           Some (CNum (0.299 * ch0 (avcolorRGB c) + 0.587 * ch1 (avcolorRGB c)
                       + 0.114 * ch2 (avcolorRGB c))%R) /\
         nth_error row 9 =
           Some (CNum (sqrt ((0.299 * ch0 (stdRGB c)) * (0.299 * ch0 (stdRGB c))
                             + (0.587 * ch1 (stdRGB c)) * (0.587 * ch1 (stdRGB c))
                             + (0.114 * ch2 (stdRGB c)) * (0.114 * ch2 (stdRGB c)))%R))) /\
  (forall z pre post mpre mpost b g r,
     crop_im z = pre ++ (b, g, r) :: post ->
     crop_mask z = (mpre ++ 255 :: mpost)%Z ->
     length pre = length mpre -> ~ In 255%Z mpre -> ~ In 255%Z mpost ->
     avcolorRGB (sampleZone z) = (r, g, b) /\
     stdRGB (sampleZone z) = (0, 0, 0)%R /\
     gray_of (avcolorRGB (sampleZone z)) = (0.299 * r + 0.587 * g + 0.114 * b)%R /\
     std_gray_of (stdRGB (sampleZone z)) = 0%R).
Proof.
  intros Hlen. split.
  - destruct (saveColors_rows n saveHSV saveLAB samples Hlen) as [hdr Hcsv].
    eexists. split; [exact Hcsv|].
    intros k c Hk. cbn [rows].
    assert (Hkn : (k < n)%nat).
    { rewrite <- Hlen. apply nth_error_Some. congruence. }
    exists (csv_row saveHSV saveLAB (S k) c). split.
    + rewrite nth_error_map.
      rewrite (nth_error_combine _ _ k (S k) c); [reflexivity | | exact Hk].
      now rewrite nth_error_seq_lt.
    + unfold csv_row, cells3. cbn. auto.
  - intros z pre post mpre mpost b g r Him Hmask Hl Hpre Hpost.
    assert (H : included (crop_im z) (crop_mask z) = [(b, g, r)]).
    { rewrite Him, Hmask. now apply included_one_pixel. }
    destruct (single_pixel_sample z b g r H) as [Ea Es].
    split; [exact Ea|]. split; [exact Es|]. rewrite Ea, Es.
    unfold gray_of, std_gray_of, ch0, ch1, ch2. cbn [fst snd]. split.
    + reflexivity.
    + replace (0.299 * 0 * (0.299 * 0) + 0.587 * 0 * (0.587 * 0)
               + 0.114 * 0 * (0.114 * 0))%R with 0%R by ring.
      apply sqrt_0.
Qed.

Lemma gray_columns_witness :
  length [sampleZone one_pixel_zone] = 1%nat /\
  exists csv row,
    saveColors 1 true false false [sampleZone one_pixel_zone] = Ok csv /\
    nth_error (rows csv) 0 = Some row /\
    nth_error row 8 = Some (CNum 21.85%R) /\
    nth_error row 9 = Some (CNum 0%R).
Proof.
  split; [reflexivity|].
  destruct (gray_columns 1 false false [sampleZone one_pixel_zone] eq_refl)
    as [(csv & Hcsv & Hrows) Hone].
  destruct (Hrows 0%nat _ eq_refl) as (row & Hr & _ & H8 & H9).
  destruct (Hone one_pixel_zone [(1, 2, 3)%R] [] [0%Z] [] 10%R 20%R 30%R
              eq_refl eq_refl eq_refl)
    as (Ea & Es & _).
  - intros [H | []]. discriminate H.
  - intros [].
  - exists csv, row. split; [exact Hcsv|]. split; [exact Hr|].
    rewrite Ea in H8. rewrite Es in H9.
    unfold ch0, ch1, ch2 in H8, H9. cbn [fst snd] in H8, H9.
    split.
    + rewrite H8. do 2 f_equal. lra.
    + rewrite H9. do 2 f_equal.
      replace (0.299 * 0 * (0.299 * 0) + 0.587 * 0 * (0.587 * 0)
               + 0.114 * 0 * (0.114 * 0))%R with 0%R by ring.
      apply sqrt_0.
Defined.

(** ** Worked examples *)

(** The speck of area 1 is dropped and the four pads come out by ascending
    area. *)
Example cvContour_sample :
  cvContour sample_found =
  {| ex_contours := [square 20 0 3; square 0 0 4; square 10 0 4; square 30 0 10];
     ex_sizes := [18 # 2; 32 # 2; 32 # 2; 200 # 2]%Q |}.
Proof. reflexivity. Qed.

(** The size test is relative to the reference: at 20 %, an area of 125 is
    not close to the reference 100, while 100 is close to the reference
    125. *)
Example sizeFilter_asymmetric :
  let small := contourArea (square 0 0 10) in
  let large := contourArea [(0, 0); (25, 0); (25, 5); (0, 5)] in
  let s := np_round (np_clip 20 0 100) 1 in
  sizeFilter [small; large] small s = [0] /\
  sizeFilter [small; large] large s = [0; 1].
Proof. split; reflexivity. Qed.

(** Three presses (dilate, erode, dilate) around a letter that is neither:
    the operators run in that order, each with [(5, 5)]. *)
Example cvDilateErode_sample :
  cvDilateErode (list (string * (Z * Z)))
                (fun m k => m ++ [("dilate"%string, k)])
                (fun m k => m ++ [("erode"%string, k)])
                "dexd" [] =
  {| analyzed := [("dilate"%string, (5, 5)); ("erode"%string, (5, 5));
                  ("dilate"%string, (5, 5))];
     dilateCounter := 2;
     erodeCounter := 1 |}.
Proof. reflexivity. Qed.

(** A shift-click on an unmatched contour adds it; a second one takes it
    away again. *)
Example shift_click_toggles :
  exists w1 w2,
    step sample_invariants sample_matched (ShiftClick 0) = Ok w1 /\
    step sample_invariants w1 (ShiftClick 0) = Ok w2 /\
    addConts w1 = [0] /\ closeIndsPlus w1 = [0; 1; 2] /\
    addConts w2 = [] /\ closeIndsPlus w2 = [1; 2].
Proof.
  eexists. eexists.
  split; [vm_compute; reflexivity|].
  split; [vm_compute; reflexivity|].
  repeat split.
Qed.

(** * Further properties of the matcher *)

Lemma np_clip_bounds (x lo hi : Q) :
  (lo <= hi)%Q -> (lo <= np_clip x lo hi /\ np_clip x lo hi <= hi)%Q.
Proof.
  intros Hlh. unfold np_clip.
  destruct (Qle_bool lo x) eqn:E1.
  - apply Qle_bool_iff in E1.
    destruct (Qle_bool x hi) eqn:E2.
    + apply Qle_bool_iff in E2. auto.
    + split; [exact Hlh | apply Qle_refl].
  - destruct (Qle_bool lo hi) eqn:E2.
    + split; [apply Qle_refl | exact Hlh].
    + split; [exact Hlh | apply Qle_refl].
Qed.

Lemma round_half_even_nonneg (x : Q) : (0 <= x)%Q -> 0 <= round_half_even x.
Proof.
  intros Hx. unfold round_half_even.
  assert (Hf : 0 <= Qfloor x).
  { change 0 with (Qfloor 0). now apply Qfloor_resp_le. }
  destruct (Qcompare _ _); [destruct (Z.even _)| |]; lia.
Qed.

Lemma np_round_nonneg (x : Q) (decimals : nat) :
  (0 <= x)%Q -> (0 <= np_round x decimals)%Q.
Proof.
  intros Hx. unfold np_round. destruct decimals as [|d].
  - change 0%Q with (inject_Z 0). rewrite <- Zle_Qle.
    now apply round_half_even_nonneg.
  - unfold Qle. cbn [Qnum Qden]. rewrite Z.mul_1_r. cbn.
    apply round_half_even_nonneg.
    apply Qmult_le_0_compat; [exact Hx | discriminate].
Qed.

Lemma tolerance_nonneg (x hi : Q) (decimals : nat) :
  (0 <= hi)%Q -> (0 <= np_round (np_clip x 0 hi) decimals)%Q.
Proof.
  intros Hhi. apply np_round_nonneg. now apply np_clip_bounds.
Qed.

Lemma matchShapes_I3_nonneg invariants (A B : contour) :
  (0 <= matchShapes_I3 invariants A B)%Q.
Proof.
  destruct (running_max (I3_terms invariants A B) 0) as (H & _). exact H.
Qed.

Lemma matchShapes_I3_same invariants (c : contour) :
  (matchShapes_I3 invariants c c == 0)%Q.
Proof.
  destruct (running_max (I3_terms invariants c c) 0) as (_ & _ & Hin).
  fold (matchShapes_I3 invariants c c) in Hin.
  destruct Hin as [-> | Hin]; [reflexivity|].
  unfold I3_terms in Hin. apply in_map_iff in Hin as ([a b] & E & Hab).
  apply combine_same_In in Hab. cbn in Hab. subst b.
  rewrite <- E. apply I3_term_same.
Qed.

Lemma np_isclose_same (a rtol : Q) :
  (0 <= rtol)%Q -> np_isclose a a rtol default_atol = true.
Proof.
  intros H. unfold np_isclose. apply Qle_bool_iff.
  assert (E : (a - a == 0)%Q) by ring. rewrite E. cbn [Qabs].
  change (Qabs 0) with 0%Q.
  apply Qle_trans with (0 + 0)%Q; [discriminate|].
  apply Qplus_le_compat; [discriminate|].
  apply Qmult_le_0_compat; [exact H | apply Qabs_nonneg].
Qed.


(** X1.  The shape test is strict and the score is never negative: with the
    shape tolerance at 0 nothing is matched, not even the reference, and with
    any positive tolerance the reference contour is matched. *)
Theorem reference_matched_iff_tolerance_positive
    (invariants : contour -> list Q) (w w' : Matcher) (r : nat) :
  getSimilarContours invariants w = Ok w' ->
  selectedCont w = Z.of_nat r ->
  let d := np_round (np_clip (V_shapeTol w) 0 2) 3 in
  (0 <= d)%Q /\
  ((0 < d)%Q -> In (Z.of_nat r) (closeInds w')) /\
  (~ (0 < d)%Q -> closeInds w' = []).
Proof.
  intros H Hsel. cbv zeta.
  apply getSimilarContours_inv in H
    as (refSize & refCont & Hs & Hc & Hf & _).
  rewrite Hsel in Hs, Hc.
  split; [apply tolerance_nonneg; discriminate|]. split.
  - intros Hd. apply (shapeFilter_In _ _ _ _ _ _ Hf). split.
    + apply sizeFilter_In. apply py_index_nat_inv in Hs. split.
      * apply nth_error_Some. congruence.
      * rewrite (nth_error_nth _ _ _ Hs). apply np_isclose_same.
        unfold Qdiv. apply Qmult_le_0_compat; [|discriminate].
        apply tolerance_nonneg. discriminate.
    + exists refCont. split; [exact Hc|].
      now rewrite matchShapes_I3_same.
  - intros Hd. destruct (closeInds w') as [|i kept] eqn:E; [reflexivity|].
    exfalso.
    assert (Hi : In i (i :: kept)) by now left.
    apply (shapeFilter_In _ _ _ _ _ _ Hf) in Hi as (_ & c & _ & Hlt).
    apply Hd. eapply Qle_lt_trans; [|exact Hlt].
    apply matchShapes_I3_nonneg.
Qed.

Lemma reference_matched_iff_tolerance_positive_witness :
  getSimilarContours sample_invariants sample_shape_window
    = Ok sample_shape_matched /\
  selectedCont sample_shape_window = Z.of_nat 1 /\
  In (Z.of_nat 1) (closeInds sample_shape_matched).
Proof.
  assert (H1 : getSimilarContours sample_invariants sample_shape_window
               = Ok sample_shape_matched) by (vm_compute; reflexivity).
  assert (H2 : selectedCont sample_shape_window = Z.of_nat 1) by reflexivity.
  split; [exact H1|]. split; [exact H2|].
  apply (reference_matched_iff_tolerance_positive sample_invariants
           sample_shape_window sample_shape_matched 1 H1 H2).
  reflexivity.
Defined.

(** ** Shift-clicks as toggles *)

Lemma py_remove_NoDup_In (x y : Z) (l : list Z) :
  NoDup l -> (In y (py_remove x l) <-> In y l /\ y <> x).
Proof.
  induction 1 as [|z l Hz Hl IH]; simpl; [tauto|].
  destruct (x =? z) eqn:E.
  - apply Z.eqb_eq in E. subst z. split.
    + intros Hy. split; [now right | intros ->; contradiction].
    + intros [[<- | Hy] Hne]; [congruence | exact Hy].
  - apply Z.eqb_neq in E. simpl. rewrite IH. split.
    + intros [<- | [Hy Hne]]; [split; [now left | congruence] | tauto].
    + intros [[<- | Hy] Hne]; [now left | tauto].
Qed.

Lemma py_remove_NoDup (x : Z) (l : list Z) : NoDup l -> NoDup (py_remove x l).
Proof.
  induction 1 as [|z l Hz Hl IH]; simpl; [constructor|].
  destruct (x =? z); [exact Hl|].
  constructor; [|exact IH].
  intros Hin. apply py_remove_In in Hin. contradiction.
Qed.

Lemma NoDup_snoc (x : Z) (l : list Z) :
  NoDup l -> ~ In x l -> NoDup (l ++ [x]).
Proof.
  intros Hl Hx. apply NoDup_app; [exact Hl | repeat constructor; intros [] |].
  intros y Hy [<- | []]. contradiction.
Qed.

(** What a shift-click on [k] leaves in the three lists when something is
    matched. *)
Lemma appendContour_toggles (w w' : Matcher) :
  closeInds w <> [] ->
  appendContour w = Ok w' ->
  let k := inContour w in
  closeInds w' = closeInds w /\
  addConts w' =
    (if py_in k (closeInds w) then addConts w
     else if py_in k (addConts w) then py_remove k (addConts w)
          else addConts w ++ [k]) /\
  removeConts w' =
    (if py_in k (closeInds w)
     then if py_in k (removeConts w) then py_remove k (removeConts w)
          else removeConts w ++ [k]
     else removeConts w) /\
  (forall x, In x (closeIndsPlus w') <-> effective w' x).
Proof.
  intros Hne H. cbv zeta.
  pose proof (appendContour_lists w w' Hne H) as [Hc Hplus].
  unfold appendContour in H.
  destruct (closeInds w) as [|k0 close] eqn:Hclose; [congruence|].
  cbv zeta in H. apply findCenters_lists in H.
  cbn [with_lists contours sizes selectedCont closeInds closeIndsPlus
       addConts removeConts] in H.
  destruct H as (_ & _ & _ & _ & _ & Hadd & Hrem & _).
  split; [exact Hc|]. split; [|split].
  - rewrite Hadd.
    destruct (py_in (inContour w) (k0 :: close)),
             (py_in (inContour w) (addConts w)); reflexivity.
  - rewrite Hrem.
    destruct (py_in (inContour w) (k0 :: close)),
             (py_in (inContour w) (removeConts w)); reflexivity.
  - intros x. unfold effective.
    rewrite Hplus, np_setdiff1d_In, np_union1d_In, Hc. reflexivity.
Qed.

Lemma step_tidy
    (invariants : contour -> list Q) (w w' : Matcher) (o : Operation) :
  tidy w -> step invariants w o = Ok w' -> tidy w'.
Proof.
  unfold tidy. intros (Hadd & Hrem & Hsub) H.
  destruct o as [k | s d]; cbn [step] in H.
  - destruct (closeInds w) as [|k0 close] eqn:Hclose.
    + unfold appendContour in H. cbn [with_mouse closeInds] in H.
      rewrite Hclose in H. injection H as <-.
      unfold selectContour. cbn [with_mouse inContour].
      destruct (k =? -1); cbn; rewrite ?Hclose; auto.
      repeat split; try constructor. intros x [].
    + rewrite <- Hclose in Hsub.
      apply appendContour_toggles in H; [|cbn; congruence].
      cbv zeta in H. cbn [with_mouse closeInds addConts removeConts inContour]
        in H.
      destruct H as (Hc & Ha & Hr & _). rewrite Hc, Ha, Hr.
      destruct (py_in k (closeInds w)) eqn:Ek.
      * apply py_in_iff in Ek.
        destruct (py_in k (removeConts w)) eqn:Er.
        -- split; [exact Hadd|]. split; [now apply py_remove_NoDup|].
           intros x Hx. apply py_remove_In in Hx. auto.
        -- apply py_in_false in Er.
           split; [exact Hadd|]. split; [now apply NoDup_snoc|].
           intros x Hx. apply in_app_iff in Hx as [Hx | [<- | []]]; auto.
      * destruct (py_in k (addConts w)) eqn:Ea.
        -- split; [now apply py_remove_NoDup | auto].
        -- apply py_in_false in Ea.
           split; [now apply NoDup_snoc | auto].
  - apply getSimilarContours_inv in H
      as (_ & _ & _ & _ & _ & _ & Ha & Hr & _).
    cbn [with_tolerances addConts] in Ha. rewrite Ha, Hr.
    split; [exact Hadd|]. split; [constructor | intros x []].
Qed.

(** X2.  Every operation keeps the manual lists tidy: no index is listed
    twice in [addConts] or in [removeConts], and [removeConts] only lists
    matched contours. *)
Theorem operations_keep_lists_tidy
    (invariants : contour -> list Q) (w w' : Matcher) (o : Operation) :
  tidy w -> step invariants w o = Ok w' -> tidy w'.
Proof. apply step_tidy. Qed.

Lemma operations_keep_lists_tidy_witness :
  tidy sample_matched /\
  step sample_invariants sample_matched (ShiftClick 0) = Ok sample_added /\
  tidy sample_added.
Proof.
  assert (Ht : tidy sample_matched).
  { unfold tidy. cbn. split; [constructor|]. split; [constructor|].
    intros x []. }
  assert (Hs : step sample_invariants sample_matched (ShiftClick 0)
               = Ok sample_added) by (vm_compute; reflexivity).
  split; [exact Ht|]. split; [exact Hs|].
  exact (operations_keep_lists_tidy sample_invariants sample_matched
           sample_added (ShiftClick 0) Ht Hs).
Defined.

Lemma click_flips
    (invariants : contour -> list Q) (w w' : Matcher) (k : Z) :
  closeInds w <> [] -> tidy w ->
  step invariants w (ShiftClick k) = Ok w' ->
  (In k (closeIndsPlus w') <-> ~ effective w k) /\
  (forall x, x <> k -> (In x (closeIndsPlus w') <-> effective w x)).
Proof.
  intros Hne (Hadd & Hrem & Hsub) H. cbn [step] in H.
  apply appendContour_toggles in H; [|exact Hne].
  cbv zeta in H. cbn [with_mouse closeInds addConts removeConts inContour] in H.
  destruct H as (Hc & Ha & Hr & Heff).
  unfold effective in *.
  assert (Hall : forall x,
    In x (closeIndsPlus w') <->
    (if x =? k
     then ~ ((In x (closeInds w) \/ In x (addConts w)) /\
             ~ In x (removeConts w))
     else (In x (closeInds w) \/ In x (addConts w)) /\
          ~ In x (removeConts w))).
  { intros x. rewrite Heff, Hc, Ha, Hr.
    destruct (py_in k (closeInds w)) eqn:Ek.
    - apply py_in_iff in Ek.
      destruct (py_in k (removeConts w)) eqn:Er.
      + apply py_in_iff in Er. rewrite (py_remove_NoDup_In k x _ Hrem).
        destruct (x =? k) eqn:Ex.
        * apply Z.eqb_eq in Ex. subst x. tauto.
        * apply Z.eqb_neq in Ex. tauto.
      + apply py_in_false in Er. rewrite in_app_iff. cbn [In].
        destruct (x =? k) eqn:Ex.
        * apply Z.eqb_eq in Ex. subst x. tauto.
        * apply Z.eqb_neq in Ex. split; [tauto|].
          intros [Hx Hn]. split; [exact Hx|].
          intros [Hr' | [E | []]]; [contradiction | congruence].
    - apply py_in_false in Ek.
      assert (Hkr : ~ In k (removeConts w)) by (intros Hk; auto).
      destruct (py_in k (addConts w)) eqn:Ea.
      + apply py_in_iff in Ea. rewrite (py_remove_NoDup_In k x _ Hadd).
        destruct (x =? k) eqn:Ex.
        * apply Z.eqb_eq in Ex. subst x. tauto.
        * apply Z.eqb_neq in Ex. tauto.
      + apply py_in_false in Ea. rewrite in_app_iff. cbn [In].
        destruct (x =? k) eqn:Ex.
        * apply Z.eqb_eq in Ex. subst x. tauto.
        * apply Z.eqb_neq in Ex. split; [|tauto].
          intros [[Hx | [Hx | [E | []]]] Hn]; [tauto | tauto | congruence]. }
  split.
  - rewrite Hall, Z.eqb_refl. reflexivity.
  - intros x Hx. rewrite Hall.
    destruct (x =? k) eqn:Ex; [apply Z.eqb_eq in Ex; contradiction|].
    reflexivity.
Qed.

(** X3.  While something is matched and the lists are tidy, a shift-click on
    contour [k] flips whether [k] is in the effective set and changes
    nothing for any other contour. *)
Theorem shift_click_flips_membership
    (invariants : contour -> list Q) (w w' : Matcher) (k : Z) :
  closeInds w <> [] -> tidy w ->
  step invariants w (ShiftClick k) = Ok w' ->
  (In k (closeIndsPlus w') <-> ~ effective w k) /\
  (forall x, x <> k -> (In x (closeIndsPlus w') <-> effective w x)).
Proof. apply click_flips. Qed.

Lemma sample_matched_tidy : tidy sample_matched.
Proof.
  unfold tidy. cbn. split; [constructor|]. split; [constructor|].
  intros x [].
Defined.

Lemma shift_click_flips_membership_witness :
  closeInds sample_matched <> [] /\ tidy sample_matched /\
  step sample_invariants sample_matched (ShiftClick 0) = Ok sample_added /\
  (In 0 (closeIndsPlus sample_added) <-> ~ effective sample_matched 0).
Proof.
  assert (Hne : closeInds sample_matched <> []) by (vm_compute; discriminate).
  assert (Hs : step sample_invariants sample_matched (ShiftClick 0)
               = Ok sample_added) by (vm_compute; reflexivity).
  split; [exact Hne|]. split; [exact sample_matched_tidy|].
  split; [exact Hs|].
  exact (proj1 (shift_click_flips_membership sample_invariants sample_matched
                  sample_added 0 Hne sample_matched_tidy Hs)).
Defined.

Lemma effective_dec (w : Matcher) (x : Z) : effective w x \/ ~ effective w x.
Proof.
  unfold effective.
  destruct (in_dec Z.eq_dec x (closeInds w)), (in_dec Z.eq_dec x (addConts w)),
           (in_dec Z.eq_dec x (removeConts w)); tauto.
Qed.

Lemma toggle_twice (k : Z) (l : list Z) :
  NoDup l ->
  let l1 := if py_in k l then py_remove k l else l ++ [k] in
  let l2 := if py_in k l1 then py_remove k l1 else l1 ++ [k] in
  forall x, In x l2 <-> In x l.
Proof.
  intros Hl. cbv zeta. intros x.
  destruct (py_in k l) eqn:E.
  - apply py_in_iff in E.
    assert (Hk : py_in k (py_remove k l) = false).
    { apply py_in_false. rewrite (py_remove_NoDup_In k k l Hl). tauto. }
    rewrite Hk, in_app_iff, (py_remove_NoDup_In k x l Hl). cbn [In].
    destruct (Z.eq_dec x k) as [-> | Hx]; [tauto|].
    split; [intros [[H _] | [H | []]]; [exact H | congruence] | tauto].
  - apply py_in_false in E.
    assert (Hk : py_in k (l ++ [k]) = true).
    { apply py_in_iff, in_app_iff. right. now left. }
    rewrite Hk, (py_remove_NoDup_In k x _ (NoDup_snoc k l Hl E)), in_app_iff.
    cbn [In]. split.
    + intros [[H | [H | []]] Hne]; [exact H | congruence].
    + intros H. split; [now left | intros ->; contradiction].
Qed.

(** X4.  A second shift-click on the same contour undoes the first: the
    effective set is again [(matched U added) - removed] of the lists before
    the two clicks, and the two manual lists hold the same indices as
    before. *)
Theorem second_shift_click_undoes_first
    (invariants : contour -> list Q) (w w1 w2 : Matcher) (k : Z) :
  closeInds w <> [] -> tidy w ->
  step invariants w (ShiftClick k) = Ok w1 ->
  step invariants w1 (ShiftClick k) = Ok w2 ->
  (forall x, In x (closeIndsPlus w2) <-> effective w x) /\
  (forall x, In x (addConts w2) <-> In x (addConts w)) /\
  (forall x, In x (removeConts w2) <-> In x (removeConts w)).
Proof.
  intros Hne Ht H1 H2.
  pose proof (step_tidy invariants w w1 (ShiftClick k) Ht H1) as Ht1.
  pose proof H1 as T1. pose proof H2 as T2.
  cbn [step] in T1, T2.
  apply appendContour_toggles in T1; [|exact Hne].
  cbv zeta in T1. cbn [with_mouse closeInds addConts removeConts inContour]
    in T1.
  destruct T1 as (Hc1 & Ha1 & Hr1 & Heff1).
  assert (Hne1 : closeInds w1 <> []) by now rewrite Hc1.
  apply appendContour_toggles in T2; [|exact Hne1].
  cbv zeta in T2. cbn [with_mouse closeInds addConts removeConts inContour]
    in T2.
  destruct T2 as (Hc2 & Ha2 & Hr2 & _).
  destruct (click_flips invariants w w1 k Hne Ht H1) as [Hk1 Hx1].
  destruct (click_flips invariants w1 w2 k Hne1 Ht1 H2) as [Hk2 Hx2].
  destruct Ht as (Hadd & Hrem & _).
  split; [|split].
  - intros x. destruct (Z.eq_dec x k) as [-> | Hx].
    + rewrite Hk2, <- Heff1, Hk1.
      destruct (effective_dec w k); tauto.
    + rewrite (Hx2 x Hx), <- Heff1. apply Hx1, Hx.
  - intros x. rewrite Ha2, Hc1, Ha1.
    destruct (py_in k (closeInds w)); [reflexivity|].
    apply (toggle_twice k (addConts w) Hadd).
  - intros x. rewrite Hr2, Hc1, Hr1.
    destruct (py_in k (closeInds w)); [|reflexivity].
    apply (toggle_twice k (removeConts w) Hrem).
Qed.

Lemma second_shift_click_undoes_first_witness :
  closeInds sample_matched <> [] /\ tidy sample_matched /\
  step sample_invariants sample_matched (ShiftClick 0) = Ok sample_added /\
  step sample_invariants sample_added (ShiftClick 0)
    = Ok (with_mouse sample_matched 0) /\
  (forall x, In x (closeIndsPlus (with_mouse sample_matched 0)) <->
             effective sample_matched x).
Proof.
  assert (Hne : closeInds sample_matched <> []) by (vm_compute; discriminate).
  assert (H1 : step sample_invariants sample_matched (ShiftClick 0)
               = Ok sample_added) by (vm_compute; reflexivity).
  assert (H2 : step sample_invariants sample_added (ShiftClick 0)
               = Ok (with_mouse sample_matched 0)) by (vm_compute; reflexivity).
  split; [exact Hne|]. split; [exact sample_matched_tidy|].
  split; [exact H1|]. split; [exact H2|].
  exact (proj1 (second_shift_click_undoes_first sample_invariants
                  sample_matched sample_added (with_mouse sample_matched 0) 0
                  Hne sample_matched_tidy H1 H2)).
Defined.

(** ** Centres and sizes of the effective set *)

Lemma py_index_map {A B} (f : A -> B) (l : list A) (k : Z) (a : A) :
  py_index l k = Ok a -> py_index (map f l) k = Ok (f a).
Proof.
  unfold py_index. rewrite length_map.
  destruct (_ && _); [|discriminate].
  rewrite nth_error_map.
  destruct (nth_error l _); [|discriminate].
  now intros [= ->].
Qed.

Lemma findCenters_rows (w w' : Matcher) (i : nat) (ind : Z) :
  findCenters w = Ok w' ->
  nth_error (closeIndsPlus w) i = Some ind ->
  exists c xy,
    py_index (contours w) ind = Ok c /\
    centroid c = Ok (xy, m00 (moments c)) /\
    nth_error (centers w') i = Some xy /\
    nth_error (closeSizes w') i = Some (m00 (moments c)).
Proof.
  unfold findCenters. intros H Hi.
  destruct (mapM _ (closeIndsPlus w)) as [rows|] eqn:E; cbn [bind] in H;
    [|discriminate].
  injection H as <-. cbn [centers closeSizes].
  destruct (mapM_nth _ _ _ i ind E Hi) as (row & Hrow & Hnth).
  destruct (py_index (contours w) ind) as [c|] eqn:Hc; cbn [bind] in Hrow;
    [|discriminate].
  exists c, (fst row). split; [reflexivity|].
  assert (Hm : snd row = m00 (moments c)).
  { unfold centroid in Hrow.
    destruct (py_div (m10 (moments c)) (m00 (moments c))); cbn [bind] in Hrow;
      [|discriminate].
    destruct (py_div (m01 (moments c)) (m00 (moments c))); cbn [bind] in Hrow;
      [|discriminate].
    now injection Hrow as <-. }
  rewrite <- Hm, <- surjective_pairing.
  split; [exact Hrow|].
  rewrite !nth_error_map, Hnth. auto.
Qed.

(** X5.  After [findCenters] the centre and size arrays have one entry per
    index of the effective set, and the size stored for an index (the zeroth
    moment of its contour) is the area that the extractor stored for that
    contour in [sizes]. *)
Theorem findCenters_sizes_are_extractor_areas (w w' : Matcher) :
  sizes w = map contourArea (contours w) ->
  findCenters w = Ok w' ->
  length (centers w') = length (closeIndsPlus w) /\
  length (closeSizes w') = length (closeIndsPlus w) /\
  forall i ind, nth_error (closeIndsPlus w) i = Some ind ->
    exists a, nth_error (closeSizes w') i = Some a /\
              py_index (sizes w) ind = Ok a.
Proof.
  intros Hsz H.
  pose proof (findCenters_lists w w' H)
    as (_ & _ & _ & _ & _ & _ & _ & Hl1 & Hl2).
  split; [exact Hl1|]. split; [exact Hl2|].
  intros i ind Hi.
  destruct (findCenters_rows w w' i ind H Hi) as (c & xy & Hc & _ & _ & Hs).
  exists (m00 (moments c)). split; [exact Hs|].
  rewrite Hsz, m00_contourArea. now apply py_index_map.
Qed.

Lemma findCenters_sizes_are_extractor_areas_witness :
  sizes sample_matched = map contourArea (contours sample_matched) /\
  findCenters sample_matched = Ok sample_matched /\
  length (closeSizes sample_matched) = length (closeIndsPlus sample_matched).
Proof.
  assert (H1 : sizes sample_matched = map contourArea (contours sample_matched))
    by reflexivity.
  assert (H2 : findCenters sample_matched = Ok sample_matched)
    by (vm_compute; reflexivity).
  split; [exact H1|]. split; [exact H2|].
  exact (proj1 (proj2 (findCenters_sizes_are_extractor_areas sample_matched
                         sample_matched H1 H2))).
Defined.

(** ** Running the analysis again *)

Lemma sort_by_sorted_id {A} (leb : A -> A -> bool) (l : list A) :
  StronglySorted (fun a b => leb a b = true) l -> sort_by leb l = l.
Proof.
  induction 1 as [|x l Hs IH Hx]; simpl; [reflexivity|].
  rewrite IH. destruct l as [|y l]; simpl; [reflexivity|].
  inversion Hx as [|? ? Hxy _]; subst. now rewrite Hxy.
Qed.

Lemma StronglySorted_nth {A} (R : A -> A -> Prop) (l : list A) (d : A) :
  StronglySorted R l ->
  forall i j, (i < j < length l)%nat -> R (nth i l d) (nth j l d).
Proof.
  induction 1 as [|x l Hs IH Hx]; intros i j Hij; simpl in *; [lia|].
  destruct j as [|j]; [lia|]. destruct i as [|i].
  - rewrite Forall_forall in Hx. apply Hx, nth_In. lia.
  - apply IH. lia.
Qed.

Lemma seq_sorted_by (P : nat -> nat -> Prop) (n : nat) :
  (forall i j, (i < j < n)%nat -> P i j) ->
  StronglySorted P (seq 0 n).
Proof.
  intros H.
  assert (G : forall start len, (start + len <= n)%nat ->
                                StronglySorted P (seq start len)).
  { intros start len. revert start.
    induction len as [|len IH]; intros start Hle; simpl; constructor.
    - apply IH. lia.
    - apply Forall_forall. intros j Hj. apply in_seq in Hj. apply H. lia. }
  apply G. lia.
Qed.

Lemma np_take_seq {A} (a : list A) : np_take (seq 0 (length a)) a = Ok a.
Proof.
  assert (G : forall pre suf : list A,
    np_take (seq (length pre) (length suf)) (pre ++ suf) = Ok suf).
  { intros pre suf. revert pre.
    induction suf as [|x suf IH]; intros pre; [reflexivity|].
    unfold np_take in *. cbn [length seq mapM].
    rewrite nth_error_app2, Nat.sub_diag by lia. cbn [nth_error bind].
    specialize (IH (pre ++ [x])).
    rewrite length_app, Nat.add_1_r, <- app_assoc in IH. cbn in IH.
    rewrite IH. reflexivity. }
  apply (G [] a).
Qed.

(** X6.  After a completed run the zones are already in reading order, so
    the index array of a second run is [0, 1, ..., n-1] and taking the
    arrays at it changes nothing: the zones keep their numbers. *)
Theorem second_run_keeps_zone_order
    (Mask : Type) (contourZone : contour -> ZoneCrop)
    (refinedZone : Mask -> Z * Z -> ZoneCrop) (s s' : Session Mask)
    (csv : CSV) :
  analyzeContours Mask contourZone refinedZone s = Ok (s', csv) ->
  sort_inds_of s' = seq 0 (length (centers (win s'))) /\
  np_take (sort_inds_of s') (centers (win s')) = Ok (centers (win s')).
Proof.
  intros H.
  assert (Hc : np_take (sort_inds_of s) (centers (win s))
               = Ok (centers (win s'))).
  { unfold analyzeContours in H. cbv zeta in H.
    repeat match type of H with
    | bind ?r _ = Ok _ =>
        let E := fresh "E" in
        destruct r eqn:E; cbn [bind] in H; [|discriminate H]
    end.
    injection H as <- _. reflexivity. }
  assert (Hsorted : StronglySorted
    (fun a b => snd a < snd b \/ (snd a = snd b /\ fst a <= fst b))
    (centers (win s'))).
  { eapply np_take_sorted; [|exact Hc | apply np_lexsort_sorted].
    intros i j x y Hij Hx Hy. unfold reading_order in Hij. cbv zeta in Hij.
    rewrite (nth_error_nth _ _ _ Hx), (nth_error_nth _ _ _ Hy) in Hij. lia. }
  assert (Hid : sort_inds_of s' = seq 0 (length (centers (win s')))).
  { unfold sort_inds_of, np_lexsort.
    rewrite combine_fst_snd, length_map.
    apply sort_by_sorted_id. apply seq_sorted_by.
    intros i j Hij.
    pose proof (StronglySorted_nth _ _ (0, 0) Hsorted i j Hij) as Hn.
    cbv beta in Hn. unfold lex_leb. cbv zeta.
    rewrite orb_true_iff, andb_true_iff, Z.ltb_lt, Z.eqb_eq, Z.leb_le.
    tauto. }
  split; [exact Hid|]. rewrite Hid. apply np_take_seq.
Qed.

Lemma second_run_keeps_zone_order_witness :
  exists s' csv,
    analyzeContours (list Z) sample_contourZone sample_refinedZone
                    sample_session = Ok (s', csv) /\
    sort_inds_of s' = seq 0 (length (centers (win s'))).
Proof.
  destruct (analyzeContours_ok (list Z) sample_contourZone sample_refinedZone
              sample_session sample_session_analyzable)
    as (plus & cents & rmasks & rcenters & zones & hdr & _ & _ & _ & _ & _ & _
        & Hrun).
  eexists. eexists. split; [exact Hrun|].
  exact (proj1 (second_run_keeps_zone_order (list Z) sample_contourZone
                  sample_refinedZone sample_session _ _ Hrun)).
Defined.

(** ** Shape of the CSV *)

Lemma saveColors_csv (n : nat) (saveHSV saveLAB : bool)
    (samples : list ColorSample) :
  length samples = n ->
  saveColors n true saveHSV saveLAB samples =
  Ok {| header :=
          ("id" ++ ",R,G,B,std R,std G,std B," ++ ",Gray,std Gray,"
           ++ (if saveHSV then ",H,S,V,std H,std S,std V," else "")
           ++ (if saveLAB then ",L,a,b,std L,std a,std b," else "")
           ++ ",Area [pixels]")%string;
        rows := map (fun z => csv_row saveHSV saveLAB (fst z) (snd z))
                    (combine (seq 1 n) samples) |}.
Proof.
  intros Hlen.
  assert (Hl : length (seq 1 n) = length samples)
    by now rewrite length_seq.
  set (zs := combine (seq 1 n) samples).
  assert (Hids : seq 1 n = map fst zs) by (symmetry; now apply combine_fst).
  assert (Hsam : samples = map snd zs) by (symmetry; now apply combine_snd).
  unfold saveColors. cbv zeta.
  rewrite Hids, Hsam.
  unfold bind, local. cbv beta iota.
  repeat (rewrite ?map_map, hconcat_map; cbv beta iota).
  destruct saveHSV, saveLAB;
    repeat (rewrite ?map_map, hconcat_map; cbv beta iota);
    f_equal; f_equal; apply map_ext; intros [i c]; cbn [fst snd];
    unfold csv_row, hsv_cells, cells3; cbn [ch0 ch1 ch2 fst snd app];
    rewrite ?dot_gray, ?dot_std_gray; repeat rewrite <- app_assoc;
    reflexivity.
Qed.

(** X7.  With the RGB group written, the CSV is rectangular and agrees with
    its header: there is one row per zone, and every row has as many cells
    as the header has comma-separated fields (12, plus 7 for each of the HSV
    and Lab groups), the blank separator columns included. *)
Theorem csv_rows_match_header (n : nat) (saveHSV saveLAB : bool)
    (samples : list ColorSample) :
  length samples = n ->
  exists csv,
    saveColors n true saveHSV saveLAB samples = Ok csv /\
    length (rows csv) = n /\
    forall row, In row (rows csv) ->
      length row = header_fields (header csv) /\
      length row = (12 + (if saveHSV then 7 else 0)
                       + (if saveLAB then 7 else 0))%nat.
Proof.
  intros Hlen. eexists. split; [apply saveColors_csv, Hlen|].
  cbn [rows header]. split.
  - rewrite length_map, length_combine, length_seq. lia.
  - intros row Hrow. apply in_map_iff in Hrow as ([i c] & <- & _).
    cbn [fst snd]. destruct saveHSV, saveLAB; split; reflexivity.
Qed.

Lemma csv_rows_match_header_witness :
  length [zero_sample] = 1%nat /\
  exists csv, saveColors 1 true true false [zero_sample] = Ok csv /\
              length (rows csv) = 1%nat.
Proof.
  split; [reflexivity|].
  destruct (csv_rows_match_header 1 true false [zero_sample] eq_refl)
    as (csv & Hcsv & Hlen & _).
  exists csv. split; [exact Hcsv | exact Hlen].
Defined.

(** * Further properties of the sampler *)

Lemma mask_sum_counts (im : list Vec3) (mask : list Z) :
  length im = length mask ->
  (forall m, In m mask -> m = 0 \/ m = 255) ->
  IZR (fold_right Z.add 0 mask) = (255 * INR (length (included im mask)))%R.
Proof.
  revert im. induction mask as [|m mask IH]; intros im Hlen Hm.
  - destruct im; [|discriminate]. cbn. lra.
  - destruct im as [|p im]; [discriminate|].
    injection Hlen as Hlen.
    specialize (IH im Hlen (fun x Hx => Hm x (or_intror Hx))).
    unfold included in *. cbn [combine filter fold_right snd].
    rewrite plus_IZR, IH.
    destruct (Hm m (or_introl eq_refl)) as [-> | ->]; cbn [Z.eqb map length].
    + lra.
    + change (Pos.eqb 255 255) with true. cbn [map length].
      rewrite S_INR. lra.
Qed.

(** X8.  For a zone mask whose values are 0 or 255, the area written to the
    CSV is the number of pixels that entered the colour statistics. *)
Theorem mask_area_counts_sampled_pixels (z : ZoneCrop) :
  length (crop_im z) = length (crop_mask z) ->
  (forall m, In m (crop_mask z) -> m = 0 \/ m = 255) ->
  maskArea (sampleZone z)
  = INR (length (included (crop_im z) (crop_mask z))).
Proof.
  intros Hlen Hm. unfold sampleZone. cbn [maskArea].
  rewrite (mask_sum_counts (crop_im z) (crop_mask z) Hlen Hm). field.
Qed.

Lemma mask_area_counts_sampled_pixels_witness :
  length (crop_im (sample_refinedZone [255; 0] (12, 2)))
    = length (crop_mask (sample_refinedZone [255; 0] (12, 2))) /\
  (forall m, In m (crop_mask (sample_refinedZone [255; 0] (12, 2))) ->
             m = 0 \/ m = 255) /\
  maskArea (sampleZone (sample_refinedZone [255; 0] (12, 2))) = INR 1.
Proof.
  assert (H1 : length (crop_im (sample_refinedZone [255; 0] (12, 2)))
               = length (crop_mask (sample_refinedZone [255; 0] (12, 2))))
    by reflexivity.
  assert (H2 : forall m,
             In m (crop_mask (sample_refinedZone [255; 0] (12, 2))) ->
             m = 0 \/ m = 255).
  { intros m [<- | [<- | []]]; auto. }
  split; [exact H1|]. split; [exact H2|].
  exact (mask_area_counts_sampled_pixels
           (sample_refinedZone [255; 0] (12, 2)) H1 H2).
Defined.

Lemma included_ext (im im' : list Vec3) (mask : list Z) :
  length im = length im' ->
  (forall i, nth_error mask i = Some 255 -> nth_error im i = nth_error im' i) ->
  included im mask = included im' mask.
Proof.
  revert im im'. induction mask as [|m mask IH]; intros im im' Hlen H.
  - unfold included. now rewrite !combine_nil.
  - destruct im as [|p im], im' as [|p' im']; try discriminate;
      [reflexivity|].
    injection Hlen as Hlen.
    specialize (IH im im' Hlen (fun i Hi => H (S i) Hi)).
    unfold included in *. cbn [combine filter snd].
    destruct (m =? 255) eqn:E.
    + apply Z.eqb_eq in E. subst m.
      specialize (H 0%nat eq_refl). cbn in H. injection H as ->.
      cbn [map fst]. now rewrite IH.
    + exact IH.
Qed.

(** X9.  The statistics of a zone depend only on the pixels inside its mask:
    two crops that agree wherever the mask is 255 give the same means and
    standard deviations, whatever the excluded pixels hold. *)
Theorem getAvColor_ignores_excluded_pixels
    (im im' : list Vec3) (mask : list Z) :
  length im = length im' ->
  (forall i, nth_error mask i = Some 255 -> nth_error im i = nth_error im' i) ->
  getAvColor im (Some mask) = getAvColor im' (Some mask).
Proof.
  intros Hlen H. unfold getAvColor.
  now rewrite (included_ext im im' mask Hlen H).
Qed.

Lemma getAvColor_ignores_excluded_pixels_witness :
  length [(1, 2, 3); (4, 5, 6)]%R = length [(1, 2, 3); (7, 8, 9)]%R /\
  getAvColor [(1, 2, 3); (4, 5, 6)]%R (Some [255; 0])
  = getAvColor [(1, 2, 3); (7, 8, 9)]%R (Some [255; 0]).
Proof.
  split; [reflexivity|].
  apply (getAvColor_ignores_excluded_pixels
           [(1, 2, 3); (4, 5, 6)]%R [(1, 2, 3); (7, 8, 9)]%R [255; 0]).
  - reflexivity.
  - intros [|[|i]] Hi; [reflexivity | discriminate Hi | ].
    destruct i; discriminate Hi.
Defined.

Lemma Rsum_bounds (l : list R) (lo hi : R) :
  (forall x, In x l -> lo <= x <= hi)%R ->
  (INR (length l) * lo <= Rsum l <= INR (length l) * hi)%R.
Proof.
  induction l as [|x l IH]; intros H.
  - cbn. lra.
  - cbn [length Rsum fold_right]. rewrite S_INR.
    specialize (IH (fun y Hy => H y (or_intror Hy))).
    specialize (H x (or_introl eq_refl)).
    unfold Rsum in IH. lra.
Qed.

Lemma mean_bounds (l : list R) (lo hi : R) :
  l <> [] ->
  (forall x, In x l -> lo <= x <= hi)%R ->
  (lo <= mean l <= hi)%R.
Proof.
  intros Hne H.
  assert (Hn : (0 < INR (length l))%R).
  { apply lt_0_INR. destruct l; [congruence | simpl; lia]. }
  pose proof (Rsum_bounds l lo hi H) as [H1 H2].
  unfold mean. split.
  - apply Rmult_le_reg_r with (INR (length l)); [exact Hn|].
    replace (Rsum l / INR (length l) * INR (length l))%R with (Rsum l)
      by (field; lra).
    lra.
  - apply Rmult_le_reg_r with (INR (length l)); [exact Hn|].
    replace (Rsum l / INR (length l) * INR (length l))%R with (Rsum l)
      by (field; lra).
    lra.
Qed.

Lemma std_bounds (l : list R) (lo hi : R) :
  l <> [] ->
  (forall x, In x l -> lo <= x <= hi)%R ->
  (0 <= std l <= hi - lo)%R.
Proof.
  intros Hne H. unfold std. split; [apply sqrt_pos|].
  pose proof (mean_bounds l lo hi Hne H) as Hm.
  assert (Hhl : (0 <= hi - lo)%R) by lra.
  rewrite <- (sqrt_square (hi - lo)) by exact Hhl.
  apply sqrt_le_1_alt.
  apply (mean_bounds _ 0 ((hi - lo) * (hi - lo))).
  - destruct l; [congruence | discriminate].
  - intros y Hy. apply in_map_iff in Hy as (x & <- & Hx).
    specialize (H x Hx).
    set (d := (x - mean l)%R).
    assert (Hd1 : (0 <= hi - lo - d)%R) by (unfold d; lra).
    assert (Hd2 : (0 <= hi - lo + d)%R) by (unfold d; lra).
    pose proof (Rmult_le_pos _ _ Hd1 Hd2) as Hp.
    pose proof (Rle_0_sqr d) as Hsq. unfold Rsqr in Hsq.
    split; lra.
Qed.

Lemma map_neq_nil {A B} (f : A -> B) (l : list A) : l <> [] -> map f l <> [].
Proof. destruct l; [congruence | discriminate]. Qed.

(** X10.  For a zone with at least one included pixel whose channel values
    all lie in [[lo, hi]] (for an 8-bit image, [[0, 255]]), the reported mean
    of every RGB channel lies in [[lo, hi]] and every reported RGB standard
    deviation lies in [[0, hi - lo]]. *)
Theorem reported_colours_within_pixel_range (z : ZoneCrop) (lo hi : R) :
  included (crop_im z) (crop_mask z) <> [] ->
  (forall p, In p (included (crop_im z) (crop_mask z)) ->
     (lo <= ch0 p <= hi /\ lo <= ch1 p <= hi /\ lo <= ch2 p <= hi)%R) ->
  let c := sampleZone z in
  (lo <= ch0 (avcolorRGB c) <= hi /\ lo <= ch1 (avcolorRGB c) <= hi /\
   lo <= ch2 (avcolorRGB c) <= hi /\
   0 <= ch0 (stdRGB c) <= hi - lo /\ 0 <= ch1 (stdRGB c) <= hi - lo /\
   0 <= ch2 (stdRGB c) <= hi - lo)%R.
Proof.
  intros Hne H. cbv zeta.
  set (px := included (crop_im z) (crop_mask z)) in *.
  assert (H0 : forall x, In x (map ch0 px) -> (lo <= x <= hi)%R).
  { intros x Hx. apply in_map_iff in Hx as (p & <- & Hp). apply H, Hp. }
  assert (H1 : forall x, In x (map ch1 px) -> (lo <= x <= hi)%R).
  { intros x Hx. apply in_map_iff in Hx as (p & <- & Hp). apply H, Hp. }
  assert (H2 : forall x, In x (map ch2 px) -> (lo <= x <= hi)%R).
  { intros x Hx. apply in_map_iff in Hx as (p & <- & Hp). apply H, Hp. }
  pose proof (mean_bounds _ lo hi (map_neq_nil ch0 px Hne) H0) as M0.
  pose proof (mean_bounds _ lo hi (map_neq_nil ch1 px Hne) H1) as M1.
  pose proof (mean_bounds _ lo hi (map_neq_nil ch2 px Hne) H2) as M2.
  pose proof (std_bounds _ lo hi (map_neq_nil ch0 px Hne) H0) as S0.
  pose proof (std_bounds _ lo hi (map_neq_nil ch1 px Hne) H1) as S1.
  pose proof (std_bounds _ lo hi (map_neq_nil ch2 px Hne) H2) as S2.
  assert (Ea : avcolorRGB (sampleZone z)
               = (mean (map ch2 px), mean (map ch1 px), mean (map ch0 px)))
    by reflexivity.
  assert (Es : stdRGB (sampleZone z)
               = (std (map ch2 px), std (map ch1 px), std (map ch0 px)))
    by reflexivity.
  rewrite Ea, Es.
  set (m0 := mean (map ch0 px)) in *. set (m1 := mean (map ch1 px)) in *.
  set (m2 := mean (map ch2 px)) in *. set (s0 := std (map ch0 px)) in *.
  set (s1 := std (map ch1 px)) in *. set (s2 := std (map ch2 px)) in *.
  unfold ch0, ch1, ch2. cbn [fst snd].
  repeat split; lra.
Qed.


Lemma reported_colours_within_pixel_range_witness :
  included (crop_im sample_zone)
           (crop_mask sample_zone) <> [] /\
  (0 <= ch0 (avcolorRGB (sampleZone sample_zone)) <= 255 /\
   0 <= ch0 (stdRGB (sampleZone sample_zone)) <= 255 - 0)%R.
Proof.
  assert (H1 : included (crop_im sample_zone)
                        (crop_mask sample_zone)
               <> []) by discriminate.
  split; [exact H1|].
  destruct (reported_colours_within_pixel_range sample_zone 0 255 H1)
    as (M0 & _ & _ & S0 & _).
  - intros p [<- | []]. unfold ch0, ch1, ch2. cbn [fst snd]. lra.
  - split; [exact M0 | exact S0].
Defined.

(** * The mask generator *)

Lemma np_clipZ_bounds (x lo hi : Z) :
  lo <= hi -> lo <= np_clipZ x lo hi <= hi.
Proof. unfold np_clipZ. lia. Qed.

Lemma between_uint8 (x : Z) : uint8 x -> between 0 x 255 = true.
Proof.
  unfold uint8, between. intros H.
  apply andb_true_iff. split; apply Z.leb_le; lia.
Qed.

Lemma between_lower (lo x : Z) : uint8 x -> between lo x 255 = (lo <=? x).
Proof.
  unfold uint8, between. intros H.
  replace (x <=? 255) with true by (symmetry; apply Z.leb_le; lia).
  apply andb_true_r.
Qed.

Lemma combine_map_same {A B C} (f : A -> B) (g : A -> C) (l : list A) :
  combine (map f l) (map g l) = map (fun a => (f a, g a)) l.
Proof. induction l as [|a l IH]; simpl; [reflexivity | now rewrite IH]. Qed.

(** X11.  On an 8-bit HSV image, [cvMask] in AND mode marks a pixel 255
    exactly when its saturation is at least the second threshold and its
    value at least the first, and 0 otherwise; in OR mode when at least one
    of the two holds.  Both thresholds are the slider positions truncated and
    clipped to [[0, 255]], hue plays no part, and any other mode leaves the
    buffer alone. *)
Theorem cvMask_thresholds_saturation_and_value
    (slider1 slider2 : Q) (imHSV : list Pixel8) :
  (forall p, In p imHSV -> pixel8 p) ->
  let vmin := np_clipZ (py_int slider1) 0 255 in
  let smin := np_clipZ (py_int slider2) 0 255 in
  0 <= vmin <= 255 /\ 0 <= smin <= 255 /\
  V_maskThresh1 (cvMask slider1 slider2 0 imHSV) = vmin /\
  V_maskThresh2 (cvMask slider1 slider2 0 imHSV) = smin /\
  mask_out (cvMask slider1 slider2 0 imHSV) =
    Some (map (fun p => if (smin <=? px1 p) && (vmin <=? px2 p)
                        then 255 else 0) imHSV) /\
  mask_out (cvMask slider1 slider2 1 imHSV) =
    Some (map (fun p => if (smin <=? px1 p) || (vmin <=? px2 p)
                        then 255 else 0) imHSV) /\
  (forall mode, mode <> 0 -> mode <> 1 ->
     mask_out (cvMask slider1 slider2 mode imHSV) = None).
Proof.
  intros Hpx. cbv zeta.
  set (vmin := np_clipZ (py_int slider1) 0 255).
  set (smin := np_clipZ (py_int slider2) 0 255).
  split; [apply np_clipZ_bounds; lia|].
  split; [apply np_clipZ_bounds; lia|].
  split; [reflexivity|]. split; [reflexivity|].
  split; [|split].
  - unfold cvMask. cbn [mask_out Z.eqb]. fold vmin smin. f_equal.
    apply map_ext_in. intros p Hp. destruct (Hpx p Hp) as (H0 & H1 & H2).
    unfold inRange, add3. cbn [px0 px1 px2 fst snd].
    rewrite ?Z.add_0_r, ?Z.add_0_l.
    rewrite (between_uint8 _ H0), (between_lower smin _ H1),
            (between_lower vmin _ H2).
    cbn [andb]. reflexivity.
  - unfold cvMask. cbn [mask_out Z.eqb Pos.eqb]. fold vmin smin. f_equal.
    rewrite combine_map_same, map_map.
    apply map_ext_in. intros p Hp. destruct (Hpx p Hp) as (H0 & H1 & H2).
    unfold inRange, logical_or_255. cbn [px0 px1 px2 fst snd].
    rewrite (between_lower smin _ H1), (between_lower vmin _ H2),
            !(between_uint8 _ H0), (between_uint8 _ H1),
            (between_uint8 _ H2).
    cbn [andb]. rewrite andb_true_r.
    destruct (smin <=? px1 p), (vmin <=? px2 p); reflexivity.
  - intros mode H0 H1. unfold cvMask. cbn [mask_out].
    apply Z.eqb_neq in H0, H1. now rewrite H0, H1.
Qed.

Lemma cvMask_thresholds_saturation_and_value_witness :
  (forall p, In p [(10, 200, 50); (90, 20, 220)] -> pixel8 p) /\
  mask_out (cvMask 100 100 0 [(10, 200, 50); (90, 20, 220)]) = Some [0; 0] /\
  mask_out (cvMask 100 100 1 [(10, 200, 50); (90, 20, 220)])
    = Some [255; 255].
Proof.
  assert (H : forall p, In p [(10, 200, 50); (90, 20, 220)] -> pixel8 p).
  { intros p [<- | [<- | []]]; unfold pixel8, uint8; cbn; lia. }
  split; [exact H|].
  destruct (cvMask_thresholds_saturation_and_value 100 100 _ H)
    as (_ & _ & _ & _ & Hand & Hor & _).
  split; [rewrite Hand | rewrite Hor]; reflexivity.
Defined.

(** * The histogram engine *)

Lemma total_map_add {A} (f g : A -> nat) (l : list A) :
  total (map (fun k => (f k + g k)%nat) l)
  = (total (map f l) + total (map g l))%nat.
Proof.
  unfold total. induction l as [|a l IH]; simpl; [reflexivity|].
  rewrite IH. lia.
Qed.

Lemma total_indicator (b start len : nat) :
  total (map (fun k => if Nat.eqb b k then 1 else 0)%nat (seq start len))
  = (if (start <=? b)%nat && (b <? start + len)%nat then 1 else 0)%nat.
Proof.
  unfold total. revert start. induction len as [|len IH]; intros start.
  - cbn [seq map fold_right].
    destruct (Nat.leb_spec start b), (Nat.ltb_spec b (start + 0));
      cbn [andb]; try reflexivity; lia.
  - cbn [seq map fold_right]. rewrite IH.
    destruct (Nat.eqb_spec b start), (Nat.leb_spec start b),
             (Nat.leb_spec (S start) b), (Nat.ltb_spec b (start + S len)),
             (Nat.ltb_spec b (S start + len));
      cbn [andb]; lia.
Qed.

(** Every value of [[0, 256]] is counted in exactly one of the 256 bins. *)
Lemma np_histogram_total (a : list Z) :
  (forall x, In x a -> 0 <= x <= 256) ->
  total (fst (np_histogram a)) = length a.
Proof.
  unfold np_histogram. cbn [fst].
  induction a as [|x a IH]; intros H.
  - reflexivity.
  - specialize (IH (fun y Hy => H y (or_intror Hy))).
    specialize (H x (or_introl eq_refl)).
    rewrite (map_ext _ (fun k => ((if in_bin k x then 1 else 0)
                                  + length (filter (in_bin k) a))%nat)).
    + rewrite total_map_add, IH. cbn [length].
      assert (Hb : exists b, bin_of x = Some b /\ (b < 256)%nat).
      { unfold bin_of.
        destruct ((0 <=? x) && (x <? 256)) eqn:E.
        - apply andb_true_iff in E as [E1 E2].
          apply Z.leb_le in E1. apply Z.ltb_lt in E2.
          exists (Z.to_nat x). split; [reflexivity | lia].
        - assert (x = 256).
          { apply andb_false_iff in E as [E | E];
              [apply Z.leb_gt in E | apply Z.ltb_ge in E]; lia. }
          subst x. exists 255%nat. split; [reflexivity | lia]. }
      destruct Hb as (b & Hb & Hlt).
      rewrite (map_ext _ (fun k => if Nat.eqb b k then 1 else 0)%nat).
      * rewrite total_indicator.
        replace ((0 <=? b)%nat && (b <? 0 + 256)%nat) with true; [lia|].
        symmetry. apply andb_true_iff.
        split; [apply Nat.leb_le | apply Nat.ltb_lt]; lia.
      * intros k. unfold in_bin. now rewrite Hb.
    + intros k. cbn [filter]. destruct (in_bin k x); reflexivity.
Qed.

Lemma compressed_length (channel mask : list Z) :
  length channel = length mask ->
  length (compressed channel mask) = length (filter (fun m => m =? 255) mask).
Proof.
  revert channel. induction mask as [|m mask IH]; intros channel Hlen.
  - destruct channel; [reflexivity | discriminate].
  - destruct channel as [|c channel]; [discriminate|].
    injection Hlen as Hlen. specialize (IH channel Hlen).
    unfold compressed in *. cbn [combine filter snd].
    replace (255 - m =? 0) with (m =? 255).
    + destruct (m =? 255); cbn [map length]; now rewrite IH.
    + destruct (m =? 255) eqn:E.
      * apply Z.eqb_eq in E. subst. reflexivity.
      * apply Z.eqb_neq in E. symmetry. apply Z.eqb_neq. lia.
Qed.

Lemma compressed_In (channel mask : list Z) (x : Z) :
  In x (compressed channel mask) -> In x channel.
Proof.
  unfold compressed. intros H. apply in_map_iff in H as ([c m] & <- & H).
  apply filter_In in H as [H _]. now apply in_combine_l in H.
Qed.

Lemma np_histogram_bin (a : list Z) (k : nat) :
  (forall x, In x a -> uint8 x) ->
  length (filter (in_bin k) a)
  = length (filter (fun x => x =? Z.of_nat k) a).
Proof.
  intros Hu. f_equal. apply filter_ext_in. intros x Hx.
  specialize (Hu x Hx). unfold uint8 in Hu. unfold in_bin, bin_of.
  replace ((0 <=? x) && (x <? 256)) with true.
  - destruct (x =? Z.of_nat k) eqn:E.
    + apply Z.eqb_eq in E. apply Nat.eqb_eq. lia.
    + apply Z.eqb_neq in E. apply Nat.eqb_neq. lia.
  - symmetry. apply andb_true_iff.
    split; [apply Z.leb_le | apply Z.ltb_lt]; lia.
Qed.

(** X12.  The histogram of an 8-bit channel under an 8-bit zone mask has 256
    bins, bin [k] counts the included pixels of value [k], and the bins add
    up to the number of included pixels (mask value 255): excluded pixels
    are counted nowhere. *)
Theorem histogram_counts_included_pixels (channel mask : list Z) :
  length channel = length mask ->
  (forall x, In x channel -> uint8 x) ->
  (forall m, In m mask -> uint8 m) ->
  let heights := fst (imageChannelHistogram channel (Some mask)) in
  length heights = 256%nat /\
  total heights = length (filter (fun m => m =? 255) mask) /\
  forall k, (k < 256)%nat ->
    nth k heights 0%nat
    = length (filter (fun x => x =? Z.of_nat k) (compressed channel mask)).
Proof.
  intros Hlen Hu _. cbv zeta. unfold imageChannelHistogram.
  split; [reflexivity|]. split.
  - rewrite np_histogram_total; [now apply compressed_length|].
    intros x Hx. apply compressed_In in Hx. specialize (Hu x Hx).
    unfold uint8 in Hu. lia.
  - intros k Hk. unfold np_histogram. cbn [fst].
    rewrite (nth_indep _ 0%nat
               (length (filter (in_bin 0) (compressed channel mask))))
      by (rewrite length_map, length_seq; exact Hk).
    rewrite (map_nth (fun k => length (filter (in_bin k) _)) (seq 0 256) 0%nat k).
    rewrite seq_nth by exact Hk. cbn [Nat.add].
    apply np_histogram_bin.
    intros x Hx. apply compressed_In in Hx. now apply Hu.
Qed.

Lemma histogram_counts_included_pixels_witness :
  length [7; 7; 9] = length [255; 0; 255] /\
  (forall x, In x [7; 7; 9] -> uint8 x) /\
  (forall m, In m [255; 0; 255] -> uint8 m) /\
  total (fst (imageChannelHistogram [7; 7; 9] (Some [255; 0; 255]))) = 2%nat.
Proof.
  assert (H : forall x, In x [7; 7; 9] -> uint8 x).
  { intros x [<- | [<- | [<- | []]]]; unfold uint8; lia. }
  assert (Hm : forall m, In m [255; 0; 255] -> uint8 m).
  { intros x [<- | [<- | [<- | []]]]; unfold uint8; lia. }
  split; [reflexivity|]. split; [exact H|]. split; [exact Hm|].
  exact (proj1 (proj2 (histogram_counts_included_pixels [7; 7; 9]
                         [255; 0; 255] eq_refl H Hm))).
Defined.

Lemma but_last_edges :
  but_last (map Z.of_nat (seq 0 257)) = map Z.of_nat (seq 0 256).
Proof. reflexivity. Qed.

Lemma saveHistogram_rows (im : list Pixel8) (mask : list Z) :
  snd (saveHistogram im mask)
  = map (fun k =>
           [Z.of_nat k;
            Z.of_nat (length (filter (in_bin k) (compressed (map px2 im) mask)));
            Z.of_nat (length (filter (in_bin k) (compressed (map px1 im) mask)));
            Z.of_nat (length (filter (in_bin k) (compressed (map px0 im) mask)))])
        (seq 0 256).
Proof.
  unfold saveHistogram, imageChannelHistogram, np_histogram.
  cbn [fst snd]. rewrite but_last_edges.
  rewrite !combine_map_same, map_map. reflexivity.
Qed.

(** X13.  The histogram file of a zone has one row per intensity 0..255, in
    ascending order; row [k] is the intensity followed by the numbers of
    included pixels whose red, green and blue value is [k], in the order of
    the header (the image being stored blue, green, red).  The header has
    as many fields as each row. *)
Theorem histogram_csv_rows (im : list Pixel8) (mask : list Z) :
  length im = length mask ->
  (forall p, In p im -> pixel8 p) ->
  (forall m, In m mask -> uint8 m) ->
  let count (channel : Pixel8 -> Z) (k : nat) : Z :=
    Z.of_nat (length (filter (fun x => x =? Z.of_nat k)
                             (compressed (map channel im) mask))) in
  let rows := snd (saveHistogram im mask) in
  length rows = 256%nat /\
  (forall k, (k < 256)%nat ->
     nth_error rows k
     = Some [Z.of_nat k; count px2 k; count px1 k; count px0 k]) /\
  header_fields (fst (saveHistogram im mask)) = 4%nat.
Proof.
  intros Hlen Hpx _. cbv zeta. rewrite saveHistogram_rows.
  split; [now rewrite length_map, length_seq|]. split; [|reflexivity].
  intros k Hk.
  rewrite nth_error_map, nth_error_seq.
  replace (k <? 256)%nat with true by (symmetry; now apply Nat.ltb_lt).
  cbn [option_map Nat.add].
  rewrite !np_histogram_bin; [reflexivity | | |];
    intros x Hx; apply compressed_In in Hx;
    apply in_map_iff in Hx as (p & <- & Hp);
    destruct (Hpx p Hp) as (H0 & H1 & H2); assumption.
Qed.

Lemma histogram_csv_rows_witness :
  nth_error (snd (saveHistogram [(1, 2, 3); (1, 9, 3)] [255; 255])) 3
  = Some [3; 2; 0; 0].
Proof.
  assert (Hp : forall p, In p [(1, 2, 3); (1, 9, 3)] -> pixel8 p).
  { intros p [<- | [<- | []]]; unfold pixel8, uint8; cbn; lia. }
  assert (Hm : forall m, In m [255; 255] -> uint8 m).
  { intros m [<- | [<- | []]]; unfold uint8; lia. }
  exact (proj1 (proj2 (histogram_csv_rows [(1, 2, 3); (1, 9, 3)] [255; 255]
                         eq_refl Hp Hm)) 3%nat ltac:(lia)).
Defined.

(** * Display geometry *)

Lemma py_int_floor (q : Q) : (0 <= q)%Q -> py_int q = Qfloor q.
Proof.
  destruct q as [n d]. unfold py_int, Qfloor, Qle. cbn [Qnum Qden].
  intros H. apply Z.quot_div_nonneg; lia.
Qed.

Lemma py_div_nonzero (a b : Q) : ~ (b == 0)%Q -> py_div a b = Ok (a / b)%Q.
Proof.
  unfold py_div. intros H. destruct (Qeq_bool b 0) eqn:E; [|reflexivity].
  apply Qeq_bool_iff in E. contradiction.
Qed.

Lemma py_int_bounds (q : Q) :
  (0 <= q)%Q ->
  0 <= py_int q /\ (inject_Z (py_int q) <= q)%Q /\
  (q < inject_Z (py_int q) + 1)%Q.
Proof.
  intros H. rewrite (py_int_floor q H). split; [|split].
  - change 0 with (Qfloor 0). now apply Qfloor_resp_le.
  - apply Qfloor_le.
  - rewrite <- (inject_Z_plus _ 1). apply Qlt_floor.
Qed.

Lemma inject_Z_pos (z : Z) : 0 < z -> (0 < inject_Z z)%Q.
Proof. intros H. now rewrite Zlt_Qlt in H. Qed.

Lemma inject_Z_nonneg (z : Z) : 0 <= z -> (0 <= inject_Z z)%Q.
Proof. intros H. change 0%Q with (inject_Z 0). now rewrite <- Zle_Qle. Qed.

Lemma Qdiv_spec (x y : Q) : (0 < y)%Q -> (x / y * y == x)%Q.
Proof.
  intros H. unfold Qdiv. rewrite <- Qmult_assoc, (Qmult_comm (/ y)).
  rewrite Qmult_inv_r; [ring | intros E; rewrite E in H; discriminate].
Qed.

Lemma windowAspectAdjust_geometry (sw sh ih iw : Z) (scaling : Q) :
  0 < sw -> 0 < sh -> 0 < ih -> 0 < iw -> (0 <= scaling)%Q ->
  exists W H,
    windowAspectAdjust (sw, sh) (ih, iw) scaling = Ok (W, H) /\
    0 <= W /\ 0 <= H /\
    (inject_Z W <= inject_Z sw * scaling)%Q /\
    (inject_Z H <= inject_Z sh * scaling)%Q /\
    (W = py_int (inject_Z sw * scaling) \/
     H = py_int (inject_Z sh * scaling)) /\
    - ih < W * ih - H * iw < iw.
Proof.
  intros Hsw Hsh Hih Hiw Hs.
  pose proof (inject_Z_pos _ Hsw) as Qsw.
  pose proof (inject_Z_pos _ Hsh) as Qsh.
  pose proof (inject_Z_pos _ Hih) as Qih.
  pose proof (inject_Z_pos _ Hiw) as Qiw.
  unfold windowAspectAdjust. cbn [fst snd].
  rewrite !py_div_nonzero by (intros E; rewrite E in *; discriminate).
  cbn [bind].
  pose proof (Qdiv_spec (inject_Z ih) _ Qsh) as Ea.
  pose proof (Qdiv_spec (inject_Z iw) _ Qsw) as Eb.
  set (a := (inject_Z ih / inject_Z sh)%Q) in *.
  set (b := (inject_Z iw / inject_Z sw)%Q) in *.
  assert (Hcmp : if Qgt_bool a b
                 then (inject_Z iw * inject_Z sh < inject_Z ih * inject_Z sw)%Q
                 else (inject_Z ih * inject_Z sw <= inject_Z iw * inject_Z sh)%Q).
  { unfold Qgt_bool. destruct (Qle_bool a b) eqn:E; cbn [negb].
    - apply Qle_bool_iff in E.
      assert (0 <= (b - a) * (inject_Z sh * inject_Z sw))%Q
        by (apply Qmult_le_0_compat; Lqa.nra).
      Lqa.nra.
    - assert (Hab : (b < a)%Q).
      { apply Qnot_le_lt. intros Hle. apply Qle_bool_iff in Hle. congruence. }
      assert (0 < (a - b) * (inject_Z sh * inject_Z sw))%Q
        by (apply Qmult_lt_0_compat; Lqa.nra).
      Lqa.nra. }
  destruct (Qgt_bool a b).
  - cbn [bind fst snd].
    pose proof (Qdiv_spec (inject_Z (sh * iw)) _ Qih) as Ew.
    set (w := (inject_Z (sh * iw) / inject_Z ih)%Q) in *.
    rewrite inject_Z_mult in Ew.
    assert (Hw0 : (0 <= w)%Q).
    { apply Qnot_lt_le. intros Hneg.
      assert (0 < (0 - w) * inject_Z ih)%Q
        by (apply Qmult_lt_0_compat; Lqa.lra).
      assert (0 < inject_Z sh * inject_Z iw)%Q
        by (apply Qmult_lt_0_compat; assumption).
      Lqa.lra. }
    assert (Hw1 : (w <= inject_Z sw)%Q).
    { apply Qnot_lt_le. intros Hgt.
      assert (0 < (w - inject_Z sw) * inject_Z ih)%Q
        by (apply Qmult_lt_0_compat; Lqa.lra).
      Lqa.lra. }
    assert (Hws : (0 <= w * scaling)%Q) by (apply Qmult_le_0_compat; assumption).
    assert (Hhs : (0 <= inject_Z sh * scaling)%Q)
      by (apply Qmult_le_0_compat; Lqa.lra).
    destruct (py_int_bounds _ Hws) as (W0 & W1 & W2).
    destruct (py_int_bounds _ Hhs) as (H0 & H1 & H2).
    exists (py_int (w * scaling)), (py_int (inject_Z sh * scaling)).
    set (W := py_int (w * scaling)) in *.
    set (H := py_int (inject_Z sh * scaling)) in *.
    split; [reflexivity|]. split; [exact W0|]. split; [exact H0|].
    split.
    { assert (0 <= (inject_Z sw - w) * scaling)%Q
        by (apply Qmult_le_0_compat; Lqa.lra).
      Lqa.lra. }
    split; [exact H1|]. split; [right; reflexivity|].
    unfold Z.sub. rewrite !Zlt_Qlt, inject_Z_plus, !inject_Z_opp, !inject_Z_mult.
    assert (0 <= (w * scaling - inject_Z W) * inject_Z ih)%Q
      by (apply Qmult_le_0_compat; Lqa.lra).
    assert (0 < (inject_Z W + 1 - w * scaling) * inject_Z ih)%Q
      by (apply Qmult_lt_0_compat; Lqa.lra).
    assert (0 <= (inject_Z sh * scaling - inject_Z H) * inject_Z iw)%Q
      by (apply Qmult_le_0_compat; Lqa.lra).
    assert (0 < (inject_Z H + 1 - inject_Z sh * scaling) * inject_Z iw)%Q
      by (apply Qmult_lt_0_compat; Lqa.lra).
    assert (scaling * (w * inject_Z ih) == scaling * (inject_Z sh * inject_Z iw))%Q
      by (now rewrite Ew).
    split; Lqa.lra.
  - cbn [bind fst snd].
    pose proof (Qdiv_spec (inject_Z (sw * ih)) _ Qiw) as Eh.
    set (h := (inject_Z (sw * ih) / inject_Z iw)%Q) in *.
    rewrite inject_Z_mult in Eh.
    assert (Hh0 : (0 <= h)%Q).
    { apply Qnot_lt_le. intros Hneg.
      assert (0 < (0 - h) * inject_Z iw)%Q
        by (apply Qmult_lt_0_compat; Lqa.lra).
      assert (0 < inject_Z sw * inject_Z ih)%Q
        by (apply Qmult_lt_0_compat; assumption).
      Lqa.lra. }
    assert (Hh1 : (h <= inject_Z sh)%Q).
    { apply Qnot_lt_le. intros Hgt.
      assert (0 < (h - inject_Z sh) * inject_Z iw)%Q
        by (apply Qmult_lt_0_compat; Lqa.lra).
      Lqa.lra. }
    assert (Hhs : (0 <= h * scaling)%Q) by (apply Qmult_le_0_compat; assumption).
    assert (Hws : (0 <= inject_Z sw * scaling)%Q)
      by (apply Qmult_le_0_compat; Lqa.lra).
    destruct (py_int_bounds _ Hws) as (W0 & W1 & W2).
    destruct (py_int_bounds _ Hhs) as (H0 & H1 & H2).
    exists (py_int (inject_Z sw * scaling)), (py_int (h * scaling)).
    set (W := py_int (inject_Z sw * scaling)) in *.
    set (H := py_int (h * scaling)) in *.
    split; [reflexivity|]. split; [exact W0|]. split; [exact H0|].
    split; [exact W1|].
    split.
    { assert (0 <= (inject_Z sh - h) * scaling)%Q
        by (apply Qmult_le_0_compat; Lqa.lra).
      Lqa.lra. }
    split; [left; reflexivity|].
    unfold Z.sub. rewrite !Zlt_Qlt, inject_Z_plus, !inject_Z_opp, !inject_Z_mult.
    assert (0 <= (inject_Z sw * scaling - inject_Z W) * inject_Z ih)%Q
      by (apply Qmult_le_0_compat; Lqa.lra).
    assert (0 < (inject_Z W + 1 - inject_Z sw * scaling) * inject_Z ih)%Q
      by (apply Qmult_lt_0_compat; Lqa.lra).
    assert (0 <= (h * scaling - inject_Z H) * inject_Z iw)%Q
      by (apply Qmult_le_0_compat; Lqa.lra).
    assert (0 < (inject_Z H + 1 - h * scaling) * inject_Z iw)%Q
      by (apply Qmult_lt_0_compat; Lqa.lra).
    assert (scaling * (h * inject_Z iw) == scaling * (inject_Z sw * inject_Z ih))%Q
      by (now rewrite Eh).
    split; Lqa.lra.
Qed.

(** X14.  For a frame and an image of positive dimensions and a scaling
    factor [>= 0], [windowAspectAdjust] returns a window that fits into the
    scaled frame, touches it in one dimension (is as wide or as high as the
    truncated scaled frame) and has the aspect ratio of the image up to the
    truncation to whole pixels.  With scaling 1 the window is as wide or as
    high as the frame itself. *)
Theorem windowAspectAdjust_fits_frame (sw sh ih iw : Z) (scaling : Q) :
  0 < sw -> 0 < sh -> 0 < ih -> 0 < iw -> (0 <= scaling)%Q ->
  exists W H,
    windowAspectAdjust (sw, sh) (ih, iw) scaling = Ok (W, H) /\
    0 <= W /\ 0 <= H /\
    (inject_Z W <= inject_Z sw * scaling)%Q /\
    (inject_Z H <= inject_Z sh * scaling)%Q /\
    (W = py_int (inject_Z sw * scaling) \/
     H = py_int (inject_Z sh * scaling)) /\
    - ih < W * ih - H * iw < iw /\
    ((scaling == 1)%Q -> W = sw \/ H = sh).
Proof.
  intros Hsw Hsh Hih Hiw Hs.
  destruct (windowAspectAdjust_geometry sw sh ih iw scaling Hsw Hsh Hih Hiw Hs)
    as (W & H & E & W0 & H0 & W1 & H1 & Hor & Hasp).
  exists W, H.
  split; [exact E|]. split; [exact W0|]. split; [exact H0|].
  split; [exact W1|]. split; [exact H1|]. split; [exact Hor|].
  split; [exact Hasp|].
  intros Es.
  assert (Fl : forall z, 0 < z -> py_int (inject_Z z * scaling) = z).
  { intros z Hz. rewrite py_int_floor.
    - rewrite (Qfloor_comp _ (inject_Z z)) by (rewrite Es; ring).
      apply Qfloor_Z.
    - apply Qmult_le_0_compat; [apply inject_Z_nonneg; lia | exact Hs]. }
  destruct Hor as [-> | ->]; [left | right]; now apply Fl.
Qed.

Lemma windowAspectAdjust_fits_frame_witness :
  exists W H,
    windowAspectAdjust (800, 600) (1000, 500) 1 = Ok (W, H) /\
    0 <= W /\ 0 <= H /\
    (inject_Z W <= inject_Z 800 * 1)%Q /\
    (inject_Z H <= inject_Z 600 * 1)%Q /\
    (W = py_int (inject_Z 800 * 1) \/ H = py_int (inject_Z 600 * 1)) /\
    - 1000 < W * 1000 - H * 500 < 500 /\
    ((1 == 1)%Q -> W = 800 \/ H = 600).
Proof.
  apply (windowAspectAdjust_fits_frame 800 600 1000 500 1); try lia.
  unfold Qle; cbn; lia.
Defined.

Lemma scale_axis (f i x : Z) :
  1 < f -> 1 <= i -> 0 <= x <= f - 1 ->
  0 <= py_int (inject_Z x * (inject_Z (i - 1) / inject_Z (f - 1))) <= i - 1.
Proof.
  intros Hf Hi Hx.
  assert (Qf : (0 < inject_Z (f - 1))%Q) by (apply inject_Z_pos; lia).
  assert (Qi : (0 <= inject_Z (i - 1))%Q) by (apply inject_Z_nonneg; lia).
  assert (Qx0 : (0 <= inject_Z x)%Q) by (apply inject_Z_nonneg; lia).
  assert (Qx1 : (inject_Z x <= inject_Z (f - 1))%Q) by (rewrite <- Zle_Qle; lia).
  pose proof (Qdiv_spec (inject_Z (i - 1)) _ Qf) as Er.
  set (r := (inject_Z (i - 1) / inject_Z (f - 1))%Q) in *.
  assert (Hr : (0 <= r)%Q).
  { apply Qnot_lt_le. intros Hneg.
    assert (0 < (0 - r) * inject_Z (f - 1))%Q
      by (apply Qmult_lt_0_compat; Lqa.lra).
    Lqa.lra. }
  assert (Hxr : (0 <= inject_Z x * r)%Q) by (apply Qmult_le_0_compat; assumption).
  destruct (py_int_bounds _ Hxr) as (P0 & P1 & _).
  split; [exact P0|].
  rewrite Zle_Qle.
  assert (0 <= (inject_Z (f - 1) - inject_Z x) * r)%Q
    by (apply Qmult_le_0_compat; Lqa.lra).
  Lqa.lra.
Qed.

Lemma scale_axis_mono (f i x x' : Z) :
  1 < f -> 1 <= i -> 0 <= x -> x <= x' ->
  py_int (inject_Z x * (inject_Z (i - 1) / inject_Z (f - 1)))
  <= py_int (inject_Z x' * (inject_Z (i - 1) / inject_Z (f - 1))).
Proof.
  intros Hf Hi Hx Hxx.
  assert (Qf : (0 < inject_Z (f - 1))%Q) by (apply inject_Z_pos; lia).
  assert (Qi : (0 <= inject_Z (i - 1))%Q) by (apply inject_Z_nonneg; lia).
  assert (Qx0 : (0 <= inject_Z x)%Q) by (apply inject_Z_nonneg; lia).
  assert (Qx1 : (inject_Z x <= inject_Z x')%Q) by (rewrite <- Zle_Qle; lia).
  pose proof (Qdiv_spec (inject_Z (i - 1)) _ Qf) as Er.
  set (r := (inject_Z (i - 1) / inject_Z (f - 1))%Q) in *.
  assert (Hr : (0 <= r)%Q).
  { apply Qnot_lt_le. intros Hneg.
    assert (0 < (0 - r) * inject_Z (f - 1))%Q
      by (apply Qmult_lt_0_compat; Lqa.lra).
    Lqa.lra. }
  assert (Hxr : (0 <= inject_Z x * r)%Q) by (apply Qmult_le_0_compat; assumption).
  assert (Hxr' : (0 <= inject_Z x' * r)%Q)
    by (apply Qmult_le_0_compat; [Lqa.lra | assumption]).
  rewrite !py_int_floor by assumption.
  apply Qfloor_resp_le.
  assert (0 <= (inject_Z x' - inject_Z x) * r)%Q
    by (apply Qmult_le_0_compat; Lqa.lra).
  Lqa.lra.
Qed.

Lemma convertCoords_ok (fw fh iw ih x y : Z) :
  fw <> 1 -> fh <> 1 ->
  convertCoords (fw, fh) (iw, ih) x y
  = Ok (py_int (inject_Z x * (inject_Z (iw - 1) / inject_Z (fw - 1))),
        py_int (inject_Z y * (inject_Z (ih - 1) / inject_Z (fh - 1)))).
Proof.
  intros Hw Hh. unfold convertCoords. cbn [fst snd].
  rewrite !py_div_nonzero; [reflexivity | |].
  - intros E. unfold Qeq in E. cbn [inject_Z Qnum Qden] in E. lia.
  - intros E. unfold Qeq in E. cbn [inject_Z Qnum Qden] in E. lia.
Qed.

(** X15.  On a display more than one pixel wide and high, [convertCoords]
    sends every position of the display to a pixel position inside the
    image, and a position further right or further down on the display never
    to a pixel further left or further up. *)
Theorem convertCoords_stays_inside_image (fw fh iw ih x y : Z) :
  1 < fw -> 1 < fh -> 1 <= iw -> 1 <= ih ->
  0 <= x <= fw - 1 -> 0 <= y <= fh - 1 ->
  exists px py,
    convertCoords (fw, fh) (iw, ih) x y = Ok (px, py) /\
    0 <= px <= iw - 1 /\ 0 <= py <= ih - 1 /\
    forall x' y' px' py',
      x <= x' -> y <= y' ->
      convertCoords (fw, fh) (iw, ih) x' y' = Ok (px', py') ->
      px <= px' /\ py <= py'.
Proof.
  intros Hfw Hfh Hiw Hih Hx Hy.
  eexists; eexists. split; [apply convertCoords_ok; lia|].
  split; [now apply scale_axis|]. split; [now apply scale_axis|].
  intros x' y' px' py' Hxx Hyy E.
  rewrite convertCoords_ok in E by lia. injection E as <- <-.
  split; apply scale_axis_mono; lia.
Qed.

Lemma convertCoords_stays_inside_image_witness :
  exists px py,
    convertCoords (801, 601) (1601, 1201) 400 300 = Ok (px, py) /\
    0 <= px <= 1601 - 1 /\ 0 <= py <= 1201 - 1 /\
    forall x' y' px' py',
      400 <= x' -> 300 <= y' ->
      convertCoords (801, 601) (1601, 1201) x' y' = Ok (px', py') ->
      px <= px' /\ py <= py'.
Proof.
  apply (convertCoords_stays_inside_image 801 601 1601 1201 400 300); lia.
Defined.

(** X16.  On a display that is one pixel wide or one pixel high,
    [convertCoords] raises ZeroDivisionError for every position and every
    image. *)
Theorem convertCoords_one_pixel_display (fw fh : Z) (im : Z * Z) (x y : Z) :
  fw = 1 \/ fh = 1 ->
  convertCoords (fw, fh) im x y = Raise ZeroDivisionError.
Proof.
  intros H. unfold convertCoords, py_div. cbn [fst snd].
  destruct (Qeq_bool (inject_Z (fw - 1)) 0) eqn:Ew; [reflexivity|].
  cbn [bind].
  destruct (Qeq_bool (inject_Z (fh - 1)) 0) eqn:Eh; [reflexivity|].
  exfalso. destruct H as [-> | ->]; discriminate.
Qed.

Lemma convertCoords_one_pixel_display_witness :
  convertCoords (1, 600) (1601, 1201) 0 0 = Raise ZeroDivisionError.
Proof.
  apply convertCoords_one_pixel_display. left. reflexivity.
Defined.

(** * Polygon vertices *)

Local Open Scope R_scope.

(** X18.  With zero sides a closed polygon raises ZeroDivisionError, while
    an open polygon with zero sides, and any polygon with a negative number
    of sides, has no vertices and raises nothing. *)
Theorem regularPolygonPoints_without_sides (phi : R) (center : R * R) (r : R) :
  regularPolygonPoints 0 phi center r true = Raise ZeroDivisionError /\
  regularPolygonPoints 0 phi center r false = Ok [] /\
  forall n toClose, (n < 0)%Z ->
    regularPolygonPoints n phi center r toClose = Ok [].
Proof.
  split; [reflexivity|]. split; [reflexivity|].
  intros n toClose Hn. unfold regularPolygonPoints, py_range.
  replace (Z.to_nat (n + int_of_bool toClose)) with 0%nat
    by (destruct toClose; cbn [int_of_bool]; lia).
  reflexivity.
Qed.

Lemma regularPolygonPoints_without_sides_witness :
  regularPolygonPoints (-3) 0 (0, 0) 1 true = Ok [].
Proof.
  apply (proj2 (proj2 (regularPolygonPoints_without_sides 0 (0, 0) 1))). lia.
Defined.


Local Close Scope R_scope.

(** * The output folder of a run *)

Lemma below_all_or_some (p : nat -> bool) (m : nat) :
  (forall k, (k < m)%nat -> p k = true) \/
  (exists k, (k < m)%nat /\ p k = false).
Proof.
  induction m as [|m [IH | (k & Hk & Hp)]].
  - left. intros k Hk. lia.
  - destruct (p m) eqn:E.
    + left. intros k Hk. destruct (Nat.eq_dec k m) as [-> | Hne];
        [exact E | apply IH; lia].
    + right. exists m. split; [lia | exact E].
  - right. exists k. split; [lia | exact Hp].
Qed.

Lemma least_false (p : nat -> bool) (m : nat) :
  p m = false ->
  exists first, (first <= m)%nat /\ p first = false /\
                forall k, (k < first)%nat -> p k = true.
Proof.
  induction m as [m IH] using lt_wf_ind. intros Hm.
  destruct (below_all_or_some p m) as [Hall | (k & Hk & Hp)].
  - exists m. split; [lia|]. split; assumption.
  - destruct (IH k Hk Hp) as (first & Hle & Hf & Hb).
    exists first. split; [lia|]. split; assumption.
Qed.

Section OutputFolderFacts.

Variable path_exists : string -> bool.

Lemma folder_loop_next (fuel : nat) (analysisPath : string) (j m : nat) :
  (forall k, (j <= k < m)%nat ->
     path_exists (folder_name analysisPath k) = true) ->
  path_exists (folder_name analysisPath m) = false ->
  (j <= m)%nat -> (m - j < fuel)%nat ->
  folder_loop path_exists fuel analysisPath j (folder_name analysisPath j)
  = Some (m, folder_name analysisPath m).
Proof.
  revert j. induction fuel as [|fuel IH]; intros j Hbelow Hfree Hjm Hfuel.
  - lia.
  - cbn [folder_loop].
    destruct (Nat.eq_dec j m) as [-> | Hne].
    + now rewrite Hfree.
    + rewrite (Hbelow j) by lia.
      apply (IH (S j)); [|exact Hfree|lia|lia].
      intros k Hk. apply Hbelow. lia.
Qed.

(** X19.  If one of the candidate names (the base name, then the base name
    with the suffixes [_1], [_2], ...) does not exist, the loop of
    [analyzeContours] ends, after [first + 1] tests, with the first candidate
    that does not exist: the folder it picks is never an existing one, and
    every candidate before it exists. *)
Theorem analysis_folder_is_first_free_name (analysisPath : string) (m : nat) :
  path_exists (folder_name analysisPath m) = false ->
  exists first,
    (first <= m)%nat /\
    path_exists (folder_name analysisPath first) = false /\
    (forall k, (k < first)%nat ->
       path_exists (folder_name analysisPath k) = true) /\
    forall fuel, (first < fuel)%nat ->
      analysisPathNum path_exists fuel analysisPath
      = Some (first, folder_name analysisPath first).
Proof.
  intros Hm.
  destruct (least_false (fun k => path_exists (folder_name analysisPath k))
                        m Hm) as (first & Hle & Hf & Hb).
  exists first. split; [exact Hle|]. split; [exact Hf|]. split; [exact Hb|].
  intros fuel Hfuel. unfold analysisPathNum.
  apply (folder_loop_next fuel analysisPath 0 first); try assumption; try lia.
  intros k Hk. apply Hb. lia.
Qed.

End OutputFolderFacts.


Lemma analysis_folder_is_first_free_name_witness :
  exists first,
    (first <= 2)%nat /\
    (fun s => (s =? "scan_analysis")%string || (s =? "scan_analysis_1")%string)
      (folder_name "scan_analysis" first) = false /\
    (forall k, (k < first)%nat ->
       (fun s => (s =? "scan_analysis")%string
                 || (s =? "scan_analysis_1")%string)
         (folder_name "scan_analysis" k) = true) /\
    forall fuel, (first < fuel)%nat ->
      analysisPathNum
        (fun s => (s =? "scan_analysis")%string
                  || (s =? "scan_analysis_1")%string)
        fuel "scan_analysis"
      = Some (first, folder_name "scan_analysis" first).
Proof.
  apply (analysis_folder_is_first_free_name
           (fun s => (s =? "scan_analysis")%string
                     || (s =? "scan_analysis_1")%string)
           "scan_analysis" 2).
  reflexivity.
Defined.

(** * Presets *)

Lemma U16_short (s : string) : (String.length s <= 16)%nat -> U16 s = s.
Proof.
  unfold U16. generalize 16%nat as m. induction s as [|c s IH]; intros m H.
  - destruct m; reflexivity.
  - destruct m as [|m]; cbn [String.length] in H; [lia|].
    cbn [substring]. f_equal. apply IH. lia.
Qed.

Lemma U16_length (s : string) : (String.length (U16 s) <= 16)%nat.
Proof.
  unfold U16. generalize 16%nat as m. induction s as [|c s IH]; intros m.
  - destruct m; cbn; lia.
  - destruct m as [|m]; cbn [substring String.length]; [lia|].
    specialize (IH m). lia.
Qed.

Lemma NoDup_snoc_any {A} (l : list A) (x : A) :
  NoDup l -> ~ In x l -> NoDup (l ++ [x]).
Proof.
  induction 1 as [|y l Hy Hl IH]; intros Hx; cbn [app].
  - constructor; [intros [] | constructor].
  - constructor.
    + rewrite in_app_iff. intros [H | [H | []]]; [contradiction|].
      subst. apply Hx. now left.
    + apply IH. intros H. apply Hx. now right.
Qed.

Section PresetFacts.

Variable Values : Type.
Variable as_formats : Values -> Values.


Lemma existsb_eqb_In (name : string) (names : list string) :
  existsb (String.eqb name) names = true <-> In name names.
Proof.
  rewrite existsb_exists. split.
  - intros (x & Hx & E). apply String.eqb_eq in E. now subst.
  - intros H. exists name. split; [exact H | apply String.eqb_refl].
Qed.

Lemma newPreset_app (A B : list (PresetRow Values)) (name : string) :
  newPreset (A ++ B) name
  = match newPreset A name with
    | Ok row => Ok row
    | Raise _ => newPreset B name
    end.
Proof.
  unfold newPreset. induction A as [|r A IH]; [reflexivity|].
  cbn [app filter]. destruct (fst r =? name)%string; [reflexivity | exact IH].
Qed.

Lemma newPreset_miss (A : list (PresetRow Values)) (name : string) :
  ~ In name (PresetName A) -> newPreset A name = Raise IndexError.
Proof.
  intros Hnot. unfold newPreset.
  induction A as [|r A IH]; [reflexivity|].
  cbn [filter]. destruct (fst r =? name)%string eqn:E.
  - apply String.eqb_eq in E. exfalso. apply Hnot. left. exact E.
  - apply IH. intros H. apply Hnot. now right.
Qed.

Lemma newPreset_one (row : PresetRow Values) (name : string) :
  newPreset [row] name
  = if (fst row =? name)%string then Ok row else Raise IndexError.
Proof. unfold newPreset. cbn [filter]. now destruct (fst row =? name)%string. Qed.

Lemma newPreset_update_hit (A : list (PresetRow Values)) (row : PresetRow Values) (name : string) :
  In name (PresetName A) -> fst row = name ->
  newPreset (map (fun r : (PresetRow Values) => if (fst r =? name)%string then row else r) A)
            name
  = Ok row.
Proof.
  intros Hin Hrow. unfold newPreset.
  induction A as [|r A IH]; [destruct Hin|].
  cbn [map filter]. destruct (fst r =? name)%string eqn:E.
  - rewrite Hrow, String.eqb_refl. reflexivity.
  - rewrite E. apply IH. destruct Hin as [Hin | Hin]; [|exact Hin].
    apply String.eqb_neq in E. contradiction.
Qed.

Lemma newPreset_update_other (A : list (PresetRow Values)) (row : PresetRow Values) (name other : string) :
  fst row = name -> other <> name ->
  newPreset (map (fun r : (PresetRow Values) => if (fst r =? name)%string then row else r) A)
            other
  = newPreset A other.
Proof.
  intros Hrow Hne. unfold newPreset. f_equal.
  induction A as [|r A IH]; [reflexivity|].
  cbn [map filter]. destruct (fst r =? name)%string eqn:E.
  - apply String.eqb_eq in E. rewrite Hrow, E.
    replace (name =? other)%string with false
      by (symmetry; apply String.eqb_neq; congruence).
    exact IH.
  - destruct (fst r =? other)%string; [f_equal; exact IH | exact IH].
Qed.

Lemma saved_preset_selected (presetArray : list (PresetRow Values))
    (presetName : string) (values : Values) :
  (String.length presetName <= 16)%nat ->
  newPreset (savePreset as_formats presetArray presetName values) presetName
  = Ok (presetName, as_formats values) /\
  forall other, other <> presetName ->
    newPreset (savePreset as_formats presetArray presetName values) other
    = newPreset presetArray other.
Proof.
  intros Hlen. unfold savePreset. rewrite (U16_short _ Hlen).
  destruct presetArray as [|r A].
  - cbn [length Nat.eqb]. split.
    + rewrite newPreset_one. cbn [fst]. now rewrite String.eqb_refl.
    + intros other Hne. rewrite newPreset_one. cbn [fst].
      replace (presetName =? other)%string with false
        by (symmetry; apply String.eqb_neq; congruence).
      reflexivity.
  - cbn [length Nat.eqb].
    destruct (existsb (String.eqb presetName) (PresetName (r :: A))) eqn:E;
      cbn [negb].
    + apply existsb_eqb_In in E. split.
      * now apply newPreset_update_hit.
      * intros other Hne. now apply newPreset_update_other.
    + assert (Hnot : ~ In presetName (PresetName (r :: A))).
      { intros H. apply existsb_eqb_In in H. congruence. }
      split.
      * rewrite newPreset_app, (newPreset_miss _ _ Hnot), newPreset_one.
        cbn [fst]. now rewrite String.eqb_refl.
      * intros other Hne. rewrite newPreset_app, newPreset_one. cbn [fst].
        replace (presetName =? other)%string with false
          by (symmetry; apply String.eqb_neq; congruence).
        destruct (newPreset (r :: A) other) as [row | e] eqn:En;
          [reflexivity|].
        f_equal. unfold newPreset in En.
        destruct (filter _ _) in En; congruence.
Qed.

(** X21.  Saving under a name of at most 16 characters keeps the stored
    names in their order: a name already stored leaves the list of names as
    it is, a new name is added at the end.  Names stored once stay stored
    once. *)
Theorem savePreset_names (presetArray : list (PresetRow Values)) (presetName : string)
    (values : Values) :
  (String.length presetName <= 16)%nat ->
  PresetName (savePreset as_formats presetArray presetName values)
  = (if existsb (String.eqb presetName) (PresetName presetArray)
     then PresetName presetArray
     else PresetName presetArray ++ [presetName]) /\
  (NoDup (PresetName presetArray) ->
   NoDup (PresetName (savePreset as_formats presetArray presetName values))).
Proof.
  intros Hlen.
  assert (Hnames : PresetName (savePreset as_formats presetArray presetName values)
    = (if existsb (String.eqb presetName) (PresetName presetArray)
       then PresetName presetArray
       else PresetName presetArray ++ [presetName])).
  { unfold savePreset. rewrite (U16_short _ Hlen).
    destruct presetArray as [|r A]; [reflexivity|].
    cbn [length Nat.eqb].
    destruct (existsb (String.eqb presetName) (PresetName (r :: A)));
      cbn [negb].
    - unfold PresetName. rewrite map_map. apply map_ext. intros row.
      destruct (fst row =? presetName)%string eqn:E; [|reflexivity].
      apply String.eqb_eq in E. now rewrite E.
    - unfold PresetName. now rewrite map_app. }
  split; [exact Hnames|].
  intros Hnd. rewrite Hnames.
  destruct (existsb (String.eqb presetName) (PresetName presetArray)) eqn:E;
    [exact Hnd|].
  apply NoDup_snoc_any; [exact Hnd|].
  intros H. apply existsb_eqb_In in H. congruence.
Qed.

(** X22.  A name of more than 16 characters is stored cut to 16 characters,
    so it never equals a stored name: every save under it adds a row, and
    selecting the preset by the name right after saving it raises
    IndexError. *)
Theorem long_preset_name_is_never_found
    (presetArray : list (PresetRow Values)) (presetName : string)
    (values : Values) :
  (16 < String.length presetName)%nat ->
  Forall (fun name => (String.length name <= 16)%nat) (PresetName presetArray) ->
  length (savePreset as_formats presetArray presetName values)
  = S (length presetArray) /\
  Forall (fun name => (String.length name <= 16)%nat)
         (PresetName (savePreset as_formats presetArray presetName values)) /\
  newPreset (savePreset as_formats presetArray presetName values) presetName
  = Raise IndexError.
Proof.
  intros Hlong Hall.
  assert (Hnot : forall A : list (PresetRow Values),
            Forall (fun name => (String.length name <= 16)%nat) (PresetName A) ->
            ~ In presetName (PresetName A)).
  { intros A HA Hin. rewrite Forall_forall in HA. specialize (HA _ Hin). lia. }
  assert (Hmiss : existsb (String.eqb presetName) (PresetName presetArray)
                  = false).
  { destruct (existsb _ _) eqn:E; [|reflexivity].
    apply existsb_eqb_In in E. now apply Hnot in E. }
  assert (Hsave : savePreset as_formats presetArray presetName values
                  = (presetArray ++ [(U16 presetName, as_formats values)])%list).
  { unfold savePreset. destruct presetArray as [|r A]; [reflexivity|].
    cbn [length Nat.eqb]. now rewrite Hmiss. }
  assert (Hall' : Forall (fun name => (String.length name <= 16)%nat)
                         (PresetName (savePreset as_formats presetArray presetName values))).
  { rewrite Hsave. unfold PresetName. rewrite map_app. apply Forall_app.
    split; [exact Hall|]. constructor; [apply U16_length | constructor]. }
  split; [rewrite Hsave, length_app; cbn; lia|]. split; [exact Hall'|].
  apply newPreset_miss, Hnot, Hall'.
Qed.

End PresetFacts.

Lemma stored_values_short (values : list (string * PresetValue)) :
  (forall field s, In (field, VStr s) values ->
     (String.length s <= 32)%nat) ->
  stored_values values = values.
Proof.
  unfold stored_values. induction values as [|[field v] values IH]; intros H.
  - reflexivity.
  - cbn [map fst snd]. rewrite IH by (intros f s Hf; apply (H f s); now right).
    f_equal. f_equal. destruct v as [z | q | b | s]; try reflexivity.
    cbn [stored_value]. f_equal. unfold U32.
    specialize (H field s (or_introl eq_refl)).
    revert H. generalize 32%nat as m. clear.
    induction s as [|c s IH]; intros m H.
    + destruct m; reflexivity.
    + destruct m as [|m]; cbn [String.length] in H; [lia|].
      cbn [substring]. f_equal. apply IH. lia.
Qed.

(** X20.  A preset saved under a name of at most 16 characters is the row
    that [loadPreset] selects for that name afterwards, whether the name was
    new or already stored.  The row holds the values just saved with every
    [str] field cut to its first 32 characters, so exactly the values saved
    when no [str] field is longer; the row selected for any other name is
    the same as before the save. *)
Theorem saved_preset_is_loaded_back
    (presetArray : list (PresetRow (list (string * PresetValue))))
    (presetName : string) (values : list (string * PresetValue)) :
  (String.length presetName <= 16)%nat ->
  newPreset (savePreset stored_values presetArray presetName values)
            presetName
  = Ok (presetName, stored_values values) /\
  map fst (stored_values values) = map fst values /\
  (forall field v, In (field, v) values ->
     In (field, stored_value v) (stored_values values)) /\
  ((forall field s, In (field, VStr s) values ->
      (String.length s <= 32)%nat) ->
   newPreset (savePreset stored_values presetArray presetName values)
             presetName
   = Ok (presetName, values)) /\
  forall other, other <> presetName ->
    newPreset (savePreset stored_values presetArray presetName values) other
    = newPreset presetArray other.
Proof.
  intros Hlen.
  destruct (saved_preset_selected _ stored_values presetArray presetName
              values Hlen) as [Hsel Hother].
  split; [exact Hsel|]. split; [|split; [|split; [|exact Hother]]].
  - unfold stored_values. rewrite map_map. reflexivity.
  - intros field v Hin. unfold stored_values. apply in_map_iff.
    exists (field, v). split; [reflexivity | exact Hin].
  - intros Hshort. rewrite Hsel. now rewrite stored_values_short.
Qed.

Lemma saved_preset_is_loaded_back_witness :
  (String.length "Dark" <= 16)%nat /\
  newPreset (savePreset stored_values [("Default"%string, default_values)]
                        "Dark" long_code_values) "Dark"
  = Ok ("Dark"%string,
        [("V_blurAmount"%string, VInt 1);
         ("V_dilerocode"%string, VStr "dddddddddddddddddddddddddddddddd");
         ("V_saveRGB"%string, VBool true)]) /\
  newPreset (savePreset stored_values [("Default"%string, default_values)]
                        "Dark" long_code_values) "Default"
  = Ok ("Default"%string, default_values) /\
  newPreset (savePreset stored_values [("Default"%string, default_values)]
                        "Default" default_values) "Default"
  = Ok ("Default"%string, default_values).
Proof.
  assert (H : (String.length "Dark" <= 16)%nat) by (cbn; lia).
  assert (H' : (String.length "Default" <= 16)%nat) by (cbn; lia).
  split; [exact H|].
  destruct (saved_preset_is_loaded_back
              [("Default"%string, default_values)] "Dark" long_code_values H)
    as (Hsel & _ & _ & _ & Hother).
  split; [exact Hsel|].
  split; [rewrite Hother by discriminate; reflexivity|].
  destruct (saved_preset_is_loaded_back
              [("Default"%string, default_values)] "Default" default_values
              H')
    as (_ & _ & _ & Hshort & _).
  apply Hshort.
  intros field s [E | [E | [E | []]]]; try discriminate E.
  injection E as _ <-. cbn. lia.
Defined.

Lemma savePreset_names_witness :
  (String.length "Dark" <= 16)%nat /\
  PresetName (savePreset stored_values [("Default"%string, default_values)]
                         "Dark" long_code_values)
  = ["Default"%string; "Dark"%string].
Proof.
  assert (H : (String.length "Dark" <= 16)%nat) by (cbn; lia).
  split; [exact H|].
  exact (proj1 (savePreset_names _ stored_values
                  [("Default"%string, default_values)] "Dark"
                  long_code_values H)).
Defined.

Lemma long_preset_name_is_never_found_witness :
  (16 < String.length "a preset for dark paper")%nat /\
  newPreset (savePreset stored_values [("Default"%string, default_values)]
                        "a preset for dark paper" default_values)
            "a preset for dark paper"
  = Raise IndexError.
Proof.
  assert (H : (16 < String.length "a preset for dark paper")%nat)
    by (cbn; lia).
  split; [exact H|].
  apply (long_preset_name_is_never_found _ stored_values
           [("Default"%string, default_values)]
           "a preset for dark paper" default_values H).
  repeat constructor; cbn; lia.
Defined.

(** * Hovering *)

Section HoverFacts.

Variable pointPolygonTest : contour -> Z * Z -> Z.

Lemma hover_spec (cs : list contour) (mouse : Z * Z) (i : Z) :
  0 <= i ->
  (hover pointPolygonTest i cs mouse = -1 /\
   forall c, In c cs -> pointPolygonTest c mouse < 0) \/
  (exists j c,
     hover pointPolygonTest i cs mouse = i + Z.of_nat j /\
     nth_error cs j = Some c /\ 0 <= pointPolygonTest c mouse /\
     forall j' c', (j' < j)%nat -> nth_error cs j' = Some c' ->
       pointPolygonTest c' mouse < 0).
Proof.
  revert i. induction cs as [|c cs IH]; intros i Hi.
  - left. split; [reflexivity | intros c []].
  - cbn [hover]. destruct (pointPolygonTest c mouse >=? 0) eqn:E.
    + right. exists 0%nat, c. rewrite Z.geb_le in E.
      split; [cbn; lia|]. split; [reflexivity|]. split; [lia|].
      intros j' c' Hj'. lia.
    + assert (Hc : pointPolygonTest c mouse < 0).
      { destruct (Z.geb_spec (pointPolygonTest c mouse) 0); [discriminate | lia]. }
      destruct (IH (i + 1) ltac:(lia)) as [[Hk Hall] | (j & c0 & Hk & Hn & Ht & Hb)].
      * left. split; [exact Hk|]. intros c' [<- | Hc']; [exact Hc | now apply Hall].
      * right. exists (S j), c0. split; [rewrite Hk; lia|].
        split; [exact Hn|]. split; [exact Ht|].
        intros [|j'] c' Hj' Hn'.
        -- cbn in Hn'. injection Hn' as <-. exact Hc.
        -- cbn in Hn'. apply (Hb j' c'); [lia | exact Hn'].
Qed.

Lemma mapM_py_index_ok (cs : list contour) (idx : list Z) :
  (forall k, In k idx -> in_range (length cs) k) ->
  exists ys, mapM (py_index cs) idx = Ok ys.
Proof.
  intros H. destruct (mapM_ok (py_index cs) idx) as (ys & E & _).
  - intros k Hk. apply py_index_ok, H, Hk.
  - eauto.
Qed.

Lemma drawContours_ok (w : Matcher) (inFrame : bool) (mousex mousey : Z) :
  drawable w ->
  drawContours pointPolygonTest w inFrame mousex mousey
  = Ok (with_mouse w (if inFrame
                      then hover pointPolygonTest 0 (contours w) (mousex, mousey)
                      else -1)).
Proof.
  intros (Hsel & Hc & Ha & Hr). unfold drawContours.
  set (w' := if inFrame then _ else _).
  assert (Ew : w' = with_mouse w (if inFrame
                      then hover pointPolygonTest 0 (contours w) (mousex, mousey)
                      else -1)).
  { unfold w'. destruct inFrame; reflexivity. }
  rewrite Ew. cbn [with_mouse selectedCont contours closeInds addConts removeConts].
  destruct (selectedCont w =? -1) eqn:Es; cbn [negb]; [reflexivity|].
  destruct Hsel as [Hsel | Hsel]; [apply Z.eqb_neq in Es; contradiction|].
  destruct (py_index_ok _ _ Hsel) as (c & ->). cbn [bind].
  destruct (length (closeInds w) =? 0)%nat; cbn [negb]; [reflexivity|].
  destruct (mapM_py_index_ok _ _ Hc) as (ys & ->). cbn [bind].
  destruct (mapM_py_index_ok _ _ Ha) as (ys1 & ->).
  destruct (mapM_py_index_ok _ _ Hr) as (ys2 & ->).
  destruct (length (addConts w) =? 0)%nat, (length (removeConts w) =? 0)%nat;
    reflexivity.
Qed.

(** X23.  While the zones are not refined and the indices the drawing reads
    are positions of [contours], [drawContours] completes and changes nothing
    of the matcher but [inContour], which becomes -1 or a position of
    [contours].  If it is a position, the mouse is in the frame and inside
    or on the edge of that contour, and no contour under the mouse has a
    smaller area; if it is -1 with the mouse in the frame, no contour is
    under the mouse. *)
Theorem hover_picks_smallest_contour_under_mouse (found : list contour)
    (w : Matcher) (inFrame : bool) (mousex mousey : Z) :
  contours w = ex_contours (cvContour found) ->
  drawable w ->
  exists k,
    drawContours pointPolygonTest w inFrame mousex mousey
    = Ok (with_mouse w k) /\
    (k = -1 \/ 0 <= k < Z.of_nat (length (contours w))) /\
    (k <> -1 ->
     inFrame = true /\
     exists c, nth_error (contours w) (Z.to_nat k) = Some c /\
               0 <= pointPolygonTest c (mousex, mousey) /\
               forall c', In c' (contours w) ->
                 0 <= pointPolygonTest c' (mousex, mousey) ->
                 (contourArea c <= contourArea c')%Q) /\
    (k = -1 -> inFrame = true ->
     forall c, In c (contours w) -> pointPolygonTest c (mousex, mousey) < 0).
Proof.
  intros Hex Hd. eexists. split; [now apply drawContours_ok|].
  assert (Hsorted : StronglySorted Qle (map contourArea (contours w))).
  { rewrite Hex, <- cvContour_sizes. unfold cvContour, take. cbn [ex_sizes].
    apply StronglySorted_map, StronglySorted_filter, np_argsort_sorted. }
  destruct inFrame.
  - destruct (hover_spec (contours w) (mousex, mousey) 0 ltac:(lia))
      as [[Hk Hall] | (j & c & Hk & Hn & Ht & Hb)].
    + rewrite Hk. split; [now left|]. split; [intros H; contradiction|].
      intros _ _. exact Hall.
    + rewrite Hk. cbn [Z.add].
      assert (Hj : (j < length (contours w))%nat)
        by (apply nth_error_Some; congruence).
      split; [right; lia|]. split.
      * intros _. split; [reflexivity|]. exists c.
        rewrite Nat2Z.id. split; [exact Hn|]. split; [exact Ht|].
        intros c' Hc' Ht'.
        apply In_nth_error in Hc' as (j' & Hn').
        assert (Hj' : (j' < length (contours w))%nat)
          by (apply nth_error_Some; congruence).
        destruct (Nat.lt_trichotomy j' j) as [Hlt | [-> | Hgt]].
        -- specialize (Hb j' c' Hlt Hn'). lia.
        -- rewrite Hn in Hn'. injection Hn' as <-. apply Qle_refl.
        -- pose proof (StronglySorted_nth Qle _ 0%Q Hsorted j j'
                         ltac:(rewrite length_map; lia)) as Hle.
           rewrite (nth_indep _ 0%Q (contourArea [])) in Hle
             by (rewrite length_map; lia).
           rewrite (nth_indep _ 0%Q (contourArea [])) in Hle
             by (rewrite length_map; lia).
           rewrite !map_nth in Hle.
           rewrite (nth_error_nth _ _ _ Hn), (nth_error_nth _ _ _ Hn') in Hle.
           exact Hle.
      * intros H. lia.
  - split; [now left|]. split; [intros H; contradiction|].
    intros _ H. discriminate.
Qed.

End HoverFacts.

Lemma hover_picks_smallest_contour_under_mouse_witness :
  exists k,
    drawContours (fun c _ => if Qle_bool 16 (contourArea c) then 1 else -1)
                 sample_window true 0 0
    = Ok (with_mouse sample_window k) /\
    (k = -1 \/ 0 <= k < Z.of_nat (length (contours sample_window))) /\
    (k <> -1 ->
     true = true /\
     exists c, nth_error (contours sample_window) (Z.to_nat k) = Some c /\
               0 <= (if Qle_bool 16 (contourArea c) then 1 else -1) /\
               forall c', In c' (contours sample_window) ->
                 0 <= (if Qle_bool 16 (contourArea c') then 1 else -1) ->
                 (contourArea c <= contourArea c')%Q) /\
    (k = -1 -> true = true ->
     forall c, In c (contours sample_window) ->
       (if Qle_bool 16 (contourArea c) then 1 else -1) < 0).
Proof.
  apply (hover_picks_smallest_contour_under_mouse
           (fun c _ => if Qle_bool 16 (contourArea c) then 1 else -1)
           sample_found sample_window true 0 0).
  - reflexivity.
  - split; [right; vm_compute; split; [discriminate | reflexivity]|].
    split; [|split]; intros ? [].
Defined.
